(** * KPI dashboard: the two CSV analysis routes

    A shallow embedding of [src/app/api/upload/route.ts] and
    [src/app/api/analyze-default/route.ts], with the properties of their
    analysis pipeline.

    Conventions of the model:
    - a JavaScript string is its sequence of UTF-16 code units;
    - a JavaScript number is a rational, or NaN, or an infinity. The
      operations come twice: exact ones, for the properties that do not
      depend on the rounding of an operation, and in [Binary64] the ones of
      IEEE doubles, with the functions of the routes that compute with
      them, for the properties that do. The negative zero is not modelled;
    - [undefined] is [None];
    - a thrown exception is the left summand of [M]. *)

From Stdlib Require Import QArith Qround Qabs Qpower Lqa.
From Stdlib.Strings Require Import Byte.
From stdpp Require Import gmap strings list sorting.

Open Scope N_scope.

(** ** Strings *)

Abbreviation jsstring := (list N).
Abbreviation jsval := (option (list N)).

(** The code units of a literal. *)
Definition js (s : string) : jsstring :=
  (λ a, Ascii.N_of_ascii a) <$> String.list_ascii_of_string s.

(** A template literal prints [undefined] by name. *)
Definition tmpl (v : jsval) : jsstring :=
  match v with
  | Some s => s
  | None => js "undefined"
  end.

(** [String.prototype.split] with a separator of one code unit. *)
Fixpoint split (sep : N) (s : jsstring) : list jsstring :=
  match s with
  | [] => [[]]
  | c :: s' =>
      if c =? sep then [] :: split sep s'
      else match split sep s' with
           | f :: fs => (c :: f) :: fs
           | [] => [[c]]
           end
  end.

(** [Array.prototype.join]. *)
Fixpoint join (sep : jsstring) (l : list jsstring) : jsstring :=
  match l with
  | [] => []
  | [x] => x
  | x :: l' => x ++ sep ++ join sep l'
  end.

Fixpoint startsWith (p s : jsstring) : bool :=
  match p, s with
  | [], _ => true
  | _ :: _, [] => false
  | a :: p', b :: s' => (a =? b) && startsWith p' s'
  end.

(** [String.prototype.includes]. *)
Fixpoint includes (needle hay : jsstring) : bool :=
  startsWith needle hay ||
  match hay with
  | [] => false
  | _ :: hay' => includes needle hay'
  end.

(** WhiteSpace and LineTerminator of ECMAScript, which [trim] strips and
    which may surround a numeric literal. *)
Definition isWhite (c : N) : bool :=
  ((9 <=? c) && (c <=? 13)) || (c =? 32) || (c =? 160) || (c =? 5760) ||
  ((8192 <=? c) && (c <=? 8202)) || (c =? 8232) || (c =? 8233) ||
  (c =? 8239) || (c =? 8287) || (c =? 12288) || (c =? 65279).

Fixpoint trimStart (s : jsstring) : jsstring :=
  match s with
  | c :: s' => if isWhite c then trimStart s' else s
  | [] => []
  end.

Definition trimEnd (s : jsstring) : jsstring := reverse (trimStart (reverse s)).

(** [String.prototype.trim]. *)
Definition trim (s : jsstring) : jsstring := trimEnd (trimStart s).

Definition isDigit (c : N) : bool := (48 <=? c) && (c <=? 57).

Fixpoint span (p : N → bool) (s : jsstring) : jsstring * jsstring :=
  match s with
  | c :: s' => if p c then let '(a, b) := span p s' in (c :: a, b) else ([], s)
  | [] => ([], [])
  end.

(** Case folding of the [i] flag without the [u] flag: a code unit at or
    above 128 never folds onto an ASCII one, so only the ASCII letters
    are folded. *)
Definition canonicalize (c : N) : N :=
  if (97 <=? c) && (c <=? 122) then c - 32 else c.

Definition equalsIgnoreCase (a b : jsstring) : bool :=
  bool_decide (canonicalize <$> a = canonicalize <$> b).

(** The test [/^\d+ rows affected\)?$/i]: a greedy run of digits, of which
    there is at least one, then the words and at most one parenthesis up to
    the end of the string. *)
Definition matchesRowsAffected (s : jsstring) : bool :=
  let '(digits, rest) := span isDigit s in
  negb (bool_decide (digits = [])) &&
  (equalsIgnoreCase rest (js " rows affected") ||
   equalsIgnoreCase rest (js " rows affected)")).

(** ** Numbers *)

Inductive number :=
  | Fin (q : Q)
  | PInf
  | NInf
  | NaN.

Definition qzero (q : Q) : bool := (Qnum q =? 0)%Z.
Definition qpos (q : Q) : bool := (0 <? Qnum q)%Z.

Definition nneg (a : number) : number :=
  match a with
  | Fin q => Fin (Qred (- q))
  | PInf => NInf
  | NInf => PInf
  | NaN => NaN
  end.

Definition nadd (a b : number) : number :=
  match a, b with
  | NaN, _ | _, NaN => NaN
  | Fin x, Fin y => Fin (Qred (x + y))
  | PInf, NInf | NInf, PInf => NaN
  | PInf, _ | _, PInf => PInf
  | NInf, _ | _, NInf => NInf
  end.

Definition nsub (a b : number) : number := nadd a (nneg b).

(** The sign of a number, [None] for zero and NaN. *)
Definition nsign (a : number) : option bool :=
  match a with
  | Fin q => if qzero q then None else Some (qpos q)
  | PInf => Some true
  | NInf => Some false
  | NaN => None
  end.

Definition inf (positive : bool) : number := if positive then PInf else NInf.

Definition nmul (a b : number) : number :=
  match a, b with
  | NaN, _ | _, NaN => NaN
  | Fin x, Fin y => Fin (Qred (x * y))
  | _, _ =>
      match nsign a, nsign b with
      | Some s, Some t => inf (eqb s t)
      | _, _ => NaN
      end
  end.

Definition ndiv (a b : number) : number :=
  match a, b with
  | NaN, _ | _, NaN => NaN
  | Fin x, Fin y =>
      if qzero y then
        match nsign a with
        | Some s => inf s
        | None => NaN
        end
      else Fin (Qred (x / y))
  | Fin _, _ => Fin 0
  | PInf, Fin y => inf (negb (Qnum y <? 0)%Z)
  | NInf, Fin y => inf (Qnum y <? 0)%Z
  | _, _ => NaN
  end.

(** [a > b]; false as soon as one side is NaN. *)
Definition ngt (a b : number) : bool :=
  match a, b with
  | NaN, _ | _, NaN => false
  | Fin x, Fin y => negb (Qle_bool x y)
  | PInf, PInf => false
  | PInf, _ => true
  | Fin _, NInf => true
  | _, _ => false
  end.

(** [Math.round]: the nearest integer, a half going up. *)
Definition mathRound (a : number) : number :=
  match a with
  | Fin q => Fin (inject_Z (Qfloor (q + (1 # 2))))
  | _ => a
  end.

Definition ofNat (n : nat) : number := Fin (inject_Z (Z.of_nat n)).

(** *** [Number] applied to a string *)

Definition digitValue (radix c : N) : option N :=
  let v :=
    if isDigit c then Some (c - 48)
    else if (97 <=? c) && (c <=? 102) then Some (c - 87)
    else if (65 <=? c) && (c <=? 70) then Some (c - 55)
    else None in
  match v with
  | Some d => if d <? radix then Some d else None
  | None => None
  end.

Fixpoint digitsFrom (radix acc : N) (s : jsstring) : option N :=
  match s with
  | [] => Some acc
  | c :: s' =>
      match digitValue radix c with
      | Some d => digitsFrom radix (acc * radix + d) s'
      | None => None
      end
  end.

(** A non-empty run of digits of the radix, and nothing else. *)
Definition digitsOnly (radix : N) (s : jsstring) : option N :=
  match s with
  | [] => None
  | _ => digitsFrom radix 0 s
  end.

(** ExponentPart: [e] or [E], an optional sign, digits. *)
Definition exponentPart (s : jsstring) : option Z :=
  match s with
  | [] => Some 0%Z
  | c :: s' =>
      if (c =? 101) || (c =? 69) then
        match s' with
        | 43 :: d => Z.of_N <$> digitsOnly 10 d
        | 45 :: d => (λ n, - Z.of_N n)%Z <$> digitsOnly 10 d
        | _ => Z.of_N <$> digitsOnly 10 s'
        end
      else None
  end.

(** StrUnsignedDecimalLiteral but for [Infinity]: digits, an optional point
    and digits, with a digit on one side of the point at least, then an
    optional exponent. *)
Definition unsignedDecimal (s : jsstring) : option Q :=
  let '(ip, r1) := span isDigit s in
  let '(fp, r2) :=
    match r1 with
    | 46 :: r => span isDigit r
    | _ => ([], r1)
    end in
  if bool_decide (ip = []) && bool_decide (fp = []) then None
  else
    match digitsFrom 10 0 (ip ++ fp), exponentPart r2 with
    | Some m, Some e =>
        Some (inject_Z (Z.of_N m) * Qpower (10 # 1) (e - Z.of_nat (length fp)))%Q
    | _, _ => None
    end.

(** [Number(s)]: the StringNumericLiteral grammar; a string outside it is
    NaN, an empty or blank one is 0. *)
Definition Number (s : jsstring) : number :=
  let radixLiteral radix r :=
    match digitsOnly radix r with
    | Some n => Fin (inject_Z (Z.of_N n))
    | None => NaN
    end in
  match trim s with
  | [] => Fin 0
  | 48 :: 120 :: r | 48 :: 88 :: r => radixLiteral 16 r
  | 48 :: 111 :: r | 48 :: 79 :: r => radixLiteral 8 r
  | 48 :: 98 :: r | 48 :: 66 :: r => radixLiteral 2 r
  | t =>
      let '(positive, u) :=
        match t with
        | 43 :: u => (true, u)
        | 45 :: u => (false, u)
        | _ => (true, t)
        end in
      if bool_decide (u = js "Infinity") then inf positive
      else
        match unsignedDecimal u with
        | Some q => if positive then Fin (Qred q) else Fin (Qred (- q))
        | None => NaN
        end
  end.

(** ** Exceptions *)

(** What a [catch] clause may receive: an [Error] with its message, or any
    other thrown value. *)
Inductive exn :=
  | ErrorObject (message : jsstring)
  | Thrown.

Abbreviation M := (sum exn).

#[global] Instance M_ret : MRet M := λ A a, inr a.

#[global] Instance M_bind : MBind M := λ A B k m,
  match m with
  | inl e => inl e
  | inr a => k a
  end.

Definition throw {A} (e : exn) : M A := inl e.

Fixpoint arrayMapM {A B} (f : A → M B) (l : list A) : M (list B) :=
  match l with
  | [] => mret []
  | a :: l' => b ← f a; bs ← arrayMapM f l'; mret (b :: bs)
  end.

(** [error instanceof Error ? error.message : 'Unknown error'] *)
Definition messageOf (e : exn) : jsstring :=
  match e with
  | ErrorObject m => m
  | Thrown => js "Unknown error"
  end.

(** The TypeError of a property read on [undefined]; the text is the
    engine's. *)
Definition readOfUndefined (property : string) : exn :=
  ErrorObject (js "Cannot read properties of undefined (reading '" ++
               js property ++ js "')").

(** ** Sorting *)

(** [Array.prototype.sort] is stable. With a comparator that is a total
    preorder the result does not depend on the algorithm; the model inserts
    from the right, each element before the first one it does not follow. *)
Section Sort.
Context {A : Type} (before : A → A → bool).

Fixpoint insertSorted (x : A) (l : list A) : list A :=
  match l with
  | [] => [x]
  | y :: l' => if before x y then x :: l else y :: insertSorted x l'
  end.

Fixpoint stableSort (l : list A) : list A :=
  match l with
  | [] => []
  | x :: l' => insertSorted x (stableSort l')
  end.
End Sort.

(** The order of strings: code unit by code unit, a prefix first. *)
Fixpoint stringLe (a b : jsstring) : bool :=
  match a, b with
  | [], _ => true
  | _ :: _, [] => false
  | x :: a', y :: b' => (x <? y) || ((x =? y) && stringLe a' b')
  end.

(** The default comparator of [sort]: [undefined] after every string. *)
Definition defaultBefore (a b : jsval) : bool :=
  match a, b with
  | _, None => true
  | None, Some _ => false
  | Some x, Some y => stringLe x y
  end.

(** ** Work periods (upload route) *)

Record WorkPeriod := {
  start_time : jsval;
  end_time : jsval;
  duration_hours : number;
  barcode_count : nat
}.

(** [parseTimeToMinutes]: the text before the first point, cut at the
    colons; a missing field is [undefined], hence NaN in the sum. A call on
    [undefined] throws at [timeStr.split]. *)
Definition parseTimeToMinutes (timeStr : jsval) : M number :=
  match timeStr with
  | None => throw (readOfUndefined "split")
  | Some str =>
      let timePart := default [] (head (split 46 str)) in
      let fields := Number <$> split 58 timePart in
      let field i := default NaN (fields !! i) in
      let hours := field 0%nat in
      let minutes := field 1%nat in
      let seconds := field 2%nat in
      mret (nadd (nadd (nmul hours (Fin 60)) minutes) (ndiv seconds (Fin 60)))
  end.

(** The duration of a period that is closed: from its own two ends. *)
Definition closePeriod (p : WorkPeriod) : M WorkPeriod :=
  startMinutes ← parseTimeToMinutes (start_time p);
  endMinutes ← parseTimeToMinutes (end_time p);
  mret {| start_time := start_time p;
          end_time := end_time p;
          duration_hours := ndiv (nsub endMinutes startMinutes) (Fin 60);
          barcode_count := barcode_count p |}.

Definition newPeriod (t : jsval) : WorkPeriod :=
  {| start_time := t; end_time := t; duration_hours := Fin 0; barcode_count := 1 |}.

(** The loop of [calculateWorkPeriods] from index [i]: [prev] is
    [sortedTimes[i - 1]], [rest] the entries from [sortedTimes[i]] on. *)
Fixpoint walkPeriods (prev : jsval) (currentPeriod : WorkPeriod)
    (periods : list WorkPeriod) (rest : list jsval) : M (list WorkPeriod) :=
  match rest with
  | [] =>
      closed ← closePeriod currentPeriod;
      mret (periods ++ [closed])
  | t :: rest' =>
      prevTime ← parseTimeToMinutes prev;
      currentTime ← parseTimeToMinutes t;
      let timeDiff := nsub currentTime prevTime in
      if ngt timeDiff (Fin 30) then
        closed ← closePeriod currentPeriod;
        walkPeriods t (newPeriod t) (periods ++ [closed]) rest'
      else
        walkPeriods t
          {| start_time := start_time currentPeriod;
             end_time := t;
             duration_hours := duration_hours currentPeriod;
             barcode_count := S (barcode_count currentPeriod) |}
          periods rest'
  end.

Definition calculateWorkPeriods (timeEntries : list jsval) : M (list WorkPeriod) :=
  match timeEntries with
  | [] => mret []
  | _ =>
      let sortedTimes := stableSort defaultBefore timeEntries in
      let first := mjoin (sortedTimes !! 0%nat) in
      walkPeriods first (newPeriod first) [] (drop 1 sortedTimes)
  end.

(** ** Buffers and their decoding *)

Inductive BufferEncoding := utf16le | utf8 | latin1 | ascii.

#[global] Instance BufferEncoding_eq_dec : EqDecision BufferEncoding.
Proof. solve_decision. Defined.

Abbreviation Buffer := (list Byte.byte).

Definition byteN (b : Byte.byte) : N := Byte.to_N b.

(** Two bytes a code unit, the low one first; a last odd byte is left. *)
Fixpoint decodeUtf16le (buffer : list N) : jsstring :=
  match buffer with
  | lo :: hi :: buffer' => (lo + 256 * hi) :: decodeUtf16le buffer'
  | _ => []
  end.

(** The code units of a code point: itself, or a surrogate pair. *)
Definition codeUnits (cp : N) : jsstring :=
  if cp <? 65536 then [cp]
  else [55296 + (cp - 65536) / 1024; 56320 + (cp - 65536) mod 1024].

(** A sequence of UTF-8 that is under way: the code point so far, the
    continuation bytes still needed and the bounds of the next one. *)
Record Utf8Pending := {
  codePoint : N;
  bytesNeeded : nat;
  lowerBoundary : N;
  upperBoundary : N
}.

(** A byte met outside a sequence: it is a character, or opens a sequence,
    or is replaced by U+FFFD. *)
Definition utf8Lead (b : N) : jsstring * option Utf8Pending :=
  if b <=? 127 then ([b], None)
  else if (194 <=? b) && (b <=? 223) then
    ([], Some {| codePoint := N.land b 31; bytesNeeded := 1;
                 lowerBoundary := 128; upperBoundary := 191 |})
  else if (224 <=? b) && (b <=? 239) then
    ([], Some {| codePoint := N.land b 15; bytesNeeded := 2;
                 lowerBoundary := if b =? 224 then 160 else 128;
                 upperBoundary := if b =? 237 then 159 else 191 |})
  else if (240 <=? b) && (b <=? 244) then
    ([], Some {| codePoint := N.land b 7; bytesNeeded := 3;
                 lowerBoundary := if b =? 240 then 144 else 128;
                 upperBoundary := if b =? 244 then 143 else 191 |})
  else ([65533], None).

(** The UTF-8 decoder with replacement: an ill-formed sequence gives one
    U+FFFD for its longest well-formed start and the offending byte is read
    again. *)
Fixpoint decodeUtf8 (pending : option Utf8Pending) (buffer : list N) : jsstring :=
  match buffer with
  | [] =>
      match pending with
      | Some _ => [65533]
      | None => []
      end
  | b :: buffer' =>
      match pending with
      | None =>
          let '(out, next) := utf8Lead b in out ++ decodeUtf8 next buffer'
      | Some p =>
          if (lowerBoundary p <=? b) && (b <=? upperBoundary p) then
            let cp := N.lor (N.shiftl (codePoint p) 6) (N.land b 63) in
            match bytesNeeded p with
            | 0%nat | 1%nat => codeUnits cp ++ decodeUtf8 None buffer'
            | S n =>
                decodeUtf8
                  (Some {| codePoint := cp; bytesNeeded := n;
                           lowerBoundary := 128; upperBoundary := 191 |})
                  buffer'
            end
          else
            let '(out, next) := utf8Lead b in
            65533 :: out ++ decodeUtf8 next buffer'
      end
  end.

(** [buffer.toString(encoding)]. It does not throw for these encodings. *)
Definition toString (encoding : BufferEncoding) (buffer : Buffer) : jsstring :=
  match encoding with
  | utf16le => decodeUtf16le (byteN <$> buffer)
  | utf8 => decodeUtf8 None (byteN <$> buffer)
  | latin1 => byteN <$> buffer
  | ascii => (λ b, N.land (byteN b) 127) <$> buffer
  end.

(** The test of the loop of [detectEncoding]. *)
Definition looksLikeCsv (text : jsstring) : bool :=
  includes (js ",") text || includes [9] text || includes (js "firstname") text.

(** [detectEncoding], the same function in both routes. *)
Definition detectEncoding (buffer : Buffer) : BufferEncoding :=
  match buffer with
  | xff :: xfe :: _ => utf16le
  | xfe :: xff :: _ => utf16le
  | _ =>
      let encodings := [utf16le; utf8; latin1; ascii] in
      match List.find (λ encoding, looksLikeCsv (toString encoding buffer)) encodings with
      | Some encoding => encoding
      | None => utf8
      end
  end.

(** ** The parts the two routes have in common *)

(** The filter of the lines, before the parser. *)
Definition keepLine (line : jsstring) : bool :=
  let trimmed := trim line in
  negb (bool_decide (trimmed = [])) &&
  negb (bool_decide (trimmed = [13])) &&
  negb (matchesRowsAffected trimmed) &&
  bool_decide (18 ≤ length (split 9 trimmed))%nat.

Definition cleanContent (csvContent : jsstring) : jsstring :=
  join [10] (List.filter keepLine (split 10 csvContent)).

(** A parsed row: an object from the names of the header to the fields. *)
Abbreviation Row := (gmap (list N) (list N)).

Record ParseError := { message : jsstring }.

(** What [Papa.parse] hands back, as far as the routes read it. *)
Record ParseResult := {
  errors : list ParseError;
  data : list Row
}.

(** [requiredColumns.filter(col => !data[0] || !(col in data[0]))] *)
Definition missingColumns (requiredColumns : list jsstring) (rows : list Row)
    : list jsstring :=
  List.filter
    (λ col, match head rows with
            | None => true
            | Some row => negb (bool_decide (is_Some (row !! col)))
            end)
    requiredColumns.

(** The key of a row: [`${row.firstname}_${row.lastname}`]. *)
Definition rowKey (row : Row) : jsstring :=
  tmpl (row !! js "firstname") ++ js "_" ++ tmpl (row !! js "lastname").

(** A [Map] with string keys: its entries in the order of insertion. *)
Section JsMap.
Context {V : Type}.

Fixpoint mapGet (k : jsstring) (m : list (jsstring * V)) : option V :=
  match m with
  | [] => None
  | (k', v) :: m' => if decide (k = k') then Some v else mapGet k m'
  end.

Definition mapHas (k : jsstring) (m : list (jsstring * V)) : bool :=
  bool_decide (is_Some (mapGet k m)).

(** [set] keeps the place of a key that is there, and appends a new one. *)
Fixpoint mapSet (k : jsstring) (v : V) (m : list (jsstring * V))
    : list (jsstring * V) :=
  match m with
  | [] => [(k, v)]
  | (k', v') :: m' =>
      if decide (k = k') then (k, v) :: m' else (k', v') :: mapSet k v m'
  end.
End JsMap.

(** [forEach] with a body that may throw. *)
Fixpoint forEachM {A S} (body : S → A → M S) (s : S) (l : list A) : M S :=
  match l with
  | [] => mret s
  | a :: l' => s' ← body s a; forEachM body s' l'
  end.

Record Statistics := {
  total_people : nat;
  total_ranges : nat;
  average_ranges_per_person : number
}.

Record AnalysisData (P : Type) := {
  people_data : list P;
  statistics : Statistics;
  filename : jsstring;
  upload_time : jsstring
}.
Arguments people_data {P} _.
Arguments statistics {P} _.
Arguments filename {P} _.
Arguments upload_time {P} _.

(** The envelope: [success] with [data], or not with [error]. *)
Inductive AnalysisResult (P : Type) :=
  | Success (d : AnalysisData P)
  | Failure (error : jsstring).
Arguments Success {P} _.
Arguments Failure {P} _.

(** [Math.round(x * 100) / 100] *)
Definition round2 (x : number) : number :=
  ndiv (mathRound (nmul x (Fin 100))) (Fin 100).

(** The shape of a person differs between the routes; both carry the count. *)
Class Counted (P : Type) := countOf : P → nat.

Section Summary.
Context {P : Type} `{Counted P}.

(** The comparator [(a, b) => b.barcode_range_count - a.barcode_range_count]
    is not positive. *)
Definition countBefore (a b : P) : bool :=
  bool_decide (countOf b ≤ countOf a)%nat.

Definition sortByCount (people : list P) : list P :=
  stableSort countBefore people.

Definition summarize (peopleData : list P) : Statistics :=
  let totalPeople := length peopleData in
  let totalRanges := fold_left (λ sum person, sum + countOf person)%nat peopleData 0%nat in
  let averageRangesPerPerson :=
    if bool_decide (0 < totalPeople)%nat
    then ndiv (ofNat totalRanges) (ofNat totalPeople)
    else Fin 0 in
  {| total_people := totalPeople;
     total_ranges := totalRanges;
     average_ranges_per_person := round2 averageRangesPerPerson |}.
End Summary.

(** The end of [analyzeBarcodes]: an exception of the body becomes a failure. *)
Definition caught {P} (label : string) (attempt : M (AnalysisResult P))
    : AnalysisResult P :=
  match attempt with
  | inr result => result
  | inl e => Failure (js label ++ messageOf e)
  end.

(** [String.prototype.endsWith]. *)
Definition endsWith (suffix s : jsstring) : bool :=
  startsWith (reverse suffix) (reverse s).

(** ** The upload route *)

Module Upload.

Record PersonData := {
  firstname : jsval;
  lastname : jsval;
  barcode_range_count : nat;
  total_hours_worked : number;
  barcodes_per_hour : number;
  work_periods : list WorkPeriod
}.

#[global] Instance PersonData_counted : Counted PersonData := barcode_range_count.

(** A value of [personDataMap]. *)
Record PersonAggregate := {
  person_firstname : jsval;
  person_lastname : jsval;
  timeEntries : list jsval;
  barcodeCount : nat
}.

Definition requiredColumns : list jsstring :=
  [js "firstname"; js "lastname"; js "BarcodeRangeID"; js "TimeEntered"].

(** The object a new key is set to. *)
Definition newAggregate (row : Row) : PersonAggregate :=
  {| person_firstname := row !! js "firstname";
     person_lastname := row !! js "lastname";
     timeEntries := [];
     barcodeCount := 0 |}.

(** [personData.timeEntries.push(row.TimeEntered); personData.barcodeCount++]
    on the object the map holds. *)
Definition addScan (personData : PersonAggregate) (row : Row) : PersonAggregate :=
  {| person_firstname := person_firstname personData;
     person_lastname := person_lastname personData;
     timeEntries := timeEntries personData ++ [row !! js "TimeEntered"];
     barcodeCount := S (barcodeCount personData) |}.

(** The body of [data.forEach]. *)
Definition groupRow (personDataMap : list (jsstring * PersonAggregate)) (row : Row)
    : M (list (jsstring * PersonAggregate)) :=
  let key := rowKey row in
  let personDataMap :=
    if mapHas key personDataMap then personDataMap
    else mapSet key (newAggregate row) personDataMap in
  match mapGet key personDataMap with
  | None => throw (readOfUndefined "timeEntries")
  | Some personData => mret (mapSet key (addScan personData row) personDataMap)
  end.

(** The callback of [Array.from(personDataMap.values()).map]. *)
Definition toPersonData (person : PersonAggregate) : M PersonData :=
  workPeriods ← calculateWorkPeriods (timeEntries person);
  let totalHoursWorked :=
    fold_left (λ sum period, nadd sum (duration_hours period)) workPeriods (Fin 0) in
  let barcodesPerHour :=
    if ngt totalHoursWorked (Fin 0)
    then ndiv (ofNat (barcodeCount person)) totalHoursWorked
    else Fin 0 in
  mret {| firstname := person_firstname person;
          lastname := person_lastname person;
          barcode_range_count := barcodeCount person;
          total_hours_worked := round2 totalHoursWorked;
          barcodes_per_hour := round2 barcodesPerHour;
          work_periods := workPeriods |}.

Section Route.
(** [Papa.parse] with the options of the route, and the instant of
    [new Date().toISOString()]. *)
Variable papaParse : jsstring → M ParseResult.
Variable now : jsstring.

Definition analyzeBarcodes (csvContent : jsstring) : AnalysisResult PersonData :=
  caught "Error analyzing file: " (
    let cleanedContent := cleanContent csvContent in
    parseResult ← papaParse cleanedContent;
    match errors parseResult with
    | e :: _ => mret (Failure (js "CSV parsing error: " ++ message e))
    | [] =>
        let rows := data parseResult in
        let missing := missingColumns requiredColumns rows in
        match missing with
        | _ :: _ =>
            mret (Failure (js "Missing required columns: " ++ join (js ", ") missing))
        | [] =>
            personDataMap ← forEachM groupRow [] rows;
            peopleData ← arrayMapM toPersonData (snd <$> personDataMap);
            let peopleData := sortByCount peopleData in
            mret (Success {| people_data := peopleData;
                             statistics := summarize peopleData;
                             filename := js "uploaded_file.csv";
                             upload_time := now |})
        end
    end).
End Route.

(** What [formData.get('file')] gives when the field is there: a text, or a
    file with its name and its bytes, which are read when asked for. *)
Inductive FormEntry :=
  | TextEntry (value : jsstring)
  | FileEntry (name : jsstring) (arrayBuffer : M Buffer).

Section Handler.
Variable papaParse : jsstring → M ParseResult.
Variable now : jsstring.
(** [String.prototype.toLowerCase], with the case tables of the engine. *)
Variable toLowerCase : jsstring → jsstring.

(** The handler: what it returns, or what it lets escape. The form is what
    [request.formData()] resolves to, or rejects with; an empty text is
    falsy as [null] is, another text has no [name]. *)
Definition POST (formData : M (option FormEntry)) : M (AnalysisResult PersonData) :=
  mret (caught "Upload failed: " (
    file ← formData;
    match file with
    | None | Some (TextEntry []) => mret (Failure (js "No file provided"))
    | Some (TextEntry (_ :: _)) => throw (readOfUndefined "toLowerCase")
    | Some (FileEntry name arrayBuffer) =>
        if negb (endsWith (js ".csv") (toLowerCase name)) then
          mret (Failure (js "Invalid file type. Please upload a CSV file."))
        else
          buffer ← arrayBuffer;
          let encoding := detectEncoding buffer in
          let csvContent := toString encoding buffer in
          let result := analyzeBarcodes papaParse now csvContent in
          mret (match result with
                | Success d =>
                    Success {| people_data := people_data d;
                               statistics := statistics d;
                               filename := name;
                               upload_time := upload_time d |}
                | Failure error => Failure error
                end)
    end)).
End Handler.

End Upload.

(** ** The route of the default file *)

Module AnalyzeDefault.

Record PersonData := {
  firstname : jsval;
  lastname : jsval;
  barcode_range_count : nat
}.

#[global] Instance PersonData_counted : Counted PersonData := barcode_range_count.

Definition requiredColumns : list jsstring :=
  [js "firstname"; js "lastname"; js "BarcodeRangeID"].

(** The body of [data.forEach]:
    [personCounts.set(key, (personCounts.get(key) || 0) + 1)]. *)
Definition countRow (personCounts : list (jsstring * nat)) (row : Row)
    : list (jsstring * nat) :=
  let key := rowKey row in
  mapSet key (S (default 0%nat (mapGet key personCounts))) personCounts.

(** The callback of [Array.from(personCounts.entries()).map]: the two
    names are the first two pieces of the key. *)
Definition toPersonData (entry : jsstring * nat) : PersonData :=
  let '(key, count) := entry in
  let pieces := split 95 key in
  {| firstname := pieces !! 0%nat;
     lastname := pieces !! 1%nat;
     barcode_range_count := count |}.

(** The file of the route as [existsSync] and [readFileSync] find it. *)
Inductive DefaultFile :=
  | Missing
  | Present (read : M Buffer).

Section Route.
Variable papaParse : jsstring → M ParseResult.
Variable now : jsstring.

Definition analyzeBarcodes (csvContent : jsstring) : AnalysisResult PersonData :=
  caught "Error analyzing file: " (
    let cleanedContent := cleanContent csvContent in
    parseResult ← papaParse cleanedContent;
    match errors parseResult with
    | e :: _ => mret (Failure (js "CSV parsing error: " ++ message e))
    | [] =>
        let rows := data parseResult in
        let missing := missingColumns requiredColumns rows in
        match missing with
        | _ :: _ =>
            mret (Failure (js "Missing required columns: " ++ join (js ", ") missing))
        | [] =>
            let personCounts := fold_left countRow rows [] in
            let peopleData := sortByCount (toPersonData <$> personCounts) in
            mret (Success {| people_data := peopleData;
                             statistics := summarize peopleData;
                             filename := js "Taskmaster.csv";
                             upload_time := now |})
        end
    end).

(** The handler: what it returns, or what it lets escape. *)
Definition GET (file : DefaultFile) : M (AnalysisResult PersonData) :=
  mret (caught "Error reading default file: " (
    match file with
    | Missing => mret (Failure (js "Default file not found"))
    | Present read =>
        buffer ← read;
        let encoding := detectEncoding buffer in
        let csvContent := toString encoding buffer in
        mret (analyzeBarcodes csvContent)
    end)).
End Route.

End AnalyzeDefault.

(** ** The dashboard *)

Module Dashboard.

(** The palette of [generateColors], the same in the two views. *)
Definition colors : list jsstring :=
  [js "rgba(102, 126, 234, 0.8)"; js "rgba(118, 75, 162, 0.8)";
   js "rgba(240, 147, 251, 0.8)"; js "rgba(245, 87, 108, 0.8)";
   js "rgba(79, 172, 254, 0.8)"; js "rgba(0, 242, 254, 0.8)";
   js "rgba(67, 233, 123, 0.8)"; js "rgba(56, 249, 215, 0.8)";
   js "rgba(255, 236, 210, 0.8)"; js "rgba(252, 182, 159, 0.8)";
   js "rgba(168, 237, 234, 0.8)"; js "rgba(254, 214, 227, 0.8)"].

(** [generateColors]: the loop pushes [colors[i % colors.length]] for [i]
    from 0 up to the count. *)
Definition generateColors (count : nat) : list jsval :=
  (λ i, colors !! (i mod length colors)%nat) <$> seq 0 count.

Record KPIData := {
  id : jsstring;
  kpi_firstname : jsstring;
  kpi_lastname : jsstring;
  target_per_hour : number
}.

(** [addOrUpdateKpi] and [deleteKpi], on the map of the state, which is
    only ever read by key. *)
Definition addOrUpdateKpi (kpiData : gmap (list N) KPIData) (kpi : KPIData)
    : gmap (list N) KPIData :=
  <[id kpi := kpi]> kpiData.

Definition deleteKpi (kpiData : gmap (list N) KPIData) (personId : jsstring)
    : gmap (list N) KPIData :=
  delete personId kpiData.

(** [a >= b]; false as soon as one side is NaN. *)
Definition nge (a b : number) : bool :=
  match a, b with
  | NaN, _ | _, NaN => false
  | Fin x, Fin y => Qle_bool y x
  | PInf, _ => true
  | _, NInf => true
  | _, _ => false
  end.

(** The performance of a row of the table:
    [kpi && kpi.target_per_hour > 0 ? (rate / target) * 100 : 0]. *)
Definition performance (kpi : option KPIData) (barcodes_per_hour : number) : number :=
  match kpi with
  | Some kpi =>
      if ngt (target_per_hour kpi) (Fin 0)
      then nmul (ndiv barcodes_per_hour (target_per_hour kpi)) (Fin 100)
      else Fin 0
  | None => Fin 0
  end.

Inductive Badge := Green | Yellow | Red | Dash.

(** The last but one cell of the row: a badge by the performance, or a
    dash without a positive target. *)
Definition badge (kpi : option KPIData) (barcodes_per_hour : number) : Badge :=
  let performance := performance kpi barcodes_per_hour in
  match kpi with
  | Some kpi' =>
      if ngt (target_per_hour kpi') (Fin 0) then
        if nge performance (Fin 100) then Green
        else if nge performance (Fin 80) then Yellow
        else Red
      else Dash
  | None => Dash
  end.

End Dashboard.

(** ** The arithmetic of doubles *)

(** The operations above are exact. The numbers of the program are IEEE
    754 doubles: every operation gives the double nearest to the exact
    result, a tie going to the even mantissa, and an infinity from
    [2^1024] on. [Binary64] has this rounding and, with it, the functions
    of the routes whose results depend on it: the same code, operation for
    operation. A double is kept as the rational it stands for; the sign of
    a zero is not kept. *)
Module Binary64.

(** The binade of a rational other than 0: [2^e <= |q| < 2^(e+1)]. *)
Definition exponent (q : Q) : Z :=
  let e := (Z.log2 (Z.abs (Qnum q)) - Z.log2 (Zpos (Qden q)))%Z in
  if Qle_bool (2 ^ e) (Qabs q) then e else (e - 1)%Z.

(** The nearest integer, a half going to the even one. *)
Definition nearestEven (q : Q) : Z :=
  let f := Qfloor q in
  match (q - inject_Z f ?= 1 # 2)%Q with
  | Lt => f
  | Gt => (f + 1)%Z
  | Eq => if Z.even f then f else (f + 1)%Z
  end.

(** The double of a rational: a multiple of the unit in the last place,
    which is [2^(e-52)] in the binade [e] and [2^-1074] below [2^-1022]. *)
Definition round (q : Q) : number :=
  let q := Qred q in
  let ulp := (2 ^ (Z.max (exponent q) (-1022) - 52))%Q in
  let r := (inject_Z (nearestEven (q / ulp)) * ulp)%Q in
  if Qle_bool (2 ^ 1024) (Qabs r) then inf (qpos q) else Fin (Qred r).

Definition rounded (a : number) : number :=
  match a with
  | Fin q => round q
  | _ => a
  end.

Definition add (a b : number) : number := rounded (nadd a b).
Definition sub (a b : number) : number := rounded (nsub a b).
Definition mul (a b : number) : number := rounded (nmul a b).
Definition div (a b : number) : number := rounded (ndiv a b).

(** A count or a length as a number. *)
Definition ofNat (n : nat) : number := rounded (ofNat n).

(** [Number(s)]: the double of the value the literal names. *)
Definition Number (s : jsstring) : number := rounded (Number s).

(** [Math.round(x * 100) / 100]; [Math.round] of a double is a double. *)
Definition round2 (x : number) : number :=
  div (mathRound (mul x (Fin 100))) (Fin 100).

Definition parseTimeToMinutes (timeStr : jsval) : M number :=
  match timeStr with
  | None => throw (readOfUndefined "split")
  | Some str =>
      let timePart := default [] (head (split 46 str)) in
      let fields := Number <$> split 58 timePart in
      let field i := default NaN (fields !! i) in
      let hours := field 0%nat in
      let minutes := field 1%nat in
      let seconds := field 2%nat in
      mret (add (add (mul hours (Fin 60)) minutes) (div seconds (Fin 60)))
  end.

Definition closePeriod (p : WorkPeriod) : M WorkPeriod :=
  startMinutes ← parseTimeToMinutes (start_time p);
  endMinutes ← parseTimeToMinutes (end_time p);
  mret {| start_time := start_time p;
          end_time := end_time p;
          duration_hours := div (sub endMinutes startMinutes) (Fin 60);
          barcode_count := barcode_count p |}.

Fixpoint walkPeriods (prev : jsval) (currentPeriod : WorkPeriod)
    (periods : list WorkPeriod) (rest : list jsval) : M (list WorkPeriod) :=
  match rest with
  | [] =>
      closed ← closePeriod currentPeriod;
      mret (periods ++ [closed])
  | t :: rest' =>
      prevTime ← parseTimeToMinutes prev;
      currentTime ← parseTimeToMinutes t;
      let timeDiff := sub currentTime prevTime in
      if ngt timeDiff (Fin 30) then
        closed ← closePeriod currentPeriod;
        walkPeriods t (newPeriod t) (periods ++ [closed]) rest'
      else
        walkPeriods t
          {| start_time := start_time currentPeriod;
             end_time := t;
             duration_hours := duration_hours currentPeriod;
             barcode_count := S (barcode_count currentPeriod) |}
          periods rest'
  end.

Definition calculateWorkPeriods (timeEntries : list jsval) : M (list WorkPeriod) :=
  match timeEntries with
  | [] => mret []
  | _ =>
      let sortedTimes := stableSort defaultBefore timeEntries in
      let first := mjoin (sortedTimes !! 0%nat) in
      walkPeriods first (newPeriod first) [] (drop 1 sortedTimes)
  end.

Section Summary.
Context {P : Type} `{Counted P}.

Definition summarize (peopleData : list P) : Statistics :=
  let totalPeople := length peopleData in
  let totalRanges := fold_left (λ sum person, sum + countOf person)%nat peopleData 0%nat in
  let averageRangesPerPerson :=
    if bool_decide (0 < totalPeople)%nat
    then div (ofNat totalRanges) (ofNat totalPeople)
    else Fin 0 in
  {| total_people := totalPeople;
     total_ranges := totalRanges;
     average_ranges_per_person := round2 averageRangesPerPerson |}.
End Summary.

(** The upload route. *)
Module Upload.

Definition toPersonData (person : Upload.PersonAggregate) : M Upload.PersonData :=
  workPeriods ← calculateWorkPeriods (Upload.timeEntries person);
  let totalHoursWorked :=
    fold_left (λ sum period, add sum (duration_hours period)) workPeriods (Fin 0) in
  let barcodesPerHour :=
    if ngt totalHoursWorked (Fin 0)
    then div (ofNat (Upload.barcodeCount person)) totalHoursWorked
    else Fin 0 in
  mret {| Upload.firstname := Upload.person_firstname person;
          Upload.lastname := Upload.person_lastname person;
          Upload.barcode_range_count := Upload.barcodeCount person;
          Upload.total_hours_worked := round2 totalHoursWorked;
          Upload.barcodes_per_hour := round2 barcodesPerHour;
          Upload.work_periods := workPeriods |}.

Section Route.
Variable papaParse : jsstring → M ParseResult.
Variable now : jsstring.

Definition analyzeBarcodes (csvContent : jsstring) : AnalysisResult Upload.PersonData :=
  caught "Error analyzing file: " (
    let cleanedContent := cleanContent csvContent in
    parseResult ← papaParse cleanedContent;
    match errors parseResult with
    | e :: _ => mret (Failure (js "CSV parsing error: " ++ message e))
    | [] =>
        let rows := data parseResult in
        let missing := missingColumns Upload.requiredColumns rows in
        match missing with
        | _ :: _ =>
            mret (Failure (js "Missing required columns: " ++ join (js ", ") missing))
        | [] =>
            personDataMap ← forEachM Upload.groupRow [] rows;
            peopleData ← arrayMapM toPersonData (snd <$> personDataMap);
            let peopleData := sortByCount peopleData in
            mret (Success {| people_data := peopleData;
                             statistics := summarize peopleData;
                             filename := js "uploaded_file.csv";
                             upload_time := now |})
        end
    end).
End Route.

End Upload.

(** The route of the default file. *)
Module AnalyzeDefault.

Section Route.
Variable papaParse : jsstring → M ParseResult.
Variable now : jsstring.

Definition analyzeBarcodes (csvContent : jsstring)
    : AnalysisResult AnalyzeDefault.PersonData :=
  caught "Error analyzing file: " (
    let cleanedContent := cleanContent csvContent in
    parseResult ← papaParse cleanedContent;
    match errors parseResult with
    | e :: _ => mret (Failure (js "CSV parsing error: " ++ message e))
    | [] =>
        let rows := data parseResult in
        let missing := missingColumns AnalyzeDefault.requiredColumns rows in
        match missing with
        | _ :: _ =>
            mret (Failure (js "Missing required columns: " ++ join (js ", ") missing))
        | [] =>
            let personCounts := fold_left AnalyzeDefault.countRow rows [] in
            let peopleData :=
              sortByCount (AnalyzeDefault.toPersonData <$> personCounts) in
            mret (Success {| people_data := peopleData;
                             statistics := summarize peopleData;
                             filename := js "Taskmaster.csv";
                             upload_time := now |})
        end
    end).
End Route.

End AnalyzeDefault.

End Binary64.

(** ** Vocabulary of the properties *)

(** The keys of a list in the order in which each is first met. *)
Fixpoint firstSeen (keys : list jsstring) : list jsstring :=
  match keys with
  | [] => []
  | k :: keys' => k :: List.filter (λ k', negb (bool_decide (k' = k))) (firstSeen keys')
  end.

(** The rows of a key. *)
Definition rowsOf (key : jsstring) (rows : list Row) : list Row :=
  List.filter (λ row, bool_decide (rowKey row = key)) rows.

(** The people of a count, in the order of the list. *)
Definition withCount {P} `{Counted P} (c : nat) (people : list P) : list P :=
  List.filter (λ p, bool_decide (countOf p = c)) people.

(** Each entry counts at least as much as the next one. *)
Definition descending {P} `{Counted P} (people : list P) : Prop :=
  ∀ (i : nat) (a b : P),
    people !! i = Some a → people !! S i = Some b → (countOf b ≤ countOf a)%nat.

(** The key under which a person of the upload route was grouped. *)
Definition personKey (p : Upload.PersonData) : jsstring :=
  tmpl (Upload.firstname p) ++ js "_" ++ tmpl (Upload.lastname p).

(** The same for a value of [personDataMap]. *)
Definition aggregateKey (a : Upload.PersonAggregate) : jsstring :=
  tmpl (Upload.person_firstname a) ++ js "_" ++ tmpl (Upload.person_lastname a).

(** A period whose duration is the distance of its own two ends, in hours. *)
Definition durationFromEnds (p : WorkPeriod) : Prop :=
  ∃ startMinutes endMinutes,
    parseTimeToMinutes (start_time p) = inr startMinutes ∧
    parseTimeToMinutes (end_time p) = inr endMinutes ∧
    duration_hours p = ndiv (nsub endMinutes startMinutes) (Fin 60).

(** Rounding to four decimals, as the specification prints a duration. *)
Definition round4 (x : number) : number :=
  ndiv (mathRound (nmul x (Fin 10000))) (Fin 10000).

(** A byte of ASCII: seven bits. *)
Definition sevenBit (b : Byte.byte) : Prop := byteN b < 128.

(** A byte of ASCII other than NUL. *)
Definition asciiText (b : Byte.byte) : Prop := 0 < byteN b < 128.

(** The encodings of the loop of [detectEncoding], in its order. *)
Definition candidates : list BufferEncoding := [utf16le; utf8; latin1; ascii].

(** No byte order mark at the start. *)
Definition bomless (buffer : Buffer) : Prop :=
  ∀ rest, buffer ≠ xff :: xfe :: rest ∧ buffer ≠ xfe :: xff :: rest.

(** ** Sample inputs *)

Definition sampleRow (first last time : string) : Row :=
  <[js "firstname" := js first]>
    (<[js "lastname" := js last]>
       (<[js "BarcodeRangeID" := js "7"]>
          (<[js "TimeEntered" := js time]> ∅))).

(** A parser that answers with given rows and no error. *)
Definition parsed (rows : list Row) (_ : jsstring) : M ParseResult :=
  mret {| errors := []; data := rows |}.

Definition threeScans : list jsval :=
  [Some (js "09:00:00.000"); Some (js "09:10:00.000"); Some (js "09:50:00.000")].

(** Two scans ten seconds apart, and one scan of somebody else. *)
Definition tenSeconds : list Row :=
  [sampleRow "ann" "lee" "09:00:00.000";
   sampleRow "bob" "ray" "09:00:05.000";
   sampleRow "ann" "lee" "09:00:10.000"].

(** Four scans of three people, two of them with one scan each. *)
Definition tiedRows : list Row :=
  [sampleRow "bob" "ray" "09:00:00.000";
   sampleRow "ann" "lee" "09:00:05.000";
   sampleRow "cat" "fox" "09:00:07.000";
   sampleRow "ann" "lee" "09:00:10.000"].

(** A first row without the column [lastname]. *)
Definition noLastname : list Row :=
  [<[js "firstname" := js "ann"]>
     (<[js "BarcodeRangeID" := js "7"]>
        (<[js "TimeEntered" := js "09:00:00.000"]> ∅))].

(** A line of eighteen fields, between a message of the export tool and a
    line of three fields. *)
Definition eighteenFields : jsstring := join [9] (replicate 18 (js "x")).

Definition exportedText : jsstring :=
  join [10] [js "12 rows affected)"; eighteenFields; join [9] (replicate 3 (js "x"))].

(** The bytes of [a,b] in ASCII, and in UTF-16LE without a mark. *)
Definition commaText : Buffer := [x61; x2c; x62].

Definition commaWide : Buffer := [x61; x00; x2c; x00; x62; x00].

(** A second row that has no time. *)
Definition timeless : list Row :=
  [sampleRow "ann" "lee" "09:00:00.000";
   <[js "firstname" := js "bob"]>
     (<[js "lastname" := js "ray"]> (<[js "BarcodeRangeID" := js "7"]> ∅))].

(** The lower case of the letters of ASCII, for names written in ASCII. *)
Definition lowerAscii (s : jsstring) : jsstring :=
  (λ c, if (65 <=? c) && (c <=? 90) then c + 32 else c) <$> s.

(** Times out of the format: an hour of one digit sorts after [10], and a
    word is not a time. *)
Definition oddTimes : list Row :=
  [sampleRow "ann" "lee" "9:00:00";
   sampleRow "ann" "lee" "10:00:00";
   sampleRow "bob" "ray" "soon"].

(** Two people whose names give one key. *)
Definition underscored : list Row :=
  [sampleRow "a_b" "c" "09:00:00.000"; sampleRow "a" "b_c" "09:00:05.000"].

(** ** Vocabulary of the further properties *)

(** A period and the run of sorted scans it stands for: from the first to
    the last of them, and as many. *)
Definition covers (p : WorkPeriod) (scans : list jsval) : Prop :=
  head scans = Some (start_time p) ∧
  last scans = Some (end_time p) ∧
  barcode_count p = length scans.

(** More than 30 minutes from the one time to the other. *)
Definition gapAbove30 (earlier later : jsval) : Prop :=
  ∃ a b,
    parseTimeToMinutes earlier = inr a ∧
    parseTimeToMinutes later = inr b ∧
    ngt (nsub b a) (Fin 30) = true.

(** Not more than 30 minutes from the one time to the other. *)
Definition gapWithin30 (earlier later : jsval) : Prop :=
  ∃ a b,
    parseTimeToMinutes earlier = inr a ∧
    parseTimeToMinutes later = inr b ∧
    ngt (nsub b a) (Fin 30) = false.

(** Every two neighbours of a list are related. *)
Definition neighbours {A} (R : A → A → Prop) (l : list A) : Prop :=
  ∀ (i : nat) (x y : A), l !! i = Some x → l !! S i = Some y → R x y.

(** The time [HH:MM:SS] of six digits, and the seconds it names. *)
Definition clockTime (h1 h2 m1 m2 s1 s2 : N) : jsstring :=
  [h1; h2; 58; m1; m2; 58; s1; s2].

Definition twoDigits (d1 d2 : N) : Z := Z.of_N (10 * (d1 - 48) + (d2 - 48)).

Definition secondsOf (h1 h2 m1 m2 s1 s2 : N) : Z :=
  (3600 * twoDigits h1 h2 + 60 * twoDigits m1 m2 + twoDigits s1 s2)%Z.

(** A time entry in the format of the source, [HH:MM:SS.mmm]: six digits,
    minutes and seconds below 60, then nothing or a point and anything. *)
Definition clockEntry (entry : jsval) (seconds : Z) : Prop :=
  ∃ h1 h2 m1 m2 s1 s2 fraction,
    entry = Some (clockTime h1 h2 m1 m2 s1 s2 ++ fraction) ∧
    Forall (λ d, isDigit d = true) [h1; h2; m1; m2; s1; s2] ∧
    m1 ≤ 53 ∧ s1 ≤ 53 ∧
    (fraction = [] ∨ head fraction = Some 46) ∧
    seconds = secondsOf h1 h2 m1 m2 s1 s2.

(** ** Vocabulary of the properties of doubles *)

(** The hours of a list of periods before the rounding to two decimals,
    as [reduce] adds them. *)
Definition hoursWorked (periods : list WorkPeriod) : number :=
  fold_left (λ sum period, Binary64.add sum (duration_hours period)) periods (Fin 0).

(** The one count over the other. *)
Definition quotient (a b : nat) : Q := (inject_Z (Z.of_nat a) / inject_Z (Z.of_nat b))%Q.

(** Two decimals as the words of the specification have them, a half
    going up. *)
Definition halfUpHundredth (q : Q) : Q := (Qfloor (q * 100 + (1 # 2)) # 100)%Q.

(** [r] is [x] rounded to two decimals as far as doubles go: the double of
    a hundredth [k/100] that is within half a hundredth of [x], and within
    [slack] of [x] in proportion for the operations before [Math.round]. *)
Definition roundedToHundredths (slack x : Q) (r : number) : Prop :=
  ∃ k : Z, r = Binary64.round (k # 100) ∧
           (Qabs ((k # 100) - x) <= (1 # 200) + slack * Qabs x)%Q.

(** The test [timeDiff > 30] of the loop on two entries, and its negation. *)
Definition computedAbove30 (earlier later : jsval) : Prop :=
  ∃ a b,
    Binary64.parseTimeToMinutes earlier = inr a ∧
    Binary64.parseTimeToMinutes later = inr b ∧
    ngt (Binary64.sub b a) (Fin 30) = true.

Definition computedWithin30 (earlier later : jsval) : Prop :=
  ∃ a b,
    Binary64.parseTimeToMinutes earlier = inr a ∧
    Binary64.parseTimeToMinutes later = inr b ∧
    ngt (Binary64.sub b a) (Fin 30) = false.

(** 41 rows of 40 people: the first person has two. *)
Definition numbered (i : nat) : Row :=
  <[js "firstname" := replicate (S i) 98]> (sampleRow "b" "x" "09:00:00.000").

Definition fortyPeople : list Row := numbered 0 :: (numbered <$> seq 0 40).

(** Two scans a fraction of a second apart that is next to nothing. *)
Definition tinyHours : list Row :=
  [sampleRow "ann" "lee" "0:0:0"; sampleRow "ann" "lee" "0:0:1e-303"].

(** Two scans thirty minutes apart. *)
Definition halfAnHour : list jsval :=
  [Some (js "08:02:04.000"); Some (js "08:32:04.000")].

(** What the table lists of a person whatever the arithmetic. *)
Definition listing (p : Upload.PersonData) : jsval * jsval * nat :=
  (Upload.firstname p, Upload.lastname p, Upload.barcode_range_count p).

(** Two results that are the same failure, or two successes. *)
Definition agree {B C} (same : B → C → Prop) (x : M B) (y : M C) : Prop :=
  match x, y with
  | inl e, inl e' => e = e'
  | inr b, inr c => same b c
  | _, _ => False
  end.

(** * Properties *)

(** ** Strings *)

Lemma split_app_sep sep a b :
  sep ∉ a → split sep (a ++ sep :: b) = a :: split sep b.
Proof.
  induction a as [|c a IH]; intros Hsep; simpl.
  - by rewrite N.eqb_refl.
  - apply not_elem_of_cons in Hsep as [Hc Ha].
    destruct (N.eqb_spec c sep) as [->|_]; [done|].
    by rewrite IH.
Qed.

Lemma split_without_sep sep a : sep ∉ a → split sep a = [a].
Proof.
  induction a as [|c a IH]; intros Hsep; simpl; [done|].
  apply not_elem_of_cons in Hsep as [Hc Ha].
  destruct (N.eqb_spec c sep) as [->|_]; [done|].
  by rewrite IH.
Qed.

Lemma split_fields_without_sep sep s : Forall (λ f, sep ∉ f) (split sep s).
Proof.
  induction s as [|c s IH]; simpl.
  - repeat constructor. apply not_elem_of_nil.
  - destruct (N.eqb_spec c sep) as [->|Hc].
    + constructor; [apply not_elem_of_nil | done].
    + destruct (split sep s) as [|f fs]; inversion IH; subst.
      * repeat constructor. by intros ->%list_elem_of_singleton.
      * constructor; [|done]. by apply not_elem_of_cons.
Qed.

(** ** Work periods *)

Ltac unbind :=
  repeat match goal with
    | H : mbind _ ?m = inr _ |- _ =>
        let E := fresh "E" in
        destruct m eqn:E; simpl in H; [discriminate H|]
    | H : mret _ = inr _ |- _ => injection H as H
    | H : inr _ = inr _ |- _ => injection H as H
    end.

Lemma closePeriod_duration p q : closePeriod p = inr q → durationFromEnds q.
Proof.
  unfold closePeriod. intros H. unbind. subst q.
  eexists _, _. simpl. eauto.
Qed.

Lemma walkPeriods_duration rest : ∀ prev current periods out,
  Forall durationFromEnds periods →
  walkPeriods prev current periods rest = inr out →
  Forall durationFromEnds out.
Proof.
  induction rest as [|t rest IH]; intros prev current periods out Hps H; simpl in H.
  - unbind. subst out. apply Forall_app. split; [done|].
    repeat constructor. by eapply closePeriod_duration.
  - unbind. destruct (ngt _ _).
    + unbind. eapply IH; [|done]. apply Forall_app. split; [done|].
      repeat constructor. by eapply closePeriod_duration.
    + by eapply IH.
Qed.

Lemma calculateWorkPeriods_duration timeEntries periods :
  calculateWorkPeriods timeEntries = inr periods →
  Forall durationFromEnds periods.
Proof.
  unfold calculateWorkPeriods. destruct timeEntries as [|t l].
  - intros [= <-]. constructor.
  - apply walkPeriods_duration. constructor.
Qed.

Lemma parseTimeToMinutes_fraction hms fraction :
  46 ∉ hms →
  parseTimeToMinutes (Some (hms ++ [46] ++ fraction)) = parseTimeToMinutes (Some hms).
Proof.
  intros Hdot. unfold parseTimeToMinutes. simpl app.
  rewrite (split_app_sep 46 hms), (split_without_sep 46 hms) by done.
  reflexivity.
Qed.

(** C1. The three scans 09:00, 09:10 and 09:50 of one person give two
    periods: 09:00 to 09:10 of one sixth of an hour (0.1667 to four
    decimals) with 2 scans, and 09:50 to 09:50 of 0 hours with 1 scan, the
    gap of 40 minutes being above 30. In every result each period lasts the
    distance of its own two ends over 60, and what follows the point of a
    time never counts. *)
Theorem work_periods_of_three_scans :
  calculateWorkPeriods threeScans =
    inr [ {| start_time := Some (js "09:00:00.000");
             end_time := Some (js "09:10:00.000");
             duration_hours := Fin (1 # 6);
             barcode_count := 2 |};
          {| start_time := Some (js "09:50:00.000");
             end_time := Some (js "09:50:00.000");
             duration_hours := Fin 0;
             barcode_count := 1 |} ] ∧
  round4 (Fin (1 # 6)) = Fin (1667 # 10000) ∧
  parseTimeToMinutes (Some (js "09:10:00.000")) = inr (Fin 550) ∧
  parseTimeToMinutes (Some (js "09:50:00.000")) = inr (Fin 590) ∧
  nsub (Fin 590) (Fin 550) = Fin 40 ∧
  ngt (Fin 40) (Fin 30) = true ∧
  (∀ timeEntries periods,
     calculateWorkPeriods timeEntries = inr periods →
     Forall durationFromEnds periods) ∧
  (∀ hms fraction,
     46 ∉ hms →
     parseTimeToMinutes (Some (hms ++ [46] ++ fraction)) =
     parseTimeToMinutes (Some hms)).
Proof.
  split_and!;
    [vm_compute; reflexivity .. | apply calculateWorkPeriods_duration
                                | apply parseTimeToMinutes_fraction].
Qed.

(** ** Sorting *)

Section SortFacts.
Context {A : Type} (before : A → A → bool).

Lemma insertSorted_perm x l : insertSorted before x l ≡ₚ x :: l.
Proof.
  induction l as [|y l IH]; simpl; [done|].
  destruct (before x y); [done|].
  rewrite IH. apply Permutation_swap.
Qed.

Lemma stableSort_perm l : stableSort before l ≡ₚ l.
Proof.
  induction l as [|x l IH]; simpl; [done|].
  by rewrite insertSorted_perm, IH.
Qed.

(** An element moves only past elements that are not of its class. *)
Lemma insertSorted_filter (cls : A → bool) x l :
  (∀ a b, cls a = true → cls b = true → before a b = true) →
  List.filter cls (insertSorted before x l) = List.filter cls (x :: l).
Proof.
  intros Hcls. induction l as [|y l IH]; [done|].
  simpl insertSorted. destruct (before x y) eqn:Hxy; [done|].
  simpl in *. rewrite IH.
  destruct (cls x) eqn:Hx, (cls y) eqn:Hy; try done.
  by rewrite Hcls in Hxy.
Qed.

Lemma stableSort_filter (cls : A → bool) l :
  (∀ a b, cls a = true → cls b = true → before a b = true) →
  List.filter cls (stableSort before l) = List.filter cls l.
Proof.
  intros Hcls. induction l as [|x l IH]; [done|].
  simpl stableSort. rewrite insertSorted_filter by done.
  simpl. by rewrite IH.
Qed.

Hypothesis before_total : ∀ a b, before a b = false → before b a = true.

Lemma insertSorted_sorted x l :
  Sorted (λ a b, before a b = true) l →
  Sorted (λ a b, before a b = true) (insertSorted before x l).
Proof.
  induction 1 as [|y l Hl IH Hhd]; simpl.
  - by repeat constructor.
  - destruct (before x y) eqn:Hxy.
    + by repeat constructor.
    + constructor; [done|].
      destruct Hhd as [|z l Hyz]; simpl.
      * constructor. by apply before_total.
      * destruct (before x z); constructor; [by apply before_total | done].
Qed.

Lemma stableSort_sorted l : Sorted (λ a b, before a b = true) (stableSort before l).
Proof. induction l; simpl; [constructor | by apply insertSorted_sorted]. Qed.
End SortFacts.

Lemma insertSorted_fmap {A B} (f : A → B) (before : B → B → bool) x l :
  f <$> insertSorted (λ a b, before (f a) (f b)) x l =
  insertSorted before (f x) (f <$> l).
Proof.
  induction l as [|y l IH]; [done|].
  rewrite fmap_cons. simpl insertSorted.
  destruct (before (f x) (f y)); [done|]. by rewrite fmap_cons, IH.
Qed.

Lemma stableSort_fmap {A B} (f : A → B) (before : B → B → bool) l :
  f <$> stableSort (λ a b, before (f a) (f b)) l = stableSort before (f <$> l).
Proof.
  induction l as [|x l IH]; [done|].
  rewrite fmap_cons. simpl stableSort. by rewrite insertSorted_fmap, IH.
Qed.

Lemma Sorted_adjacent {A} (R : A → A → Prop) l (i : nat) a b :
  Sorted R l → l !! i = Some a → l !! S i = Some b → R a b.
Proof.
  intros Hl. revert i. induction Hl as [|x l Hl IH Hhd]; intros i Ha Hb; [done|].
  destruct i as [|i]; simpl in *.
  - injection Ha as ->. destruct Hhd; simpl in Hb; [done|]. by injection Hb as ->.
  - by eapply IH.
Qed.

Section SummaryFacts.
Context {P : Type} `{Counted P}.

Lemma sortByCount_perm (people : list P) : sortByCount people ≡ₚ people.
Proof. apply stableSort_perm. Qed.

Lemma sortByCount_descending (people : list P) : descending (sortByCount people).
Proof.
  intros i a b Ha Hb.
  pose proof (stableSort_sorted countBefore) as Hsorted.
  eapply (Sorted_adjacent _ _ i a b) in Hsorted; [| |done|done].
  - unfold countBefore in Hsorted. by apply bool_decide_eq_true in Hsorted.
  - unfold countBefore. intros x y Hxy.
    apply bool_decide_eq_false in Hxy. apply bool_decide_eq_true. lia.
Qed.

Lemma sortByCount_stable c (people : list P) :
  withCount c (sortByCount people) = withCount c people.
Proof.
  apply stableSort_filter. intros a b Ha Hb.
  apply bool_decide_eq_true in Ha, Hb. apply bool_decide_eq_true. lia.
Qed.

Lemma descending_tail a (people : list P) :
  descending (a :: people) → descending people.
Proof. intros Hd i x y Hx Hy. by apply (Hd (S i)). Qed.

Lemma descending_head (people : list P) : ∀ a b,
  descending (a :: people) → b ∈ people → (countOf b ≤ countOf a)%nat.
Proof.
  induction people as [|c people IH]; intros a b Hd Hb.
  - by apply elem_of_nil in Hb.
  - assert (countOf c ≤ countOf a)%nat as Hca by by apply (Hd 0%nat).
    apply elem_of_cons in Hb as [->|Hb]; [done|].
    etrans; [|exact Hca]. apply IH; [|done]. by eapply descending_tail.
Qed.

Lemma withCount_cons c a (people : list P) :
  withCount c (a :: people) =
  if decide (countOf a = c) then a :: withCount c people else withCount c people.
Proof.
  unfold withCount. simpl. destruct (decide (countOf a = c)).
  - by rewrite bool_decide_eq_true_2.
  - by rewrite bool_decide_eq_false_2.
Qed.

Lemma withCount_elem c p (people : list P) :
  p ∈ withCount c people → p ∈ people ∧ countOf p = c.
Proof.
  unfold withCount. intros [Hp Hc]%list_elem_of_In%List.filter_In.
  split; [by apply list_elem_of_In|]. by apply bool_decide_eq_true in Hc.
Qed.

(** The two properties fix the result: whatever stable algorithm the engine
    runs, it returns the list of the model. *)
Lemma stable_sort_unique (sorted sorted' : list P) :
  descending sorted → descending sorted' →
  (∀ c, withCount c sorted = withCount c sorted') →
  sorted = sorted'.
Proof.
  revert sorted'. induction sorted as [|a l IH]; intros [|b l'] Hd Hd' Hc.
  - done.
  - specialize (Hc (countOf b)). rewrite withCount_cons, decide_True in Hc; done.
  - specialize (Hc (countOf a)). rewrite withCount_cons, decide_True in Hc; done.
  - assert (countOf a = countOf b) as Hab.
    { apply Nat.le_antisymm.
      - assert (a ∈ b :: l') as [->|Ha]%elem_of_cons; [|done|].
        + eapply withCount_elem. rewrite <- (Hc (countOf a)), withCount_cons.
          rewrite decide_True by done. apply list_elem_of_here.
        + by eapply descending_head.
      - assert (b ∈ a :: l) as [->|Hb]%elem_of_cons; [|done|].
        + eapply withCount_elem. rewrite (Hc (countOf b)), withCount_cons.
          rewrite decide_True by done. apply list_elem_of_here.
        + by eapply descending_head. }
    pose proof (Hc (countOf a)) as Hhead.
    rewrite !withCount_cons, <- Hab, !decide_True in Hhead by done.
    injection Hhead as -> Htail. f_equal.
    apply IH; [by eapply descending_tail..|].
    intros c. specialize (Hc c). rewrite !withCount_cons in Hc.
    destruct (decide (countOf b = c)); [by injection Hc|done].
Qed.

Lemma fold_sum (people : list P) n :
  fold_left (λ sum person, sum + countOf person)%nat people n =
  (n + sum_list (countOf <$> people))%nat.
Proof.
  revert n. induction people as [|p people IH]; intros n; simpl; [lia|].
  rewrite IH. unfold fmap. lia.
Qed.

Lemma summarize_spec (people : list P) :
  total_people (summarize people) = length people ∧
  total_ranges (summarize people) = sum_list (countOf <$> people) ∧
  average_ranges_per_person (summarize people) =
    round2 (if bool_decide (0 < length people)%nat
            then ndiv (ofNat (sum_list (countOf <$> people))) (ofNat (length people))
            else Fin 0).
Proof.
  unfold summarize. simpl. rewrite fold_sum. by split_and!.
Qed.
End SummaryFacts.

(** ** The shape of a success *)

Arguments js : simpl never.
Arguments cleanContent : simpl never.
Arguments missingColumns : simpl never.
Arguments join : simpl never.
Arguments sortByCount : simpl never.
Arguments summarize : simpl never.
Arguments Upload.requiredColumns : simpl never.
Arguments AnalyzeDefault.requiredColumns : simpl never.
Arguments detectEncoding : simpl never.
Arguments toString : simpl never.

Lemma upload_success papaParse now csvContent d :
  Upload.analyzeBarcodes papaParse now csvContent = Success d →
  ∃ parseResult personDataMap peopleData,
    papaParse (cleanContent csvContent) = inr parseResult ∧
    errors parseResult = [] ∧
    missingColumns Upload.requiredColumns (data parseResult) = [] ∧
    forEachM Upload.groupRow [] (data parseResult) = inr personDataMap ∧
    arrayMapM Upload.toPersonData (snd <$> personDataMap) = inr peopleData ∧
    d = {| people_data := sortByCount peopleData;
           statistics := summarize (sortByCount peopleData);
           filename := js "uploaded_file.csv";
           upload_time := now |}.
Proof.
  unfold Upload.analyzeBarcodes, caught. intros H.
  destruct (papaParse _) as [e|parseResult] eqn:Hparse; simpl in H; [done|].
  destruct (errors parseResult) eqn:Herrors; simpl in H; [|done].
  destruct (missingColumns _ _) eqn:Hmissing; simpl in H; [|done].
  destruct (forEachM _ _ _) as [e|personDataMap] eqn:Hgroup; simpl in H; [done|].
  destruct (arrayMapM _ _) as [e|peopleData] eqn:Hpeople; simpl in H; [done|].
  injection H as <-. by eexists _, _, _.
Qed.

Lemma default_success papaParse now csvContent d :
  AnalyzeDefault.analyzeBarcodes papaParse now csvContent = Success d →
  ∃ parseResult,
    papaParse (cleanContent csvContent) = inr parseResult ∧
    errors parseResult = [] ∧
    missingColumns AnalyzeDefault.requiredColumns (data parseResult) = [] ∧
    let peopleData :=
      sortByCount (AnalyzeDefault.toPersonData <$>
                     fold_left AnalyzeDefault.countRow (data parseResult) []) in
    d = {| people_data := peopleData;
           statistics := summarize peopleData;
           filename := js "Taskmaster.csv";
           upload_time := now |}.
Proof.
  unfold AnalyzeDefault.analyzeBarcodes, caught. intros H.
  destruct (papaParse _) as [e|parseResult] eqn:Hparse; simpl in H; [done|].
  destruct (errors parseResult) eqn:Herrors; simpl in H; [|done].
  destruct (missingColumns _ _) eqn:Hmissing; simpl in H; [|done].
  injection H as <-. by eexists.
Qed.

Lemma arrayMapM_inr {A B} (f : A → M B) l bs :
  arrayMapM f l = inr bs → Forall2 (λ a b, f a = inr b) l bs.
Proof.
  revert bs. induction l as [|a l IH]; intros bs H; simpl in H.
  - injection H as <-. constructor.
  - unbind. subst bs. constructor; [done|]. by apply IH.
Qed.

(** ** The default file *)

(** C9. Without the file the handler answers with the failure
    [Default file not found]; whatever the file, the handler returns and
    lets nothing escape; and a success carries the name [Taskmaster.csv]. *)
Theorem default_file_absent_or_named papaParse now :
  AnalyzeDefault.GET papaParse now AnalyzeDefault.Missing =
    inr (Failure (js "Default file not found")) ∧
  (∀ file, ∃ result, AnalyzeDefault.GET papaParse now file = inr result) ∧
  (∀ file d,
     AnalyzeDefault.GET papaParse now file = inr (Success d) →
     filename d = js "Taskmaster.csv").
Proof.
  split_and!.
  - reflexivity.
  - intros file. by eexists.
  - intros [|read] d; [done|]. unfold AnalyzeDefault.GET.
    destruct read as [e|buffer]; simpl; [done|].
    intros [= Hd]. by apply default_success in Hd as (? & _ & _ & _ & ->).
Qed.

Lemma default_file_absent_or_named_witness :
  ∃ d,
    AnalyzeDefault.GET (parsed tenSeconds) [] (AnalyzeDefault.Present (inr [])) =
      inr (Success d) ∧
    filename d = js "Taskmaster.csv".
Proof.
  assert (∃ d, AnalyzeDefault.GET (parsed tenSeconds) []
                 (AnalyzeDefault.Present (inr [])) = inr (Success d))
    as [d Hd] by (eexists; vm_compute; reflexivity).
  exists d. split; [done|].
  exact (proj2 (proj2 (default_file_absent_or_named (parsed tenSeconds) [])) _ _ Hd).
Defined.

(** ** Missing columns *)

Lemma startsWith_app p s : startsWith p (p ++ s) = true.
Proof. induction p as [|c p IH]; simpl; [done|]. by rewrite N.eqb_refl. Qed.

Lemma includes_startsWith needle hay :
  startsWith needle hay = true → includes needle hay = true.
Proof. intros Hstart. destruct hay; simpl; by rewrite Hstart. Qed.

Lemma includes_app needle a b : includes needle (a ++ needle ++ b) = true.
Proof.
  induction a as [|c a IH]; simpl.
  - apply includes_startsWith, startsWith_app.
  - rewrite IH. apply orb_true_r.
Qed.

Lemma join_elem sep l x : x ∈ l → ∃ a b, join sep l = a ++ x ++ b.
Proof.
  induction l as [|y l IH]; intros Hx; [by apply elem_of_nil in Hx|].
  apply elem_of_cons in Hx as [->|Hx].
  - destruct l as [|z l].
    + exists [], []. simpl. by rewrite app_nil_r.
    + exists [], (sep ++ join sep (z :: l)). done.
  - destruct (IH Hx) as (a & b & Hab). destruct l as [|z l]; [by apply elem_of_nil in Hx|].
    exists (y ++ sep ++ a), b. change (join sep (y :: z :: l)) with (y ++ sep ++ join sep (z :: l)).
    rewrite Hab. by rewrite <- !app_assoc.
Qed.

Lemma includes_join prefix sep l x :
  x ∈ l → includes x (prefix ++ join sep l) = true.
Proof.
  intros (a & b & ->)%(join_elem sep). rewrite app_assoc. apply includes_app.
Qed.

Lemma missingColumns_first requiredColumns row rest :
  missingColumns requiredColumns (row :: rest) =
  List.filter (λ col, bool_decide (row !! col = None)) requiredColumns.
Proof.
  unfold missingColumns. apply List.filter_ext. intros col. simpl.
  destruct (row !! col) eqn:Hcol.
  - rewrite bool_decide_eq_true_2 by eauto. by rewrite bool_decide_eq_false_2.
  - rewrite bool_decide_eq_false_2; [done|]. by intros [? ?].
Qed.

Lemma upload_missing papaParse now csvContent parseResult :
  papaParse (cleanContent csvContent) = inr parseResult →
  errors parseResult = [] →
  missingColumns Upload.requiredColumns (data parseResult) ≠ [] →
  Upload.analyzeBarcodes papaParse now csvContent =
    Failure (js "Missing required columns: " ++
             join (js ", ") (missingColumns Upload.requiredColumns (data parseResult))).
Proof.
  intros Hparse Herrors Hmissing. unfold Upload.analyzeBarcodes.
  rewrite Hparse. simpl. rewrite Herrors.
  by destruct (missingColumns _ _).
Qed.

Lemma default_missing papaParse now csvContent parseResult :
  papaParse (cleanContent csvContent) = inr parseResult →
  errors parseResult = [] →
  missingColumns AnalyzeDefault.requiredColumns (data parseResult) ≠ [] →
  AnalyzeDefault.analyzeBarcodes papaParse now csvContent =
    Failure (js "Missing required columns: " ++
             join (js ", ")
               (missingColumns AnalyzeDefault.requiredColumns (data parseResult))).
Proof.
  intros Hparse Herrors Hmissing. unfold AnalyzeDefault.analyzeBarcodes.
  rewrite Hparse. simpl. rewrite Herrors.
  by destruct (missingColumns _ _).
Qed.

(** C6. A first row that lacks some required column makes either route
    fail; and once the parser has reported no error, the message lists,
    after [Missing required columns: ], exactly the required columns the
    row lacks, in their order: four columns are required by the upload
    route, three by the default route. Each missing column, [lastname] for
    one, can be read in the message. *)
Theorem missing_columns_rejected papaParse now csvContent parseResult row rest :
  papaParse (cleanContent csvContent) = inr parseResult →
  data parseResult = row :: rest →
  Upload.requiredColumns =
    [js "firstname"; js "lastname"; js "BarcodeRangeID"; js "TimeEntered"] ∧
  AnalyzeDefault.requiredColumns =
    [js "firstname"; js "lastname"; js "BarcodeRangeID"] ∧
  (∀ missing,
     missing = List.filter (λ col, bool_decide (row !! col = None)) Upload.requiredColumns →
     missing ≠ [] →
     (∃ error, Upload.analyzeBarcodes papaParse now csvContent = Failure error) ∧
     (errors parseResult = [] →
      ∃ error,
        Upload.analyzeBarcodes papaParse now csvContent = Failure error ∧
        error = js "Missing required columns: " ++ join (js ", ") missing ∧
        ∀ col, col ∈ missing → includes col error = true)) ∧
  (∀ missing,
     missing =
       List.filter (λ col, bool_decide (row !! col = None)) AnalyzeDefault.requiredColumns →
     missing ≠ [] →
     (∃ error, AnalyzeDefault.analyzeBarcodes papaParse now csvContent = Failure error) ∧
     (errors parseResult = [] →
      ∃ error,
        AnalyzeDefault.analyzeBarcodes papaParse now csvContent = Failure error ∧
        error = js "Missing required columns: " ++ join (js ", ") missing ∧
        ∀ col, col ∈ missing → includes col error = true)).
Proof.
  intros Hparse Hdata. split_and!; [done..| |].
  - intros missing -> Hmissing. rewrite <- missingColumns_first with (rest := rest) in *.
    rewrite <- Hdata in *. split.
    + unfold Upload.analyzeBarcodes. rewrite Hparse. simpl.
      destruct (errors parseResult); [|by eexists].
      destruct (missingColumns _ _); [done|by eexists].
    + intros Herrors. eexists. split_and!; [by apply upload_missing|done|].
      intros col Hcol. by apply includes_join.
  - intros missing -> Hmissing. rewrite <- missingColumns_first with (rest := rest) in *.
    rewrite <- Hdata in *. split.
    + unfold AnalyzeDefault.analyzeBarcodes. rewrite Hparse. simpl.
      destruct (errors parseResult); [|by eexists].
      destruct (missingColumns _ _); [done|by eexists].
    + intros Herrors. eexists. split_and!; [by apply default_missing|done|].
      intros col Hcol. by apply includes_join.
Qed.

Lemma missing_columns_rejected_witness :
  Upload.analyzeBarcodes (parsed noLastname) [] [] =
    Failure (js "Missing required columns: lastname") ∧
  AnalyzeDefault.analyzeBarcodes (parsed noLastname) [] [] =
    Failure (js "Missing required columns: lastname") ∧
  includes (js "lastname") (js "Missing required columns: lastname") = true.
Proof.
  destruct (missing_columns_rejected (parsed noLastname) [] []
              {| errors := []; data := noLastname |}
              (<[js "firstname" := js "ann"]>
                 (<[js "BarcodeRangeID" := js "7"]>
                    (<[js "TimeEntered" := js "09:00:00.000"]> ∅))) []
              eq_refl eq_refl) as (_ & _ & Hup & Hdef).
  destruct (Hup [js "lastname"]) as (_ & Hup');
    [vm_compute; reflexivity | discriminate |].
  destruct (Hdef [js "lastname"]) as (_ & Hdef');
    [vm_compute; reflexivity | discriminate |].
  destruct (Hup' eq_refl) as (e1 & H1 & -> & Hin1).
  destruct (Hdef' eq_refl) as (e2 & H2 & -> & Hin2).
  split_and!; [exact H1 | exact H2 |].
  apply Hin1, list_elem_of_here.
Defined.

(** ** The cleaning of the lines *)

Ltac unbool :=
  rewrite ?orb_false_iff, ?orb_true_iff, ?andb_false_iff, ?andb_true_iff,
    ?negb_true_iff, ?negb_false_iff, ?N.leb_le, ?N.leb_gt, ?N.eqb_eq, ?N.eqb_neq in *.

Lemma split_length sep s :
  length (split sep s) = S (length (List.filter (λ c, c =? sep) s)).
Proof.
  induction s as [|c s IH]; simpl; [done|].
  destruct (c =? sep); simpl; [by rewrite IH|].
  destruct (split sep s); simpl in *; [done|lia].
Qed.

Lemma trimStart_suffix s : ∃ p, s = p ++ trimStart s.
Proof.
  induction s as [|c s [p IH]]; simpl; [by exists []|].
  destruct (isWhite c); [|by exists []].
  exists (c :: p). by rewrite <- app_comm_cons, <- IH.
Qed.

Lemma trimEnd_prefix s : ∃ q, s = trimEnd s ++ q.
Proof.
  unfold trimEnd. destruct (trimStart_suffix (reverse s)) as [p Hp].
  exists (reverse p). by rewrite <- reverse_app, <- Hp, reverse_involutive.
Qed.

Lemma trim_fields sep s :
  (length (split sep (trim s)) ≤ length (split sep s))%nat.
Proof.
  unfold trim.
  destruct (trimStart_suffix s) as [p Hp].
  destruct (trimEnd_prefix (trimStart s)) as [q Hq].
  rewrite !split_length. rewrite Hp at 2. rewrite Hq at 2.
  rewrite !List.filter_app, !length_app. lia.
Qed.

Lemma trimStart_id s :
  (∀ c, head s = Some c → isWhite c = false) → trimStart s = s.
Proof. destruct s as [|c s]; simpl; [done|]. intros Hc. by rewrite Hc. Qed.

Lemma trim_id s :
  (∀ c, head s = Some c → isWhite c = false) →
  (∀ c, last s = Some c → isWhite c = false) →
  trim s = s.
Proof.
  intros Hhead Hlast. unfold trim, trimEnd.
  rewrite (trimStart_id s) by done.
  rewrite (trimStart_id (reverse s)); [apply reverse_involutive|].
  intros c Hc. apply Hlast. by rewrite <- head_reverse.
Qed.

Lemma span_digits digits rest :
  Forall (λ c, isDigit c = true) digits →
  (∀ c, head rest = Some c → isDigit c = false) →
  span isDigit (digits ++ rest) = (digits, rest).
Proof.
  intros Hdigits Hrest. induction Hdigits as [|d digits Hd _ IH]; simpl.
  - destruct rest as [|c rest]; simpl; [done|]. by rewrite Hrest.
  - by rewrite Hd, IH.
Qed.

Lemma canonicalize_white c : isWhite c = true → canonicalize c = c.
Proof.
  unfold isWhite, canonicalize. intros Hc.
  destruct ((97 <=? c) && (c <=? 122)) eqn:Hletter; [|done].
  exfalso. unbool. lia.
Qed.

Lemma canonicalize_digit c : isDigit c = true → canonicalize c = c.
Proof.
  unfold isDigit, canonicalize. intros Hc.
  destruct ((97 <=? c) && (c <=? 122)) eqn:Hletter; [|done].
  exfalso. unbool. lia.
Qed.

Lemma isDigit_not_white c : isDigit c = true → isWhite c = false.
Proof. unfold isDigit, isWhite. intros Hc. unbool. lia. Qed.

Lemma head_fmap {A B} (f : A → B) l : head (f <$> l) = f <$> head l.
Proof. by destruct l. Qed.

(** What the test on the words means for their two ends. *)
Lemma words_ends words :
  equalsIgnoreCase words (js " rows affected") = true ∨
  equalsIgnoreCase words (js " rows affected)") = true →
  (∀ c, head words = Some c → isDigit c = false) ∧
  (∀ c, last words = Some c → isWhite c = false) ∧
  words ≠ [].
Proof.
  intros Hwords.
  assert (canonicalize <$> head words = Some 32 ∧
          (canonicalize <$> last words = Some 68 ∨
           canonicalize <$> last words = Some 41)) as [Hhead Hlast].
  { rewrite <- head_fmap, <- fmap_last.
    destruct Hwords as [->%bool_decide_eq_true| ->%bool_decide_eq_true];
      split; auto. }
  split_and!.
  - intros c Hc. rewrite Hc in Hhead. injection Hhead as Hhead.
    destruct (isDigit c) eqn:Hd; [|done].
    rewrite canonicalize_digit in Hhead by done. by subst c.
  - intros c Hc. rewrite Hc in Hlast.
    destruct (isWhite c) eqn:Hw; [|done].
    destruct Hlast as [[= Hc']|[= Hc']];
      rewrite canonicalize_white in Hc' by done; by subst c.
  - by intros ->.
Qed.

Lemma keepLine_false line :
  let trimmed := trim line in
  trimmed = [] ∨ trimmed = [13] ∨ matchesRowsAffected trimmed = true ∨
    (length (split 9 trimmed) < 18)%nat →
  keepLine line = false.
Proof.
  intros trimmed H. unfold keepLine. fold trimmed.
  destruct H as [->| [->| [->|H]]]; [done..| |].
  - by rewrite !andb_false_r.
  - rewrite (bool_decide_eq_false_2 (18 ≤ _)%nat) by lia. by rewrite !andb_false_r.
Qed.

Lemma rows_affected_matches digits words :
  digits ≠ [] →
  Forall (λ c, isDigit c = true) digits →
  equalsIgnoreCase words (js " rows affected") = true ∨
  equalsIgnoreCase words (js " rows affected)") = true →
  matchesRowsAffected (trim (digits ++ words)) = true.
Proof.
  intros Hne Hdigits Hwords.
  destruct (words_ends words Hwords) as (Hhead & Hlast & Hwne).
  rewrite trim_id.
  - unfold matchesRowsAffected. rewrite span_digits by done.
    rewrite bool_decide_eq_false_2 by done. simpl.
    by destruct Hwords as [->| ->]; rewrite ?orb_true_r.
  - destruct Hdigits as [|d digits Hd _]; [done|]. simpl.
    intros c [= <-]. by apply isDigit_not_white.
  - intros c Hc. apply Hlast. rewrite last_app in Hc.
    destruct (last words) eqn:Hw; [done|]. by apply last_None in Hw.
Qed.

Lemma split_join ls :
  ls ≠ [] → Forall (λ l, 10 ∉ l) ls → split 10 (join [10] ls) = ls.
Proof.
  intros Hne Hls. induction Hls as [|x ls Hx Hls IH]; [done|].
  destruct ls as [|y ls].
  - change (join [10] [x]) with x. by apply split_without_sep.
  - change (join [10] (x :: y :: ls)) with (x ++ 10 :: join [10] (y :: ls)).
    rewrite split_app_sep by done. by rewrite IH.
Qed.

(** C8. A line is kept out of the text given to the parser when, once
    trimmed, it is empty, or a lone carriage return, or digits followed by
    [ rows affected] in any case with at most one closing parenthesis, or
    has fewer than 18 fields between tabs. So is every line that has fewer
    than 18 fields before trimming, and every line made of digits and these
    words, such as [12 rows affected)]. The text given to the parser is the
    kept lines joined by newlines, and its lines are the kept lines. *)
Theorem line_cleaning :
  (∀ line,
     let trimmed := trim line in
     trimmed = [] ∨ trimmed = [13] ∨ matchesRowsAffected trimmed = true ∨
       (length (split 9 trimmed) < 18)%nat →
     keepLine line = false) ∧
  (∀ line, (length (split 9 line) < 18)%nat → keepLine line = false) ∧
  (∀ digits words,
     digits ≠ [] →
     Forall (λ c, isDigit c = true) digits →
     equalsIgnoreCase words (js " rows affected") = true ∨
     equalsIgnoreCase words (js " rows affected)") = true →
     matchesRowsAffected (trim (digits ++ words)) = true ∧
     keepLine (digits ++ words) = false) ∧
  matchesRowsAffected (trim (js "12 rows affected)")) = true ∧
  keepLine (js "12 rows affected)") = false ∧
  (∀ csvContent,
     let kept := List.filter keepLine (split 10 csvContent) in
     cleanContent csvContent = join [10] kept ∧
     (∀ line, keepLine line = false → line ∉ kept) ∧
     (kept ≠ [] → split 10 (cleanContent csvContent) = kept)).
Proof.
  split_and!.
  - apply keepLine_false.
  - intros line Hfields. apply keepLine_false. do 3 right.
    pose proof (trim_fields 9 line). lia.
  - intros digits words Hne Hdigits Hwords.
    assert (matchesRowsAffected (trim (digits ++ words)) = true) as Hmatch
      by by apply rows_affected_matches.
    split; [done|]. apply keepLine_false. auto.
  - vm_compute. reflexivity.
  - vm_compute. reflexivity.
  - intros csvContent kept. split_and!; [done| |].
    + intros line Hline [_ Hkept]%list_elem_of_In%List.filter_In. congruence.
    + intros Hne. apply split_join; [done|]. apply Forall_forall.
      intros line [Hin _]%list_elem_of_In%List.filter_In.
      pose proof (split_fields_without_sep 10 csvContent) as Hfields.
      rewrite Forall_forall in Hfields. by apply Hfields, list_elem_of_In.
Qed.

Lemma line_cleaning_witness :
  keepLine (js "3 ROWS AFFECTED") = false ∧
  keepLine eighteenFields = true ∧
  cleanContent exportedText = eighteenFields ∧
  split 10 (cleanContent exportedText) = [eighteenFields].
Proof.
  destruct line_cleaning as (_ & _ & Hrows & _ & _ & Hclean).
  destruct (Hclean exportedText) as (_ & _ & Hlines).
  split_and!.
  - apply (Hrows (js "3") (js " ROWS AFFECTED")); [discriminate| |].
    + repeat constructor.
    + left. vm_compute. reflexivity.
  - vm_compute. reflexivity.
  - vm_compute. reflexivity.
  - rewrite Hlines; [vm_compute; reflexivity|]. vm_compute. discriminate.
Defined.

(** ** The detection of the encoding *)

Lemma detectEncoding_bomless buffer :
  bomless buffer →
  detectEncoding buffer =
    match List.find (λ encoding, looksLikeCsv (toString encoding buffer)) candidates with
    | Some encoding => encoding
    | None => utf8
    end.
Proof.
  intros Hbom. destruct buffer as [|b1 [|b2 rest]]; [done|by destruct b1|].
  destruct (Hbom rest) as [Hle Hbe].
  destruct b1; try reflexivity; destruct b2; try reflexivity; done.
Qed.

Lemma find_first {A} (p : A → bool) l x :
  List.find p l = Some x →
  ∃ tried later, l = tried ++ x :: later ∧ p x = true ∧ Forall (λ y, p y = false) tried.
Proof.
  induction l as [|y l IH]; simpl; [done|].
  destruct (p y) eqn:Hy.
  - intros [= ->]. by exists [], l.
  - intros (tried & later & -> & Hx & Htried)%IH.
    exists (y :: tried), later. split_and!; [done..|]. by constructor.
Qed.

Lemma find_nothing {A} (p : A → bool) l :
  List.find p l = None → Forall (λ y, p y = false) l.
Proof.
  induction l as [|y l IH]; simpl; [constructor|].
  destruct (p y) eqn:Hy; [done|]. constructor; auto.
Qed.

Lemma includes_unit c text : includes [c] text = true ↔ c ∈ text.
Proof.
  induction text as [|u text IH]; simpl.
  - split; [done|]. by intros ?%elem_of_nil.
  - rewrite andb_true_r, orb_true_iff, IH, N.eqb_eq, elem_of_cons. tauto.
Qed.

Lemma looksLikeCsv_spec text :
  looksLikeCsv text = true ↔
  44 ∈ text ∨ 9 ∈ text ∨ includes (js "firstname") text = true.
Proof.
  unfold looksLikeCsv. rewrite !orb_true_iff, <- !includes_unit. tauto.
Qed.

(** Text in ASCII that is read two bytes at a time has no unit below 256. *)
Lemma decodeUtf16le_high n : ∀ bytes,
  (length bytes ≤ n)%nat →
  Forall (λ b, 0 < b) bytes →
  Forall (λ u, 256 ≤ u) (decodeUtf16le bytes).
Proof.
  induction n as [|n IH]; intros [|lo [|hi bytes]] Hlen Hbytes; simpl in *;
    try constructor; try lia.
  - inversion Hbytes as [|? ? _ Hrest]; subst.
    inversion Hrest as [|? ? Hhi _]; subst. lia.
  - apply IH; [lia|]. inversion Hbytes as [|? ? _ Hrest]; subst.
    by inversion Hrest.
Qed.

Lemma includes_high needle c text :
  c < 256 →
  Forall (λ u, 256 ≤ u) text →
  includes (c :: needle) text = false.
Proof.
  intros Hc. induction 1 as [|u text Hu _ IH]; simpl; [done|].
  rewrite IH, orb_false_r. apply andb_false_iff. left. apply N.eqb_neq. lia.
Qed.

Lemma decodeUtf8_ascii bytes :
  Forall (λ b, b < 128) bytes → decodeUtf8 None bytes = bytes.
Proof.
  induction 1 as [|b bytes Hb _ IH]; simpl; [done|].
  unfold utf8Lead. destruct (N.leb_spec b 127) as [_|?]; [|lia].
  simpl. by rewrite IH.
Qed.

Lemma asciiText_bomless buffer : Forall asciiText buffer → bomless buffer.
Proof.
  intros Hascii rest. split; intros ->;
    inversion Hascii as [|? ? Hb _]; subst; vm_compute in Hb; by destruct Hb.
Qed.

(** C7, as it fails: the six bytes of [a,b] in UTF-16LE without a mark
    are all ASCII and one is a comma, yet UTF-16LE is tried first and
    answers: the text has three units, not the six bytes. *)
Lemma ascii_with_nul_read_as_utf16 :
  Forall sevenBit commaWide ∧
  x2c ∈ commaWide ∧
  bomless commaWide ∧
  detectEncoding commaWide = utf16le ∧
  toString (detectEncoding commaWide) commaWide = [97; 44; 98] ∧
  byteN <$> commaWide = [97; 0; 44; 0; 98; 0] ∧
  toString (detectEncoding commaWide) commaWide ≠ byteN <$> commaWide.
Proof.
  split_and!; [|..|by vm_compute|by vm_compute|by vm_compute|by vm_compute].
  - repeat constructor; by vm_compute.
  - do 2 apply list_elem_of_further. apply list_elem_of_here.
  - intros rest. split; discriminate.
Qed.

(** C7, amended. A buffer that opens with FF FE, or with FE FF, is taken
    for UTF-16LE whatever follows. Without such a mark the answer is the
    first of UTF-16LE, UTF-8, Latin-1 and ASCII, in this order, whose
    decoding holds a comma, a tab or [firstname], and UTF-8 when none does.
    Hence a buffer of ASCII bytes none of which is NUL, with a comma, is
    taken for UTF-8 and decodes to its own bytes. *)
Theorem encoding_detection :
  (∀ rest, detectEncoding (xff :: xfe :: rest) = utf16le) ∧
  (∀ rest, detectEncoding (xfe :: xff :: rest) = utf16le) ∧
  (∀ text,
     looksLikeCsv text = true ↔
     44 ∈ text ∨ 9 ∈ text ∨ includes (js "firstname") text = true) ∧
  (∀ buffer,
     bomless buffer →
     (∃ tried later,
        candidates = tried ++ detectEncoding buffer :: later ∧
        looksLikeCsv (toString (detectEncoding buffer) buffer) = true ∧
        Forall (λ encoding, looksLikeCsv (toString encoding buffer) = false) tried) ∨
     (detectEncoding buffer = utf8 ∧
      Forall (λ encoding, looksLikeCsv (toString encoding buffer) = false) candidates)) ∧
  (∀ buffer,
     Forall asciiText buffer →
     x2c ∈ buffer →
     detectEncoding buffer = utf8 ∧
     toString (detectEncoding buffer) buffer = byteN <$> buffer).
Proof.
  split_and!; [done|done|apply looksLikeCsv_spec| |].
  - intros buffer Hbom. rewrite detectEncoding_bomless by done.
    destruct (List.find _ candidates) as [encoding|] eqn:Hfind.
    + left. by apply find_first in Hfind.
    + right. split; [done|]. by apply find_nothing in Hfind.
  - intros buffer Hascii Hcomma.
    assert (detectEncoding buffer = utf8) as ->; [|split; [done|]].
    + rewrite detectEncoding_bomless by by apply asciiText_bomless.
      assert (looksLikeCsv (toString utf16le buffer) = false) as Hwide.
      { assert (Forall (λ u, 256 ≤ u) (toString utf16le buffer)) as Hhigh.
        { apply (decodeUtf16le_high (length (byteN <$> buffer))); [done|].
          apply Forall_fmap. eapply Forall_impl; [exact Hascii|].
          by intros b [? _]. }
        unfold looksLikeCsv.
        change (js ",") with [44]. change (js "firstname") with (102 :: js "irstname").
        by rewrite (includes_high [] 44), (includes_high [] 9),
          (includes_high (js "irstname") 102). }
      assert (looksLikeCsv (toString utf8 buffer) = true) as Hnarrow.
      { apply looksLikeCsv_spec. left.
        change (toString utf8 buffer) with (decodeUtf8 None (byteN <$> buffer)).
        rewrite decodeUtf8_ascii.
        - apply (list_elem_of_fmap_2 byteN) in Hcomma. exact Hcomma.
        - apply Forall_fmap. eapply Forall_impl; [exact Hascii|].
          by intros b [_ ?]. }
      simpl. by rewrite Hwide, Hnarrow.
    + change (toString utf8 buffer) with (decodeUtf8 None (byteN <$> buffer)).
      apply decodeUtf8_ascii, Forall_fmap.
      eapply Forall_impl; [exact Hascii|]. by intros b [_ ?].
Qed.

Lemma encoding_detection_witness :
  bomless commaText ∧
  detectEncoding commaText = utf8 ∧
  toString (detectEncoding commaText) commaText = [97; 44; 98].
Proof.
  assert (Forall asciiText commaText) as Hascii
    by (repeat constructor; vm_compute; done).
  split; [by apply asciiText_bomless|].
  destruct encoding_detection as (_ & _ & _ & _ & Htext).
  apply (Htext commaText Hascii).
  apply list_elem_of_further, list_elem_of_here.
Defined.

(** ** Maps in the order of insertion *)

Section MapFacts.
Context {V : Type}.
Implicit Types (m : list (jsstring * V)) (k : jsstring) (v : V).

Lemma mapGet_None k m : mapGet k m = None ↔ k ∉ m.*1.
Proof.
  induction m as [|[k' v'] m IH]; simpl.
  - split; [intros _; apply not_elem_of_nil | done].
  - rewrite not_elem_of_cons. destruct (decide (k = k')); [|tauto].
    split; [done|]. by intros [? _].
Qed.

Lemma mapHas_keys k m : mapHas k m = bool_decide (k ∈ m.*1).
Proof.
  unfold mapHas. apply bool_decide_ext.
  rewrite <- not_eq_None_Some, mapGet_None. split; [|tauto].
  intros Hk. by destruct (decide (k ∈ m.*1)).
Qed.

Lemma mapGet_mapSet k k' v m :
  mapGet k' (mapSet k v m) = if decide (k' = k) then Some v else mapGet k' m.
Proof.
  induction m as [|[k0 v0] m IH]; simpl.
  - done.
  - destruct (decide (k = k0)) as [->|Hk]; simpl.
    + by destruct (decide (k' = k0)).
    + rewrite IH. destruct (decide (k' = k0)) as [->|]; [|done].
      by destruct (decide (k0 = k)).
Qed.

Lemma keys_mapSet k v m :
  (mapSet k v m).*1 = if decide (k ∈ m.*1) then m.*1 else m.*1 ++ [k].
Proof.
  induction m as [|[k0 v0] m IH].
  - simpl. destruct (decide (k ∈ [])) as [Hk|]; [by apply elem_of_nil in Hk|done].
  - cbn [mapSet]. rewrite (fmap_cons fst (k0, v0)). cbn [fst].
    destruct (decide (k = k0)) as [->|Hk]; rewrite fmap_cons; cbn [fst].
    + rewrite decide_True; [done|]. apply list_elem_of_here.
    + rewrite IH. destruct (decide (k ∈ m.*1)) as [Hin|Hin].
      * rewrite decide_True; [done|]. by apply list_elem_of_further.
      * rewrite decide_False; [done|]. rewrite not_elem_of_cons. tauto.
Qed.

Lemma mapGet_elem k v m : NoDup m.*1 → (k, v) ∈ m → mapGet k m = Some v.
Proof.
  induction m as [|[k0 v0] m IH]; simpl; intros Hnd Hin.
  - by apply elem_of_nil in Hin.
  - apply NoDup_cons in Hnd as [Hk0 Hnd].
    apply elem_of_cons in Hin as [[= -> ->]|Hin].
    + by rewrite decide_True.
    + rewrite decide_False; [by apply IH|]. intros ->.
      apply Hk0. by apply (list_elem_of_fmap_2 fst) in Hin.
Qed.

Lemma sum_mapSet (f : V → nat) k v m :
  (sum_list (f <$> (mapSet k v m).*2) + default 0 (f <$> mapGet k m) =
   sum_list (f <$> m.*2) + f v)%nat.
Proof.
  induction m as [|[k0 v0] m IH]; simpl; [lia|].
  destruct (decide (k = k0)) as [->|Hk]; simpl; [lia|].
  unfold fmap in *. lia.
Qed.
End MapFacts.

(** ** Keys in the order of their first row *)

Lemma elem_of_firstSeen k keys : k ∈ firstSeen keys ↔ k ∈ keys.
Proof.
  induction keys as [|k0 keys IH]; simpl; [done|].
  rewrite !elem_of_cons, list_elem_of_In, List.filter_In, <- list_elem_of_In, IH.
  rewrite negb_true_iff, bool_decide_eq_false.
  destruct (decide (k = k0)); tauto.
Qed.

Lemma NoDup_firstSeen keys : NoDup (firstSeen keys).
Proof.
  induction keys as [|k keys IH]; simpl; [constructor|].
  apply NoDup_cons. split.
  - rewrite list_elem_of_In, List.filter_In, negb_true_iff, bool_decide_eq_false.
    tauto.
  - apply NoDup_ListNoDup, List.NoDup_filter, NoDup_ListNoDup, IH.
Qed.

Lemma firstSeen_snoc keys k :
  firstSeen (keys ++ [k]) =
  if decide (k ∈ keys) then firstSeen keys else firstSeen keys ++ [k].
Proof.
  induction keys as [|k0 keys IH]; simpl.
  - destruct (decide (k ∈ [])) as [Hk|]; [by apply elem_of_nil in Hk|done].
  - rewrite IH. destruct (decide (k ∈ keys)) as [Hin|Hin].
    + rewrite decide_True; [done|]. by apply list_elem_of_further.
    + rewrite List.filter_app. simpl.
      destruct (decide (k = k0)) as [->|Hk].
      * rewrite decide_True by apply list_elem_of_here.
        rewrite bool_decide_eq_true_2 by done. simpl. by rewrite app_nil_r.
      * rewrite decide_False by (rewrite not_elem_of_cons; tauto).
        by rewrite bool_decide_eq_false_2.
Qed.

Lemma rowsOf_snoc key rows row :
  rowsOf key (rows ++ [row]) =
  rowsOf key rows ++ (if decide (rowKey row = key) then [row] else []).
Proof.
  unfold rowsOf. rewrite List.filter_app. simpl.
  destruct (decide (rowKey row = key)).
  - by rewrite bool_decide_eq_true_2.
  - by rewrite bool_decide_eq_false_2.
Qed.

Lemma rowsOf_absent key rows : key ∉ rowKey <$> rows → rowsOf key rows = [].
Proof.
  induction rows as [|row rows IH]; simpl; [done|].
  rewrite not_elem_of_cons. intros [Hkey Hrows].
  rewrite bool_decide_eq_false_2 by done. by apply IH.
Qed.

(** ** The grouping of the rows *)

Lemma forEachM_snoc {A S} (body : S → A → M S) s l a :
  forEachM body s (l ++ [a]) = (s' ← forEachM body s l; body s' a).
Proof.
  revert s. induction l as [|b l IH]; intros s; simpl.
  - by destruct (body s a).
  - destruct (body s b) as [e|s']; simpl; [done|]. apply IH.
Qed.

Lemma sum_counts_mapSet key (n : nat) (personCounts : list (jsstring * nat)) :
  (sum_list (mapSet key n personCounts).*2 + default 0 (mapGet key personCounts) =
   sum_list personCounts.*2 + n)%nat.
Proof.
  induction personCounts as [|[k0 n0] m IH]; simpl; [lia|].
  destruct (decide (key = k0)) as [->|Hk]; simpl; [lia|].
  unfold fmap in *. lia.
Qed.

Lemma rowKey_snoc rows row :
  rowKey <$> rows ++ [row] = (rowKey <$> rows) ++ [rowKey row].
Proof. by rewrite fmap_app. Qed.

Lemma default_grouping rows :
  let personCounts := fold_left AnalyzeDefault.countRow rows [] in
  personCounts.*1 = firstSeen (rowKey <$> rows) ∧
  (∀ key, default 0%nat (mapGet key personCounts) = length (rowsOf key rows)) ∧
  sum_list personCounts.*2 = length rows.
Proof.
  induction rows as [|row rows (Hkeys & Hget & Hsum)] using rev_ind; [done|].
  rewrite fold_left_app. simpl. unfold AnalyzeDefault.countRow at 1 3 5.
  set (personCounts := fold_left AnalyzeDefault.countRow rows []) in *.
  split_and!.
  - rewrite keys_mapSet, rowKey_snoc, firstSeen_snoc, Hkeys.
    destruct (decide (rowKey row ∈ rowKey <$> rows)) as [Hin|Hin].
    + rewrite decide_True; [done|]. by apply elem_of_firstSeen.
    + rewrite decide_False; [done|]. by rewrite elem_of_firstSeen.
  - intros key. rewrite mapGet_mapSet, rowsOf_snoc, length_app, <- Hget.
    destruct (decide (key = rowKey row)) as [->|Hkey].
    + rewrite decide_True by done. simpl. lia.
    + rewrite decide_False by done. simpl. lia.
  - pose proof (sum_counts_mapSet (rowKey row)
                  (S (default 0%nat (mapGet (rowKey row) personCounts))) personCounts) as H.
    rewrite length_app. simpl. lia.
Qed.

Lemma groupRow_step personDataMap row :
  let key := rowKey row in
  let before := default (Upload.newAggregate row) (mapGet key personDataMap) in
  ∃ grouped,
    Upload.groupRow personDataMap row = inr grouped ∧
    grouped.*1 =
      (if decide (key ∈ personDataMap.*1) then personDataMap.*1
       else personDataMap.*1 ++ [key]) ∧
    (∀ k, mapGet k grouped =
          if decide (k = key) then Some (Upload.addScan before row)
          else mapGet k personDataMap) ∧
    sum_list (Upload.barcodeCount <$> grouped.*2) =
      S (sum_list (Upload.barcodeCount <$> personDataMap.*2)).
Proof.
  intros key before. unfold Upload.groupRow. fold key. rewrite mapHas_keys.
  destruct (decide (key ∈ personDataMap.*1)) as [Hin|Hin].
  - rewrite bool_decide_eq_true_2 by done.
    destruct (mapGet key personDataMap) as [personData|] eqn:Hget;
      [|by apply mapGet_None in Hget].
    eexists. split_and!; [done| | |].
    + rewrite keys_mapSet. by rewrite decide_True.
    + intros k. by rewrite mapGet_mapSet.
    + pose proof (sum_mapSet Upload.barcodeCount key
                    (Upload.addScan personData row) personDataMap) as H.
      rewrite Hget in H. simpl in H. lia.
  - rewrite bool_decide_eq_false_2 by done.
    assert (mapGet key personDataMap = None) as Hget by by apply mapGet_None.
    rewrite mapGet_mapSet, decide_True by done.
    eexists. split_and!; [done| | |].
    + rewrite !keys_mapSet. rewrite (decide_False (P := key ∈ personDataMap.*1)) by done.
      rewrite decide_True; [done|]. apply elem_of_app. right. apply list_elem_of_here.
    + intros k. rewrite !mapGet_mapSet. unfold before. rewrite Hget.
      by destruct (decide (k = key)).
    + pose proof (sum_mapSet Upload.barcodeCount key
                    (Upload.newAggregate row) personDataMap) as H1.
      pose proof (sum_mapSet Upload.barcodeCount key
                    (Upload.addScan (Upload.newAggregate row) row)
                    (mapSet key (Upload.newAggregate row) personDataMap)) as H2.
      rewrite Hget in H1. rewrite mapGet_mapSet, decide_True in H2 by done.
      simpl in H1, H2. lia.
Qed.

Lemma upload_grouping rows :
  ∃ personDataMap,
    forEachM Upload.groupRow [] rows = inr personDataMap ∧
    personDataMap.*1 = firstSeen (rowKey <$> rows) ∧
    (∀ key personData,
       mapGet key personDataMap = Some personData →
       Upload.barcodeCount personData = length (rowsOf key rows) ∧
       aggregateKey personData = key) ∧
    sum_list (Upload.barcodeCount <$> personDataMap.*2) = length rows.
Proof.
  induction rows as [|row rows (m & Hm & Hkeys & Hget & Hsum)] using rev_ind.
  - exists []. by split_and!.
  - destruct (groupRow_step m row) as (grouped & Hstep & Hkeys' & Hget' & Hsum').
    exists grouped. split_and!.
    + by rewrite forEachM_snoc, Hm.
    + rewrite Hkeys', Hkeys, rowKey_snoc, firstSeen_snoc.
      destruct (decide (rowKey row ∈ rowKey <$> rows)) as [Hin|Hin].
      * rewrite decide_True; [done|]. by apply elem_of_firstSeen.
      * rewrite decide_False; [done|]. by rewrite elem_of_firstSeen.
    + intros key personData. rewrite Hget', rowsOf_snoc, length_app.
      destruct (decide (key = rowKey row)) as [->|Hkey].
      * rewrite decide_True by done. intros [= <-]. simpl.
        destruct (mapGet (rowKey row) m) as [before|] eqn:Hbefore; simpl.
        -- destruct (Hget _ _ Hbefore) as [-> Hk]. split; [lia|exact Hk].
        -- split; [|done]. rewrite rowsOf_absent; [done|].
           rewrite <- elem_of_firstSeen, <- Hkeys. by apply mapGet_None.
      * rewrite decide_False by done. simpl.
        intros [-> ->]%Hget. split; [lia|done].
    + rewrite Hsum', Hsum, length_app. simpl. lia.
Qed.

(** ** The people of a success *)

Lemma toPersonData_fields person p :
  Upload.toPersonData person = inr p →
  Upload.firstname p = Upload.person_firstname person ∧
  Upload.lastname p = Upload.person_lastname person ∧
  Upload.barcode_range_count p = Upload.barcodeCount person.
Proof. unfold Upload.toPersonData. intros H. unbind. by subst p. Qed.

Lemma Forall2_fmap_eq {A B C} (f : A → C) (g : B → C) l k :
  Forall2 (λ a b, f a = g b) l k → f <$> l = g <$> k.
Proof. intros H. by apply list_eq_Forall2, Forall2_fmap. Qed.

(** The people of the upload route before the sort: one for each key, in
    the order of the keys, with the count of the rows of the key. *)
Lemma upload_people papaParse now csvContent d :
  Upload.analyzeBarcodes papaParse now csvContent = Success d →
  ∃ parseResult unsorted,
    papaParse (cleanContent csvContent) = inr parseResult ∧
    people_data d = sortByCount unsorted ∧
    personKey <$> unsorted = firstSeen (rowKey <$> data parseResult) ∧
    Forall (λ p, countOf p = length (rowsOf (personKey p) (data parseResult))) unsorted ∧
    sum_list (countOf <$> unsorted) = length (data parseResult).
Proof.
  intros (parseResult & m & unsorted & Hparse & _ & _ & Hgroup & Hpeople & ->)
    %upload_success.
  destruct (upload_grouping (data parseResult)) as (m' & Hm' & Hkeys & Hget & Hsum).
  rewrite Hgroup in Hm'. injection Hm' as <-.
  apply arrayMapM_inr, Forall2_fmap_l in Hpeople.
  assert (Forall2 (λ e p, personKey p = e.1 ∧
                          countOf p = length (rowsOf e.1 (data parseResult)) ∧
                          countOf p = Upload.barcodeCount e.2) m unsorted) as Hlink.
  { apply Forall2_same_length_lookup. split; [by eapply Forall2_length|].
    intros i [key person] p Hi Hp.
    pose proof (Forall2_lookup_lr _ _ _ _ _ _ Hpeople Hi Hp) as Hperson.
    apply toPersonData_fields in Hperson as (Hf & Hl & Hc).
    assert (mapGet key m = Some person) as [Hcount Hkey]%Hget.
    { apply mapGet_elem; [|by eapply list_elem_of_lookup_2].
      rewrite Hkeys. apply NoDup_firstSeen. }
    unfold personKey, countOf, Upload.PersonData_counted.
    rewrite Hf, Hl, Hc. simpl. by rewrite <- Hcount. }
  exists parseResult, unsorted. split_and!; [done|done|..].
  - rewrite <- Hkeys. symmetry. apply Forall2_fmap_eq.
    eapply Forall2_impl; [exact Hlink|]. by intros e p (-> & _).
  - eapply Forall2_Forall_r; [exact Hlink|]. apply Forall_forall.
    intros e _ p (-> & -> & _). done.
  - rewrite <- Hsum, <- list_fmap_compose. f_equal. symmetry.
    apply Forall2_fmap_eq. eapply Forall2_impl; [exact Hlink|].
    by intros e p (_ & _ & ->).
Qed.

(** The people of the default route: the entries of the counts, sorted. *)
Lemma default_people papaParse now csvContent d :
  AnalyzeDefault.analyzeBarcodes papaParse now csvContent = Success d →
  ∃ parseResult,
    papaParse (cleanContent csvContent) = inr parseResult ∧
    let personCounts := fold_left AnalyzeDefault.countRow (data parseResult) [] in
    people_data d = sortByCount (AnalyzeDefault.toPersonData <$> personCounts) ∧
    personCounts.*1 = firstSeen (rowKey <$> data parseResult) ∧
    Forall (λ e, e.2 = length (rowsOf e.1 (data parseResult))) personCounts ∧
    sum_list personCounts.*2 = length (data parseResult).
Proof.
  intros (parseResult & Hparse & _ & _ & ->)%default_success.
  exists parseResult. split; [done|].
  destruct (default_grouping (data parseResult)) as (Hkeys & Hget & Hsum).
  cbv zeta in *. split_and!; [done..| |done].
  apply Forall_forall. intros [key count] Hin. simpl.
  rewrite <- Hget. erewrite mapGet_elem; [done| |done].
  rewrite Hkeys. apply NoDup_firstSeen.
Qed.

Lemma default_counts (personCounts : list (jsstring * nat)) :
  countOf <$> (AnalyzeDefault.toPersonData <$> personCounts) = personCounts.*2.
Proof.
  rewrite <- list_fmap_compose. apply list_fmap_ext. by intros _ [key count] _.
Qed.

(** ** The order of the people *)

(** C3. In a success of either route each person counts at least as much
    as the next one, and the people of one count stand as they stood before
    the sort, which is the order in which their keys were first met among
    the rows. *)
Theorem sorted_by_count_stably papaParse now csvContent :
  (∀ d, Upload.analyzeBarcodes papaParse now csvContent = Success d →
     descending (people_data d) ∧
     ∃ parseResult unsorted,
       papaParse (cleanContent csvContent) = inr parseResult ∧
       personKey <$> unsorted = firstSeen (rowKey <$> data parseResult) ∧
       people_data d ≡ₚ unsorted ∧
       ∀ c, withCount c (people_data d) = withCount c unsorted) ∧
  (∀ d, AnalyzeDefault.analyzeBarcodes papaParse now csvContent = Success d →
     descending (people_data d) ∧
     ∃ parseResult personCounts,
       papaParse (cleanContent csvContent) = inr parseResult ∧
       personCounts.*1 = firstSeen (rowKey <$> data parseResult) ∧
       people_data d ≡ₚ AnalyzeDefault.toPersonData <$> personCounts ∧
       ∀ c, withCount c (people_data d) =
            withCount c (AnalyzeDefault.toPersonData <$> personCounts)).
Proof.
  split; intros d Hd.
  - apply upload_people in Hd as (parseResult & unsorted & Hparse & -> & Hkeys & _).
    split; [apply sortByCount_descending|].
    exists parseResult, unsorted. split_and!; [done|done| |].
    + apply sortByCount_perm.
    + intros c. apply sortByCount_stable.
  - apply default_people in Hd as (parseResult & Hparse & -> & Hkeys & _).
    split; [apply sortByCount_descending|].
    eexists parseResult, _. split_and!; [done|exact Hkeys| |].
    + apply sortByCount_perm.
    + intros c. apply sortByCount_stable.
Qed.

Lemma sorted_by_count_stably_witness :
  ∃ d e,
    Upload.analyzeBarcodes (parsed tiedRows) [] [] = Success d ∧
    AnalyzeDefault.analyzeBarcodes (parsed tiedRows) [] [] = Success e ∧
    personKey <$> people_data d = [js "ann_lee"; js "bob_ray"; js "cat_fox"] ∧
    countOf <$> people_data e = [2; 1; 1]%nat ∧
    descending (people_data d) ∧
    descending (people_data e).
Proof.
  assert (∃ d e,
            Upload.analyzeBarcodes (parsed tiedRows) [] [] = Success d ∧
            AnalyzeDefault.analyzeBarcodes (parsed tiedRows) [] [] = Success e ∧
            personKey <$> people_data d = [js "ann_lee"; js "bob_ray"; js "cat_fox"] ∧
            countOf <$> people_data e = [2; 1; 1]%nat)
    as (d & e & Hd & He & Hkeys & Hcounts).
  { eexists _, _. split_and!; vm_compute; reflexivity. }
  exists d, e.
  destruct (sorted_by_count_stably (parsed tiedRows) [] []) as [Hup Hdef].
  split_and!; [done..| |].
  - by destruct (Hup d Hd).
  - by destruct (Hdef e He).
Defined.

(** ** The counts of the people *)

(** C5. In a success of the upload route the count of a person is the
    number of rows of the key of that person, and the keys of the people
    are the keys of the rows, each once. In a success of the default route
    the people are made one by one from entries of a key and the number of
    rows of that key, each key of the rows once. In both the counts add up
    to the number of rows. *)
Theorem count_is_rows_of_key papaParse now csvContent :
  (∀ d, Upload.analyzeBarcodes papaParse now csvContent = Success d →
     ∃ parseResult,
       papaParse (cleanContent csvContent) = inr parseResult ∧
       (∀ p, p ∈ people_data d →
          Upload.barcode_range_count p =
            length (rowsOf (personKey p) (data parseResult))) ∧
       personKey <$> people_data d ≡ₚ firstSeen (rowKey <$> data parseResult) ∧
       sum_list (countOf <$> people_data d) = length (data parseResult)) ∧
  (∀ d, AnalyzeDefault.analyzeBarcodes papaParse now csvContent = Success d →
     ∃ parseResult entries,
       papaParse (cleanContent csvContent) = inr parseResult ∧
       people_data d = AnalyzeDefault.toPersonData <$> entries ∧
       Forall (λ e, e.2 = length (rowsOf e.1 (data parseResult))) entries ∧
       entries.*1 ≡ₚ firstSeen (rowKey <$> data parseResult) ∧
       sum_list (countOf <$> people_data d) = length (data parseResult)).
Proof.
  split; intros d Hd.
  - apply upload_people in Hd
      as (parseResult & unsorted & Hparse & -> & Hkeys & Hcount & Hsum).
    exists parseResult. split_and!; [done| | |].
    + intros p Hp. rewrite sortByCount_perm in Hp.
      rewrite Forall_forall in Hcount. by apply Hcount.
    + by rewrite sortByCount_perm, Hkeys.
    + by rewrite sortByCount_perm.
  - apply default_people in Hd as (parseResult & Hparse & -> & Hkeys & Hcount & Hsum).
    set (personCounts := fold_left AnalyzeDefault.countRow (data parseResult) []) in *.
    exists parseResult,
      (stableSort (λ a b, countBefore (AnalyzeDefault.toPersonData a)
                            (AnalyzeDefault.toPersonData b)) personCounts).
    split_and!; [done| | | |].
    + unfold sortByCount. by rewrite stableSort_fmap.
    + by rewrite stableSort_perm.
    + by rewrite stableSort_perm, Hkeys.
    + by rewrite sortByCount_perm, default_counts.
Qed.

Lemma count_is_rows_of_key_witness :
  ∃ d e,
    Upload.analyzeBarcodes (parsed tiedRows) [] [] = Success d ∧
    AnalyzeDefault.analyzeBarcodes (parsed tiedRows) [] [] = Success e ∧
    sum_list (countOf <$> people_data d) = 4%nat ∧
    sum_list (countOf <$> people_data e) = 4%nat.
Proof.
  assert (∃ d e,
            Upload.analyzeBarcodes (parsed tiedRows) [] [] = Success d ∧
            AnalyzeDefault.analyzeBarcodes (parsed tiedRows) [] [] = Success e)
    as (d & e & Hd & He).
  { eexists _, _. split; vm_compute; reflexivity. }
  exists d, e.
  destruct (count_is_rows_of_key (parsed tiedRows) [] []) as [Hup Hdef].
  destruct (Hup d Hd) as (parseResult & [= <-] & _ & _ & Hsum).
  destruct (Hdef e He) as (parseResult & entries & [= <-] & _ & _ & _ & Hsum').
  by split_and!.
Defined.

(** ** The names of the default route *)

Lemma split_key first last :
  95 ∉ first → 95 ∉ last → split 95 (first ++ js "_" ++ last) = [first; last].
Proof.
  intros Hfirst Hlast. change (js "_") with [95]. simpl app.
  by rewrite split_app_sep, split_without_sep.
Qed.

(** C10. In the default route a person is made from a key of the rows: the
    names are the first two pieces of the key cut at the underscores. A row
    whose two names have no underscore finds them again in a person of the
    result, with the count of the rows of its key. The rows of [a_b], [c]
    and of [a], [b_c] have one key and give the one person [a], [b] with a
    count of 2: the names do not come back from the key. *)
Theorem names_from_key papaParse now csvContent :
  (∀ key count,
     AnalyzeDefault.toPersonData (key, count) =
       {| AnalyzeDefault.firstname := split 95 key !! 0%nat;
          AnalyzeDefault.lastname := split 95 key !! 1%nat;
          AnalyzeDefault.barcode_range_count := count |}) ∧
  (∀ d, AnalyzeDefault.analyzeBarcodes papaParse now csvContent = Success d →
     ∃ parseResult,
       papaParse (cleanContent csvContent) = inr parseResult ∧
       (∀ p, p ∈ people_data d →
          ∃ key,
            key ∈ rowKey <$> data parseResult ∧
            p = AnalyzeDefault.toPersonData
                  (key, length (rowsOf key (data parseResult)))) ∧
       (∀ row first last,
          row ∈ data parseResult →
          row !! js "firstname" = Some first →
          row !! js "lastname" = Some last →
          95 ∉ first → 95 ∉ last →
          ∃ p,
            p ∈ people_data d ∧
            AnalyzeDefault.firstname p = Some first ∧
            AnalyzeDefault.lastname p = Some last ∧
            AnalyzeDefault.barcode_range_count p =
              length (rowsOf (rowKey row) (data parseResult)))) ∧
  (∃ d,
     AnalyzeDefault.analyzeBarcodes (parsed underscored) now [] = Success d ∧
     underscored !! 0%nat = Some (sampleRow "a_b" "c" "09:00:00.000") ∧
     underscored !! 1%nat = Some (sampleRow "a" "b_c" "09:00:05.000") ∧
     rowKey (sampleRow "a_b" "c" "09:00:00.000") = js "a_b_c" ∧
     rowKey (sampleRow "a" "b_c" "09:00:05.000") = js "a_b_c" ∧
     people_data d =
       [{| AnalyzeDefault.firstname := Some (js "a");
           AnalyzeDefault.lastname := Some (js "b");
           AnalyzeDefault.barcode_range_count := 2 |}]).
Proof.
  split_and!.
  - done.
  - intros d (parseResult & Hparse & Hpeople & Hkeys & Hcount & _)%default_people.
    set (personCounts := fold_left AnalyzeDefault.countRow (data parseResult) []) in *.
    rewrite Forall_forall in Hcount.
    exists parseResult. split_and!; [done| |].
    + intros p Hp. rewrite Hpeople, sortByCount_perm in Hp.
      apply list_elem_of_fmap in Hp as ([key count] & -> & Hin).
      exists key. split.
      * rewrite <- elem_of_firstSeen, <- Hkeys.
        by apply (list_elem_of_fmap_2 fst) in Hin.
      * pose proof (Hcount _ Hin) as Hc. simpl in Hc. by subst count.
    + intros row first last Hrow Hfirst Hlast Hf Hl.
      assert (rowKey row ∈ personCounts.*1) as Hkey.
      { rewrite Hkeys, elem_of_firstSeen. by apply list_elem_of_fmap_2. }
      apply list_elem_of_fmap in Hkey as ([key count] & Hk & Hin).
      simpl in Hk. subst key.
      exists (AnalyzeDefault.toPersonData (rowKey row, count)). split_and!.
      * rewrite Hpeople, sortByCount_perm. by apply list_elem_of_fmap_2.
      * unfold rowKey. rewrite Hfirst, Hlast. simpl tmpl.
        unfold AnalyzeDefault.toPersonData. by rewrite split_key.
      * unfold rowKey. rewrite Hfirst, Hlast. simpl tmpl.
        unfold AnalyzeDefault.toPersonData. by rewrite split_key.
      * pose proof (Hcount _ Hin) as Hc. simpl in Hc. by subst count.
  - eexists. split_and!; [vm_compute; reflexivity|done|done|by vm_compute..].
Qed.

Lemma names_from_key_witness :
  ∃ d p,
    AnalyzeDefault.analyzeBarcodes (parsed tiedRows) [] [] = Success d ∧
    p ∈ people_data d ∧
    AnalyzeDefault.firstname p = Some (js "cat") ∧
    AnalyzeDefault.lastname p = Some (js "fox") ∧
    AnalyzeDefault.barcode_range_count p = 1%nat.
Proof.
  assert (∃ d, AnalyzeDefault.analyzeBarcodes (parsed tiedRows) [] [] = Success d)
    as [d Hd] by (eexists; vm_compute; reflexivity).
  destruct (names_from_key (parsed tiedRows) [] []) as (_ & Hnames & _).
  destruct (Hnames d Hd) as (parseResult & [= <-] & _ & Hrow).
  destruct (Hrow (sampleRow "cat" "fox" "09:00:07.000") (js "cat") (js "fox"))
    as (p & Hp & Hfirst & Hlast & Hcount).
  - simpl. do 2 apply list_elem_of_further. apply list_elem_of_here.
  - by vm_compute.
  - by vm_compute.
  - apply (bool_decide_unpack _). by vm_compute.
  - apply (bool_decide_unpack _). by vm_compute.
  - exists d, p. by split_and!.
Defined.

(** * Further properties *)

(** ** The periods as a cut of the sorted scans *)

Lemma neighbours_nil {A} (R : A → A → Prop) : neighbours R [].
Proof. by intros i x y ?. Qed.

Lemma neighbours_singleton {A} (R : A → A → Prop) x : neighbours R [x].
Proof. intros [|i] a b Ha Hb; simpl in *; done. Qed.

Lemma neighbours_snoc {A} (R : A → A → Prop) l x :
  neighbours R l →
  (∀ y, last l = Some y → R y x) →
  neighbours R (l ++ [x]).
Proof.
  intros Hl Hlast i a b Ha Hb.
  destruct (decide (S i < length l)%nat) as [Hlt|Hge].
  - rewrite lookup_app_l in Ha, Hb by lia. by eapply Hl.
  - assert (S i = length l) as Hi.
    { apply lookup_lt_Some in Hb. rewrite length_app in Hb. simpl in Hb. lia. }
    rewrite lookup_app_l in Ha by lia.
    rewrite lookup_app_r in Hb by lia.
    replace (S i - length l)%nat with 0%nat in Hb by lia. injection Hb as <-.
    apply Hlast. rewrite last_lookup. by replace (pred (length l)) with i by lia.
Qed.

Lemma neighbours_cons {A} (R : A → A → Prop) x l :
  neighbours R l →
  (∀ y, head l = Some y → R x y) →
  neighbours R (x :: l).
Proof.
  intros Hl Hhead [|i] a b Ha Hb; simpl in *.
  - injection Ha as <-. apply Hhead. by rewrite head_lookup.
  - by eapply Hl.
Qed.

Lemma closePeriod_inr p q :
  closePeriod p = inr q →
  start_time q = start_time p ∧ end_time q = end_time p ∧
  barcode_count q = barcode_count p.
Proof. unfold closePeriod. intros H. unbind. by subst q. Qed.

Lemma covers_closed p q run : closePeriod p = inr q → covers p run → covers q run.
Proof.
  intros (Hs & He & Hc)%closePeriod_inr (? & ? & ?).
  unfold covers. by rewrite Hs, He, Hc.
Qed.

(** What the loop keeps: the periods closed so far stand for runs of scans
    at most 30 minutes apart, each more than 30 minutes after the one
    before, and the open period for the run that ends at [prev]. *)
Lemma walkPeriods_runs rest : ∀ prev current periods out runs run,
  Forall2 covers periods runs →
  covers current run →
  end_time current = prev →
  Forall (neighbours gapWithin30) runs →
  neighbours gapWithin30 run →
  neighbours (λ p q, gapAbove30 (end_time p) (start_time q)) periods →
  (∀ p, last periods = Some p → gapAbove30 (end_time p) (start_time current)) →
  walkPeriods prev current periods rest = inr out →
  ∃ runs',
    mjoin runs' = run ++ rest ∧
    Forall2 covers out (runs ++ runs') ∧
    Forall (neighbours gapWithin30) (runs ++ runs') ∧
    neighbours (λ p q, gapAbove30 (end_time p) (start_time q)) out.
Proof.
  induction rest as [|t rest IH];
    intros prev current periods out runs run Hruns Hrun Hprev Hin Hrunin Hsep Hlast H;
    simpl in H.
  - unbind. subst out. pose proof (covers_closed _ _ _ E Hrun) as Hclosed.
    apply closePeriod_inr in E as (Hs & He & Hc).
    exists [run]. split_and!.
    + simpl. by rewrite !app_nil_r.
    + apply Forall2_app; [done|]. by constructor.
    + apply Forall_app. split; [done|]. by constructor.
    + apply neighbours_snoc; [done|]. intros p Hp. rewrite Hs. by apply Hlast.
  - unbind. destruct (ngt _ _) eqn:Hgap.
    + unbind. pose proof (covers_closed _ _ _ E1 Hrun) as Hclosed.
      apply closePeriod_inr in E1 as (Hs & He & Hc).
      edestruct (IH t (newPeriod t) (periods ++ [w]) out (runs ++ [run]) [t])
        as (runs' & Hjoin & Hcov & Hwithin & Hbetween); [..|exact H|].
      * apply Forall2_app; [done|]. by constructor.
      * done.
      * done.
      * apply Forall_app. split; [done|]. by constructor.
      * apply neighbours_singleton.
      * apply neighbours_snoc; [done|]. intros p Hp. rewrite Hs. by apply Hlast.
      * intros p. rewrite last_snoc. intros [= <-]. simpl.
        rewrite He, Hprev. by exists n, n0.
      * exists (run :: runs'). split_and!.
        -- simpl. rewrite Hjoin. done.
        -- by rewrite <- app_assoc in Hcov.
        -- by rewrite <- app_assoc in Hwithin.
        -- done.
    + edestruct (IH t
                   {| start_time := start_time current; end_time := t;
                      duration_hours := duration_hours current;
                      barcode_count := S (barcode_count current) |}
                   periods out runs (run ++ [t]))
        as (runs' & Hjoin & Hcov & Hwithin & Hbetween); [done| | | | | | |exact H|].
      * destruct Hrun as (Hh & Hl & Hc). unfold covers. simpl. split_and!.
        -- rewrite head_app, Hh. done.
        -- by rewrite last_snoc.
        -- rewrite length_app, Hc. simpl. lia.
      * done.
      * done.
      * apply neighbours_snoc; [done|]. intros y Hy.
        destruct Hrun as (_ & Hl & _). rewrite Hl in Hy. injection Hy as <-.
        rewrite Hprev. by exists n, n0.
      * done.
      * done.
      * exists runs'. split_and!; [|done..]. by rewrite Hjoin, <- app_assoc.
Qed.

Lemma calculateWorkPeriods_runs timeEntries periods :
  calculateWorkPeriods timeEntries = inr periods →
  ∃ runs,
    mjoin runs = stableSort defaultBefore timeEntries ∧
    Forall2 covers periods runs ∧
    Forall (neighbours gapWithin30) runs ∧
    neighbours (λ p q, gapAbove30 (end_time p) (start_time q)) periods.
Proof.
  unfold calculateWorkPeriods. destruct timeEntries as [|t l].
  - intros [= <-]. exists []. split_and!; [done|constructor|constructor|].
    apply neighbours_nil.
  - pose proof (stableSort_perm defaultBefore (t :: l)) as Hperm.
    destruct (stableSort defaultBefore (t :: l)) as [|first rest];
      [by apply Permutation_nil_cons in Hperm|].
    simpl. intros H.
    edestruct (walkPeriods_runs rest first (newPeriod first) [] periods [] [first])
      as (runs & Hjoin & Hcov & Hwithin & Hbetween);
      [solve [done | apply neighbours_singleton | apply neighbours_nil] .. | exact H |].
    by exists runs.
Qed.

(** X1. The periods that [calculateWorkPeriods] returns cut the sorted
    scans into consecutive runs: each period starts at the first scan of
    its run, ends at the last and counts the scans of the run. *)
Theorem periods_cut_sorted_scans timeEntries periods :
  calculateWorkPeriods timeEntries = inr periods →
  ∃ runs,
    mjoin runs = stableSort defaultBefore timeEntries ∧
    mjoin runs ≡ₚ timeEntries ∧
    Forall2 covers periods runs.
Proof.
  intros (runs & Hjoin & Hcov & _)%calculateWorkPeriods_runs.
  exists runs. split_and!; [done| |done]. rewrite Hjoin. apply stableSort_perm.
Qed.

Lemma periods_cut_sorted_scans_witness :
  ∃ periods runs,
    calculateWorkPeriods threeScans = inr periods ∧
    mjoin runs = threeScans ∧
    Forall2 covers periods runs.
Proof.
  assert (∃ periods, calculateWorkPeriods threeScans = inr periods) as [periods H]
    by (eexists; vm_compute; reflexivity).
  destruct (periods_cut_sorted_scans _ _ H) as (runs & Hjoin & _ & Hcov).
  exists periods, runs. split_and!; [done| |done].
  rewrite Hjoin. vm_compute. reflexivity.
Defined.

Lemma covers_count periods runs :
  Forall2 covers periods runs →
  sum_list (barcode_count <$> periods) = length (mjoin runs) ∧
  Forall (λ p, 1 ≤ barcode_count p)%nat periods.
Proof.
  induction 1 as [|p run periods runs (Hh & _ & Hc) _ [IHsum IHpos]]; [done|].
  split.
  - simpl. rewrite length_app, <- IHsum, Hc. done.
  - constructor; [|done]. rewrite Hc. destruct run; [done|simpl; lia].
Qed.

Lemma calculateWorkPeriods_counts timeEntries periods :
  calculateWorkPeriods timeEntries = inr periods →
  sum_list (barcode_count <$> periods) = length timeEntries ∧
  Forall (λ p, 1 ≤ barcode_count p)%nat periods ∧
  (timeEntries ≠ [] → periods ≠ []).
Proof.
  intros (runs & Hjoin & Hcov & _)%calculateWorkPeriods_runs.
  destruct (covers_count _ _ Hcov) as [Hsum Hpos].
  assert (sum_list (barcode_count <$> periods) = length timeEntries) as Hlen.
  { rewrite Hsum, Hjoin. apply Permutation_length, stableSort_perm. }
  split_and!; [done..|].
  intros Hne ->. simpl in Hlen. by destruct timeEntries.
Qed.

(** X3. No scan is lost in the periods: their counts add up to the number
    of time entries, every period holds a scan at least, and entries there
    are give a period at least. *)
Theorem scans_of_periods_add_up timeEntries periods :
  calculateWorkPeriods timeEntries = inr periods →
  sum_list (barcode_count <$> periods) = length timeEntries ∧
  Forall (λ p, 1 ≤ barcode_count p)%nat periods ∧
  (timeEntries ≠ [] → periods ≠ []).
Proof. apply calculateWorkPeriods_counts. Qed.

Lemma scans_of_periods_add_up_witness :
  ∃ periods,
    calculateWorkPeriods threeScans = inr periods ∧
    sum_list (barcode_count <$> periods) = 3%nat.
Proof.
  assert (∃ periods, calculateWorkPeriods threeScans = inr periods) as [periods H]
    by (eexists; vm_compute; reflexivity).
  exists periods. split; [done|].
  by destruct (scans_of_periods_add_up _ _ H) as (-> & _).
Defined.

(** ** When the periods can be computed *)

Arguments parseTimeToMinutes : simpl never.

Lemma parseTimeToMinutes_string str : ∃ n, parseTimeToMinutes (Some str) = inr n.
Proof. by eexists. Qed.

Lemma parseTimeToMinutes_inr timeStr n :
  parseTimeToMinutes timeStr = inr n → is_Some timeStr.
Proof. by destruct timeStr. Qed.

Lemma parseTimeToMinutes_inl timeStr e :
  parseTimeToMinutes timeStr = inl e → timeStr = None ∧ e = readOfUndefined "split".
Proof. destruct timeStr; [done|]. by intros [= <-]. Qed.

Lemma closePeriod_total p :
  is_Some (start_time p) → is_Some (end_time p) → ∃ q, closePeriod p = inr q.
Proof.
  intros [s Hs] [e He]. unfold closePeriod. rewrite Hs, He.
  destruct (parseTimeToMinutes_string s) as [a ->].
  destruct (parseTimeToMinutes_string e) as [b ->]. by eexists.
Qed.

Lemma closePeriod_inl p e : closePeriod p = inl e → e = readOfUndefined "split".
Proof.
  unfold closePeriod.
  destruct (parseTimeToMinutes (start_time p)) eqn:Hs; simpl;
    [intros [= <-]; by apply parseTimeToMinutes_inl in Hs as [_ ->]|].
  destruct (parseTimeToMinutes (end_time p)) eqn:He; simpl;
    [intros [= <-]; by apply parseTimeToMinutes_inl in He as [_ ->]|done].
Qed.

Lemma walkPeriods_total rest : ∀ prev current periods,
  is_Some prev → is_Some (start_time current) → is_Some (end_time current) →
  Forall is_Some rest →
  ∃ out, walkPeriods prev current periods rest = inr out.
Proof.
  induction rest as [|t rest IH]; intros prev current periods Hprev Hs He Hrest; simpl.
  - destruct (closePeriod_total current Hs He) as [q ->]. by eexists.
  - apply Forall_cons in Hrest as [[t' ->] Hrest]. destruct Hprev as [prev' ->].
    destruct (parseTimeToMinutes_string prev') as [a ->].
    destruct (parseTimeToMinutes_string t') as [b ->]. simpl.
    destruct (ngt _ _).
    + destruct (closePeriod_total current Hs He) as [q ->]. simpl.
      by apply IH.
    + by apply IH.
Qed.

Lemma walkPeriods_inr rest : ∀ prev current periods out,
  walkPeriods prev current periods rest = inr out →
  is_Some (start_time current) ∧ Forall is_Some rest.
Proof.
  induction rest as [|t rest IH]; intros prev current periods out H; simpl in H.
  - unbind. split; [|constructor]. unfold closePeriod in E. unbind.
    by eapply parseTimeToMinutes_inr.
  - unbind. apply parseTimeToMinutes_inr in E0 as Ht. destruct (ngt _ _).
    + unbind. apply IH in H as [_ Hrest]. split; [|by constructor].
      unfold closePeriod in E1. unbind. by eapply parseTimeToMinutes_inr.
    + apply IH in H as [Hs Hrest]. split; [done|by constructor].
Qed.

Lemma walkPeriods_inl rest : ∀ prev current periods e,
  walkPeriods prev current periods rest = inl e → e = readOfUndefined "split".
Proof.
  induction rest as [|t rest IH]; intros prev current periods e; simpl.
  - destruct (closePeriod current) eqn:Hc; simpl; [|done].
    intros [= <-]. by eapply closePeriod_inl.
  - destruct (parseTimeToMinutes prev) eqn:Hp; simpl;
      [intros [= <-]; by apply parseTimeToMinutes_inl in Hp as [_ ->]|].
    destruct (parseTimeToMinutes t) eqn:Ht; simpl;
      [intros [= <-]; by apply parseTimeToMinutes_inl in Ht as [_ ->]|].
    destruct (ngt _ _); [|apply IH].
    destruct (closePeriod current) eqn:Hc; simpl; [|apply IH].
    intros [= <-]. by eapply closePeriod_inl.
Qed.

Lemma calculateWorkPeriods_total timeEntries :
  Forall is_Some timeEntries →
  ∃ periods, calculateWorkPeriods timeEntries = inr periods.
Proof.
  intros Hall. unfold calculateWorkPeriods.
  destruct timeEntries as [|t l]; [by eexists|].
  pose proof (stableSort_perm defaultBefore (t :: l)) as Hperm.
  rewrite <- Hperm in Hall.
  destruct (stableSort defaultBefore (t :: l)) as [|first rest];
    [by apply Permutation_nil_cons in Hperm|].
  apply Forall_cons in Hall as [Hfirst Hrest]. simpl.
  by apply walkPeriods_total.
Qed.

Lemma calculateWorkPeriods_defined timeEntries periods :
  calculateWorkPeriods timeEntries = inr periods → Forall is_Some timeEntries.
Proof.
  unfold calculateWorkPeriods.
  destruct timeEntries as [|t l]; [constructor|].
  pose proof (stableSort_perm defaultBefore (t :: l)) as Hperm.
  destruct (stableSort defaultBefore (t :: l)) as [|first rest];
    [by apply Permutation_nil_cons in Hperm|].
  simpl. intros [Hfirst Hrest]%walkPeriods_inr.
  rewrite <- Hperm. by constructor.
Qed.

Lemma calculateWorkPeriods_inl timeEntries e :
  calculateWorkPeriods timeEntries = inl e → e = readOfUndefined "split".
Proof.
  unfold calculateWorkPeriods.
  destruct timeEntries as [|t l]; [done|]. apply walkPeriods_inl.
Qed.

(** X4. [calculateWorkPeriods] returns its periods exactly when every time
    entry is a string; with an entry that is [undefined] it throws the
    TypeError of [timeStr.split], however many entries are strings. *)
Theorem work_periods_need_every_time timeEntries :
  (Forall is_Some timeEntries ↔ ∃ periods, calculateWorkPeriods timeEntries = inr periods) ∧
  (¬ Forall is_Some timeEntries ↔
   calculateWorkPeriods timeEntries = inl (readOfUndefined "split")).
Proof.
  split_and!; split.
  - apply calculateWorkPeriods_total.
  - intros [periods H]. by eapply calculateWorkPeriods_defined.
  - intros Hnot. destruct (calculateWorkPeriods timeEntries) as [e|periods] eqn:H.
    + f_equal. by eapply calculateWorkPeriods_inl.
    + exfalso. by eapply Hnot, calculateWorkPeriods_defined.
  - intros H Hsome.
    destruct (calculateWorkPeriods_total _ Hsome) as [periods Hp]. congruence.
Qed.

Lemma work_periods_need_every_time_witness :
  (∃ periods, calculateWorkPeriods threeScans = inr periods) ∧
  calculateWorkPeriods (None :: threeScans) = inl (readOfUndefined "split").
Proof.
  split.
  - apply (proj1 (work_periods_need_every_time threeScans)).
    repeat constructor; by eexists.
  - apply (proj2 (work_periods_need_every_time (None :: threeScans))).
    intros [[? [=]] _]%Forall_cons.
Defined.

(** ** The order of the scans in the file *)

Lemma stringLe_refl a : stringLe a a = true.
Proof.
  induction a as [|x a IH]; simpl; [done|].
  by rewrite N.eqb_refl, IH, orb_true_r.
Qed.

Lemma stringLe_total a : ∀ b, stringLe a b = false → stringLe b a = true.
Proof.
  induction a as [|x a IH]; intros [|y b]; simpl; try done.
  intros H. apply orb_false_iff in H as [Hlt H].
  apply N.ltb_ge in Hlt. destruct (N.eqb_spec x y) as [->|Hne]; simpl in H.
  - rewrite N.eqb_refl, (IH _ H). apply orb_true_r.
  - apply orb_true_iff. left. apply N.ltb_lt. lia.
Qed.

Lemma stringLe_antisym a : ∀ b,
  stringLe a b = true → stringLe b a = true → a = b.
Proof.
  induction a as [|x a IH]; intros [|y b]; simpl; try done.
  intros Hab Hba.
  apply orb_true_iff in Hab as [Hab|Hab], Hba as [Hba|Hba];
    rewrite ?andb_true_iff, ?N.ltb_lt, ?N.eqb_eq in *; try lia.
  destruct Hab as [-> Hab], Hba as [_ Hba]. f_equal. by apply IH.
Qed.

Lemma stringLe_trans a : ∀ b c,
  stringLe a b = true → stringLe b c = true → stringLe a c = true.
Proof.
  induction a as [|x a IH]; intros [|y b] [|z c]; simpl; try done.
  intros Hab Hbc.
  apply orb_true_iff in Hab as [Hab|Hab], Hbc as [Hbc|Hbc];
    rewrite ?andb_true_iff, ?N.ltb_lt, ?N.eqb_eq in *; apply orb_true_iff.
  - left. apply N.ltb_lt. lia.
  - left. apply N.ltb_lt. lia.
  - left. apply N.ltb_lt. lia.
  - destruct Hab as [-> Hab], Hbc as [-> Hbc]. right.
    rewrite N.eqb_refl. simpl. by eapply IH.
Qed.

Lemma defaultBefore_total a b : defaultBefore a b = false → defaultBefore b a = true.
Proof. destruct a, b; simpl; try done. apply stringLe_total. Qed.

Lemma defaultBefore_antisym a b :
  defaultBefore a b = true → defaultBefore b a = true → a = b.
Proof.
  destruct a, b; simpl; try done.
  intros Hab Hba. f_equal. by apply stringLe_antisym.
Qed.

Lemma defaultBefore_trans a b c :
  defaultBefore a b = true → defaultBefore b c = true → defaultBefore a c = true.
Proof. destruct a, b, c; simpl; try done. apply stringLe_trans. Qed.

(** Of the arrangements of some elements one at most is sorted, when the
    order tells any two elements apart. *)
Lemma sorted_unique {A} (R : A → A → Prop) (l1 : list A) : ∀ l2,
  Transitive R →
  (∀ a b, R a b → R b a → a = b) →
  Sorted R l1 → Sorted R l2 → l1 ≡ₚ l2 → l1 = l2.
Proof.
  induction l1 as [|a l1 IH]; intros l2 Htrans Hanti H1 H2 Hperm.
  - by apply Permutation_nil_l in Hperm.
  - destruct l2 as [|b l2]; [by apply Permutation_nil_r in Hperm|].
    apply Sorted_StronglySorted in H1, H2; [|done..].
    apply StronglySorted_inv in H1 as [H1 Ha], H2 as [H2 Hb].
    rewrite Forall_forall in Ha, Hb.
    assert (a = b) as ->.
    { assert (a ∈ b :: l2) as [->|Hin]%elem_of_cons; [|done|].
      { rewrite <- Hperm. apply list_elem_of_here. }
      assert (b ∈ a :: l1) as [->|Hin']%elem_of_cons; [|done|].
      { rewrite Hperm. apply list_elem_of_here. }
      apply Hanti; [by apply Ha|by apply Hb]. }
    f_equal. apply IH; [done|done|by apply StronglySorted_Sorted..|].
    by apply Permutation_cons_inv in Hperm.
Qed.

Lemma sort_of_permutation (l l' : list jsval) :
  l ≡ₚ l' → stableSort defaultBefore l = stableSort defaultBefore l'.
Proof.
  intros Hperm.
  apply (sorted_unique (λ a b, defaultBefore a b = true)).
  - intros a b c. apply defaultBefore_trans.
  - intros a b. apply defaultBefore_antisym.
  - apply stableSort_sorted, defaultBefore_total.
  - apply stableSort_sorted, defaultBefore_total.
  - by rewrite !stableSort_perm.
Qed.

(** X5. The periods do not depend on the order in which the scans come:
    two lists of the same time entries give the same result. *)
Theorem work_periods_of_permutation timeEntries timeEntries' :
  timeEntries ≡ₚ timeEntries' →
  calculateWorkPeriods timeEntries = calculateWorkPeriods timeEntries'.
Proof.
  intros Hperm. unfold calculateWorkPeriods.
  destruct timeEntries as [|t l], timeEntries' as [|t' l'].
  - done.
  - by apply Permutation_nil_cons in Hperm.
  - symmetry in Hperm. by apply Permutation_nil_cons in Hperm.
  - by rewrite (sort_of_permutation _ _ Hperm).
Qed.

Lemma work_periods_of_permutation_witness :
  calculateWorkPeriods (reverse threeScans) = calculateWorkPeriods threeScans.
Proof.
  apply work_periods_of_permutation. apply reverse_Permutation.
Defined.

(** ** Times in the format of the source *)

Lemma digit_cases d :
  isDigit d = true →
  d = 48 ∨ d = 49 ∨ d = 50 ∨ d = 51 ∨ d = 52 ∨ d = 53 ∨ d = 54 ∨ d = 55 ∨
  d = 56 ∨ d = 57.
Proof. unfold isDigit. unbool. lia. Qed.

Lemma Number_two_digits d1 d2 :
  isDigit d1 = true → isDigit d2 = true →
  Number [d1; d2] = Fin (inject_Z (twoDigits d1 d2)).
Proof.
  intros H1%digit_cases H2%digit_cases.
  repeat (destruct H1 as [->|H1]); try subst d1;
    repeat (destruct H2 as [->|H2]); try subst d2; vm_compute; reflexivity.
Qed.

Lemma isDigit_not c d : isDigit d = true → isDigit c = false → c ≠ d.
Proof. by intros Hd Hc ->; congruence. Qed.

Lemma clockTime_fields h1 h2 m1 m2 s1 s2 fraction :
  Forall (λ d, isDigit d = true) [h1; h2; m1; m2; s1; s2] →
  fraction = [] ∨ head fraction = Some 46 →
  (split 58 (default [] (head (split 46 (clockTime h1 h2 m1 m2 s1 s2 ++ fraction)))))
  = [[h1; h2]; [m1; m2]; [s1; s2]].
Proof.
  intros Hdigits Hfraction.
  rewrite !Forall_cons in Hdigits.
  destruct Hdigits as (H1 & H2 & H3 & H4 & H5 & H6 & _).
  assert (∀ d, isDigit d = true → d ≠ 46 ∧ d ≠ 58) as Hd.
  { intros d Hdig. unfold isDigit in Hdig. unbool. lia. }
  assert (46 ∉ clockTime h1 h2 m1 m2 s1 s2) as Hnopoint.
  { unfold clockTime. rewrite !not_elem_of_cons.
    split_and!; try (intros Heq; symmetry in Heq; by apply Hd in Heq); try done.
    apply not_elem_of_nil. }
  assert (head (split 46 (clockTime h1 h2 m1 m2 s1 s2 ++ fraction)) =
          Some (clockTime h1 h2 m1 m2 s1 s2)) as ->.
  { destruct Hfraction as [->|Hhead].
    - by rewrite app_nil_r, split_without_sep.
    - destruct fraction as [|c fraction]; [done|]. injection Hhead as ->.
      by rewrite split_app_sep. }
  simpl default. unfold clockTime.
  change [h1; h2; 58; m1; m2; 58; s1; s2]
    with ([h1; h2] ++ 58 :: ([m1; m2] ++ 58 :: [s1; s2])).
  rewrite !split_app_sep, split_without_sep; [done|..];
    rewrite !not_elem_of_cons;
    (split_and!; [intros Heq; symmetry in Heq; by apply Hd in Heq..
                 |apply not_elem_of_nil]).
Qed.

Lemma parseTimeToMinutes_clock h1 h2 m1 m2 s1 s2 fraction :
  Forall (λ d, isDigit d = true) [h1; h2; m1; m2; s1; s2] →
  fraction = [] ∨ head fraction = Some 46 →
  parseTimeToMinutes (Some (clockTime h1 h2 m1 m2 s1 s2 ++ fraction)) =
    inr (Fin (Qred (secondsOf h1 h2 m1 m2 s1 s2 # 60))).
Proof.
  intros Hdigits Hfraction. unfold parseTimeToMinutes.
  rewrite clockTime_fields by done.
  rewrite !Forall_cons in Hdigits.
  destruct Hdigits as (H1 & H2 & H3 & H4 & H5 & H6 & _).
  simpl. rewrite !Number_two_digits by done.
  unfold mret, M_ret. simpl. apply (f_equal inr), (f_equal Fin).
  apply Qred_complete. rewrite !Qred_correct. unfold secondsOf.
  generalize (twoDigits h1 h2) (twoDigits m1 m2) (twoDigits s1 s2).
  intros a b c. unfold Qeq, Qdiv, Qmult, Qplus, Qinv, inject_Z. simpl. lia.
Qed.



Lemma clockEntry_parse entry seconds :
  clockEntry entry seconds →
  parseTimeToMinutes entry = inr (Fin (Qred (seconds # 60))).
Proof.
  intros (h1 & h2 & m1 & m2 & s1 & s2 & fraction & -> & Hd & _ & _ & Hf & ->).
  by apply parseTimeToMinutes_clock.
Qed.

(** The order of the sort is the order of the clock. *)
Lemma clockEntry_order a sa b sb :
  clockEntry a sa → clockEntry b sb →
  defaultBefore a b = true → (sa ≤ sb)%Z.
Proof.
  intros (h1 & h2 & m1 & m2 & s1 & s2 & fa & -> & Ha & Hm & Hs & _ & ->).
  intros (h1' & h2' & m1' & m2' & s1' & s2' & fb & -> & Hb & Hm' & Hs' & _ & ->).
  rewrite !Forall_cons in Ha, Hb.
  destruct Ha as (A1 & A2 & A3 & A4 & A5 & A6 & _).
  destruct Hb as (B1 & B2 & B3 & B4 & B5 & B6 & _).
  unfold isDigit in *. simpl. generalize (stringLe fa fb). intros tail Hle.
  unfold secondsOf, twoDigits.
  rewrite ?andb_true_iff, ?N.leb_le in *.
  repeat first [rewrite orb_true_iff in Hle | rewrite andb_true_iff in Hle
               |rewrite N.ltb_lt in Hle | rewrite N.eqb_eq in Hle].
  destruct Hle as [H|[-> [H|[-> [H|[-> [H|[-> [H|[-> [H|[-> _]]]]]]]]]]]]; lia.
Qed.

Lemma StronglySorted_mjoin {A} (R : A → A → Prop) (runs : list (list A)) :
  StronglySorted R (mjoin runs) → Forall (StronglySorted R) runs.
Proof.
  induction runs as [|run runs IH]; simpl; [constructor|].
  intros H. constructor.
  - by eapply StronglySorted_app_1_l.
  - by eapply IH, StronglySorted_app_1_r.
Qed.

Lemma StronglySorted_ends {A} (R : A → A → Prop) (l : list A) a b :
  StronglySorted R l → head l = Some a → last l = Some b → a = b ∨ R a b.
Proof.
  intros Hl Ha Hb. destruct l as [|x l]; [done|]. injection Ha as ->.
  apply StronglySorted_inv in Hl as [_ Hall].
  destruct l as [|y l]; [left; by injection Hb|].
  right. rewrite Forall_forall in Hall. apply Hall.
  apply last_Some_elem_of. by rewrite last_cons_cons in Hb.
Qed.

Lemma duration_of_clock startSeconds endSeconds :
  (startSeconds ≤ endSeconds)%Z →
  ∃ q,
    ndiv (nsub (Fin (Qred (endSeconds # 60))) (Fin (Qred (startSeconds # 60))))
      (Fin 60) = Fin q ∧
    (0 <= q)%Q.
Proof.
  intros Hle. eexists. split; [reflexivity|].
  rewrite !Qred_correct. unfold Qle, Qdiv, Qmult, Qplus, Qopp, Qinv. simpl. lia.
Qed.



(** ** The cleaned text *)

Lemma filter_all {A} (p : A → bool) l :
  Forall (λ x, p x = true) l → List.filter p l = l.
Proof. induction 1 as [|x l Hx _ IH]; simpl; [done|]. by rewrite Hx, IH. Qed.

Lemma filter_kept {A} (p : A → bool) l : Forall (λ x, p x = true) (List.filter p l).
Proof.
  apply Forall_forall. intros x [_ Hx]%list_elem_of_In%List.filter_In. done.
Qed.

Lemma filter_none {A} (p : A → bool) l :
  Forall (λ x, p x = false) l → List.filter p l = [].
Proof. induction 1 as [|x l Hx _ IH]; simpl; [done|]. by rewrite Hx. Qed.

Lemma filter_sublist {A} (p : A → bool) l : List.filter p l `sublist_of` l.
Proof.
  induction l as [|x l IH]; simpl; [done|].
  destruct (p x); [by apply sublist_skip|by apply sublist_cons].
Qed.

Lemma keepLine_nonempty line : keepLine line = true → line ≠ [].
Proof. by intros H ->. Qed.

Lemma keepLine_fields line :
  keepLine line = true → (18 ≤ length (split 9 line))%nat.
Proof.
  unfold keepLine. rewrite !andb_true_iff. intros (_ & Hfields).
  apply bool_decide_eq_true in Hfields.
  pose proof (trim_fields 9 line). lia.
Qed.

Lemma join_nonempty sep x l : x ≠ [] → join sep (x :: l) ≠ [].
Proof.
  intros Hx. destruct l as [|y l]; [done|].
  change (join sep (x :: y :: l)) with (x ++ sep ++ join sep (y :: l)).
  by destruct x.
Qed.

Lemma kept_lines csvContent :
  let kept := List.filter keepLine (split 10 csvContent) in
  (kept = [] ∧ cleanContent csvContent = []) ∨
  (kept ≠ [] ∧ cleanContent csvContent ≠ [] ∧
   split 10 (cleanContent csvContent) = kept).
Proof.
  intros kept. unfold cleanContent. fold kept.
  pose proof (filter_kept keepLine (split 10 csvContent)) as Hkept. fold kept in Hkept.
  assert (Forall (λ l, 10 ∉ l) kept) as Hlines.
  { apply Forall_forall. intros line [Hin _]%list_elem_of_In%List.filter_In.
    pose proof (split_fields_without_sep 10 csvContent) as Hfields.
    rewrite Forall_forall in Hfields. by apply Hfields, list_elem_of_In. }
  destruct kept as [|line kept']; [by left|right].
  split_and!; [done| |by apply split_join].
  apply join_nonempty. apply Forall_cons in Hkept as [Hline _].
  by apply keepLine_nonempty.
Qed.

(** X8. Cleaning is idempotent: a text that was cleaned is not changed by
    being cleaned again. *)
Theorem cleaning_twice csvContent :
  cleanContent (cleanContent csvContent) = cleanContent csvContent.
Proof.
  destruct (kept_lines csvContent) as [[_ ->]|(_ & _ & Hlines)]; [done|].
  unfold cleanContent at 1. rewrite Hlines.
  by rewrite filter_all by apply filter_kept.
Qed.

(** X9. The lines of the cleaned text, when it is not empty, are lines of
    the content in the order of the content, each with 18 fields or more
    between tabs. *)
Theorem cleaned_lines csvContent :
  cleanContent csvContent = [] ∨
  (split 10 (cleanContent csvContent) `sublist_of` split 10 csvContent ∧
   Forall (λ line, 18 ≤ length (split 9 line))%nat (split 10 (cleanContent csvContent))).
Proof.
  destruct (kept_lines csvContent) as [[_ ->]|(_ & _ & ->)]; [by left|right].
  split; [apply filter_sublist|].
  eapply Forall_impl; [apply filter_kept|]. apply keepLine_fields.
Qed.

Lemma split_elem sep s f x : f ∈ split sep s → x ∈ f → x ∈ s.
Proof.
  revert f. induction s as [|c s IH]; intros f; simpl.
  - intros ->%list_elem_of_singleton. by intros ?%elem_of_nil.
  - destruct (c =? sep).
    + intros [->|Hf]%elem_of_cons Hx; [by apply elem_of_nil in Hx|].
      apply list_elem_of_further. by eapply IH.
    + destruct (split sep s) as [|g gs] eqn:Hs.
      * intros ->%list_elem_of_singleton ->%list_elem_of_singleton.
        apply list_elem_of_here.
      * intros [->|Hf]%elem_of_cons Hx.
        -- apply elem_of_cons in Hx as [->|Hx]; [apply list_elem_of_here|].
           apply list_elem_of_further, (IH g); [apply list_elem_of_here|done].
        -- apply list_elem_of_further, (IH f); [by apply list_elem_of_further|done].
Qed.

Lemma split_without_tab line : 9 ∉ line → length (split 9 line) = 1%nat.
Proof. intros Hline. by rewrite split_without_sep. Qed.

(** X10. A content without any tab is cleaned to the empty text: a file
    whose fields are set apart by commas alone leaves nothing to parse. *)
Theorem no_tab_no_text csvContent :
  9 ∉ csvContent → cleanContent csvContent = [].
Proof.
  intros Htab. unfold cleanContent. rewrite filter_none; [done|].
  apply Forall_forall. intros line Hline. apply keepLine_false. do 3 right.
  pose proof (trim_fields 9 line) as Hfields.
  rewrite (split_without_tab line) in Hfields; [lia|].
  intros Hin. apply Htab. by eapply split_elem.
Qed.

Lemma no_tab_no_text_witness :
  cleanContent (js "firstname,lastname,BarcodeRangeID,TimeEntered") = [].
Proof. apply no_tab_no_text. apply (bool_decide_unpack _). by vm_compute. Defined.

(** ** What the upload route keeps of the rows of a person *)

Lemma upload_grouping_entries rows : ∀ personDataMap,
  forEachM Upload.groupRow [] rows = inr personDataMap →
  ∀ key personData,
    mapGet key personDataMap = Some personData →
    Upload.timeEntries personData =
      (λ row : Row, row !! js "TimeEntered") <$> rowsOf key rows ∧
    ∃ first,
      head (rowsOf key rows) = Some first ∧
      Upload.person_firstname personData = first !! js "firstname" ∧
      Upload.person_lastname personData = first !! js "lastname".
Proof.
  induction rows as [|row rows IH] using rev_ind; intros m' Hm' key a Ha.
  - injection Hm' as <-. done.
  - rewrite forEachM_snoc in Hm'.
    destruct (upload_grouping rows) as (m & Hm & Hkeys & _).
    rewrite Hm in Hm'. simpl in Hm'.
    destruct (groupRow_step m row) as (grouped & Hstep & _ & Hget & _).
    rewrite Hstep in Hm'. injection Hm' as <-.
    rewrite Hget in Ha. rewrite rowsOf_snoc.
    destruct (decide (key = rowKey row)) as [->|Hkey].
    + injection Ha as <-. rewrite decide_True by done.
      destruct (mapGet (rowKey row) m) as [before|] eqn:Hbefore; simpl.
      * destruct (IH m Hm _ _ Hbefore) as (Htimes & first & Hfirst & Hnames).
        split.
        -- by rewrite Htimes, fmap_app.
        -- exists first. split; [|done]. rewrite head_app, Hfirst. done.
      * assert (rowsOf (rowKey row) rows = []) as ->.
        { apply rowsOf_absent. rewrite <- elem_of_firstSeen, <- Hkeys.
          by apply mapGet_None. }
        split; [done|]. by exists row.
    + rewrite decide_False by done. rewrite app_nil_r. by apply (IH m).
Qed.

Lemma rowsOf_elem key rows row : row ∈ rowsOf key rows ↔ row ∈ rows ∧ rowKey row = key.
Proof.
  unfold rowsOf. rewrite list_elem_of_In, List.filter_In, <- list_elem_of_In.
  by rewrite bool_decide_eq_true.
Qed.

Lemma arrayMapM_total {A B} (f : A → M B) l :
  Forall (λ a, ∃ b, f a = inr b) l → ∃ bs, arrayMapM f l = inr bs.
Proof.
  induction 1 as [|a l [b Hb] _ [bs IH]]; simpl; [by eexists|].
  rewrite Hb. simpl. rewrite IH. by eexists.
Qed.

Lemma arrayMapM_inl {A B} (f : A → M B) l e :
  arrayMapM f l = inl e → ∃ a, a ∈ l ∧ f a = inl e.
Proof.
  induction l as [|a l IH]; simpl; [done|].
  destruct (f a) as [e'|b] eqn:Ha; simpl.
  - intros [= <-]. exists a. split; [apply list_elem_of_here|done].
  - destruct (arrayMapM f l) as [e'|bs]; simpl; [|done].
    intros [= <-]. destruct IH as (a' & Hin & Ha'); [done|].
    exists a'. split; [by apply list_elem_of_further|done].
Qed.

Lemma toPersonData_returns person :
  Forall is_Some (Upload.timeEntries person) →
  ∃ p, Upload.toPersonData person = inr p.
Proof.
  intros [periods Hp]%calculateWorkPeriods_total.
  unfold Upload.toPersonData. rewrite Hp. by eexists.
Qed.

Lemma toPersonData_inl person e :
  Upload.toPersonData person = inl e → e = readOfUndefined "split".
Proof.
  unfold Upload.toPersonData.
  destruct (calculateWorkPeriods _) eqn:Hc; simpl; [|done].
  intros [= <-]. by eapply calculateWorkPeriods_inl.
Qed.

Lemma toPersonData_periods person p :
  Upload.toPersonData person = inr p →
  calculateWorkPeriods (Upload.timeEntries person) = inr (Upload.work_periods p).
Proof. unfold Upload.toPersonData. intros H. unbind. by subst p. Qed.

(** The rows once the parser reports none of its errors and the first row
    has the columns. *)
Lemma upload_validated papaParse now csvContent parseResult :
  papaParse (cleanContent csvContent) = inr parseResult →
  errors parseResult = [] →
  missingColumns Upload.requiredColumns (data parseResult) = [] →
  Upload.analyzeBarcodes papaParse now csvContent =
    caught "Error analyzing file: " (
      personDataMap ← forEachM Upload.groupRow [] (data parseResult);
      peopleData ← arrayMapM Upload.toPersonData personDataMap.*2;
      mret (Success {| people_data := sortByCount peopleData;
                       statistics := summarize (sortByCount peopleData);
                       filename := js "uploaded_file.csv";
                       upload_time := now |})).
Proof.
  intros Hparse Herrors Hmissing. unfold Upload.analyzeBarcodes.
  rewrite Hparse. simpl. by rewrite Herrors, Hmissing.
Qed.

(** X11. Once the parser reports no error and the first row has the four
    columns, the upload succeeds exactly when every row has a time: one row
    without [TimeEntered] fails the whole analysis with the TypeError of
    [timeStr.split]. *)
Theorem upload_needs_every_time papaParse now csvContent parseResult :
  papaParse (cleanContent csvContent) = inr parseResult →
  errors parseResult = [] →
  missingColumns Upload.requiredColumns (data parseResult) = [] →
  (Forall (λ row : Row, is_Some (row !! js "TimeEntered")) (data parseResult) →
   ∃ d, Upload.analyzeBarcodes papaParse now csvContent = Success d) ∧
  (¬ Forall (λ row : Row, is_Some (row !! js "TimeEntered")) (data parseResult) →
   Upload.analyzeBarcodes papaParse now csvContent =
     Failure (js "Error analyzing file: Cannot read properties of undefined (reading 'split')")).
Proof.
  intros Hparse Herrors Hmissing.
  rewrite (upload_validated _ _ _ _ Hparse Herrors Hmissing).
  destruct (upload_grouping (data parseResult)) as (m & Hm & Hkeys & _).
  pose proof (upload_grouping_entries _ _ Hm) as Hentries.
  rewrite Hm. simpl.
  assert (Forall (λ row : Row, is_Some (row !! js "TimeEntered")) (data parseResult) ↔
          Forall (λ a, Forall is_Some (Upload.timeEntries a)) m.*2) as Hiff.
  { rewrite !Forall_forall. split.
    - intros Hrows a Ha. apply list_elem_of_fmap in Ha as ([key a'] & -> & Hin).
      simpl. destruct (Hentries key a') as [-> _].
      { apply mapGet_elem; [|done]. rewrite Hkeys. apply NoDup_firstSeen. }
      apply Forall_forall. intros t (row & -> & [Hrow _]%rowsOf_elem)%list_elem_of_fmap.
      by apply Hrows.
    - intros Haggs row Hrow.
      assert (rowKey row ∈ m.*1) as Hkey.
      { rewrite Hkeys, elem_of_firstSeen. by apply list_elem_of_fmap_2. }
      apply list_elem_of_fmap in Hkey as ([key a] & Hk & Hin). simpl in Hk. subst key.
      assert (Forall is_Some (Upload.timeEntries a)) as Htimes.
      { apply Haggs. by apply (list_elem_of_fmap_2 snd) in Hin. }
      destruct (Hentries (rowKey row) a) as [Heq _].
      { apply mapGet_elem; [|done]. rewrite Hkeys. apply NoDup_firstSeen. }
      rewrite Heq, Forall_forall in Htimes. apply Htimes.
      apply (list_elem_of_fmap_2 (λ row : Row, row !! js "TimeEntered")).
      by apply rowsOf_elem. }
  split.
  - intros Hrows%Hiff.
    destruct (arrayMapM_total Upload.toPersonData m.*2) as [people ->];
      [|by eexists].
    eapply Forall_impl; [exact Hrows|]. apply toPersonData_returns.
  - intros Hrows.
    destruct (arrayMapM Upload.toPersonData m.*2) as [e|people] eqn:Hpeople.
    + apply arrayMapM_inl in Hpeople as (a & _ & ->%toPersonData_inl). done.
    + exfalso. apply Hrows, Hiff.
      apply arrayMapM_inr in Hpeople. eapply Forall2_Forall_l; [exact Hpeople|].
      apply Forall_forall. intros p _ a Ha%toPersonData_periods.
      by eapply calculateWorkPeriods_defined.
Qed.

Lemma upload_needs_every_time_witness :
  (∃ d, Upload.analyzeBarcodes (parsed tenSeconds) [] [] = Success d) ∧
  Upload.analyzeBarcodes (parsed timeless) [] [] =
    Failure (js "Error analyzing file: Cannot read properties of undefined (reading 'split')").
Proof.
  split.
  - apply (upload_needs_every_time (parsed tenSeconds) [] []
             {| errors := []; data := tenSeconds |}); [done|done|by vm_compute|].
    unfold tenSeconds, data.
    repeat (apply Forall_cons; split; [eexists; vm_compute; reflexivity|]).
    by apply Forall_nil.
  - apply (upload_needs_every_time (parsed timeless) [] []
             {| errors := []; data := timeless |}); [done|done|by vm_compute|].
    intros (_ & [Hbob _]%Forall_cons)%Forall_cons.
    vm_compute in Hbob. by destruct Hbob.
Defined.

(** A person of a success of the upload route, and the rows it comes from. *)
Lemma upload_person papaParse now csvContent d p :
  Upload.analyzeBarcodes papaParse now csvContent = Success d →
  p ∈ people_data d →
  ∃ parseResult first,
    papaParse (cleanContent csvContent) = inr parseResult ∧
    head (rowsOf (personKey p) (data parseResult)) = Some first ∧
    Upload.firstname p = first !! js "firstname" ∧
    Upload.lastname p = first !! js "lastname" ∧
    Upload.barcode_range_count p = length (rowsOf (personKey p) (data parseResult)) ∧
    calculateWorkPeriods
      ((λ row : Row, row !! js "TimeEntered") <$> rowsOf (personKey p) (data parseResult))
    = inr (Upload.work_periods p).
Proof.
  intros (parseResult & m & people & Hparse & _ & _ & Hm & Hpeople & ->)%upload_success Hp.
  simpl in Hp. rewrite sortByCount_perm in Hp.
  destruct (upload_grouping (data parseResult)) as (m' & Hm' & Hkeys & Hget & _).
  rewrite Hm in Hm'. injection Hm' as <-.
  pose proof (upload_grouping_entries _ _ Hm) as Hentries.
  apply arrayMapM_inr, Forall2_fmap_l in Hpeople.
  apply list_elem_of_lookup in Hp as [i Hi].
  destruct (Forall2_lookup_r _ _ _ i p Hpeople Hi) as ([key a] & Hin & Hperson).
  simpl in Hperson.
  assert (mapGet key m = Some a) as Ha.
  { apply mapGet_elem; [|by eapply list_elem_of_lookup_2].
    rewrite Hkeys. apply NoDup_firstSeen. }
  destruct (Hget _ _ Ha) as [Hcount Hkey].
  destruct (Hentries _ _ Ha) as (Htimes & first & Hfirst & Hf & Hl).
  pose proof (toPersonData_periods _ _ Hperson) as Hperiods.
  apply toPersonData_fields in Hperson as (Hpf & Hpl & Hpc).
  assert (personKey p = key) as ->.
  { unfold personKey. rewrite Hpf, Hpl. exact Hkey. }
  exists parseResult, first.
  split_and!; [done|done|congruence|congruence|congruence|by rewrite <- Htimes].
Qed.

(** X12. In a success of the upload route the periods of a person are
    those of the times of the rows of that person, in their number; the
    scans of the periods add up to the scans of the person. *)
Theorem periods_of_person papaParse now csvContent d p :
  Upload.analyzeBarcodes papaParse now csvContent = Success d →
  p ∈ people_data d →
  ∃ parseResult,
    papaParse (cleanContent csvContent) = inr parseResult ∧
    calculateWorkPeriods
      ((λ row : Row, row !! js "TimeEntered") <$> rowsOf (personKey p) (data parseResult))
    = inr (Upload.work_periods p) ∧
    sum_list (barcode_count <$> Upload.work_periods p) = Upload.barcode_range_count p ∧
    Upload.work_periods p ≠ [].
Proof.
  intros Hd Hp.
  destruct (upload_person _ _ _ _ _ Hd Hp)
    as (parseResult & first & Hparse & Hfirst & _ & _ & Hcount & Hperiods).
  exists parseResult. split_and!; [done|done| |].
  - destruct (calculateWorkPeriods_counts _ _ Hperiods) as (-> & _).
    by rewrite length_fmap, Hcount.
  - destruct (calculateWorkPeriods_counts _ _ Hperiods) as (_ & _ & Hne).
    apply Hne. by destruct (rowsOf _ _).
Qed.

Lemma periods_of_person_witness :
  ∃ d p,
    Upload.analyzeBarcodes (parsed tenSeconds) [] [] = Success d ∧
    p ∈ people_data d ∧
    Upload.barcode_range_count p = 2%nat ∧
    sum_list (barcode_count <$> Upload.work_periods p) = 2%nat.
Proof.
  assert (∃ d p,
            Upload.analyzeBarcodes (parsed tenSeconds) [] [] = Success d ∧
            p ∈ people_data d ∧ Upload.barcode_range_count p = 2%nat)
    as (d & p & Hd & Hp & Hcount).
  { eexists _, _. split_and!;
      [vm_compute; reflexivity|apply list_elem_of_here|reflexivity]. }
  exists d, p. split_and!; [done..|].
  destruct (periods_of_person _ _ _ _ _ Hd Hp) as (_ & _ & _ & Hsum & _).
  congruence.
Defined.

(** X13. In a success of the upload route a person bears the two names of
    the first row, in the order of the file, among the rows of its key. *)
Theorem names_of_first_row papaParse now csvContent d p :
  Upload.analyzeBarcodes papaParse now csvContent = Success d →
  p ∈ people_data d →
  ∃ parseResult first,
    papaParse (cleanContent csvContent) = inr parseResult ∧
    head (rowsOf (personKey p) (data parseResult)) = Some first ∧
    Upload.firstname p = first !! js "firstname" ∧
    Upload.lastname p = first !! js "lastname".
Proof.
  intros Hd Hp.
  destruct (upload_person _ _ _ _ _ Hd Hp)
    as (parseResult & first & Hparse & Hfirst & Hf & Hl & _).
  by exists parseResult, first.
Qed.

Lemma names_of_first_row_witness :
  ∃ d p,
    Upload.analyzeBarcodes (parsed tenSeconds) [] [] = Success d ∧
    p ∈ people_data d ∧
    Upload.firstname p = Some (js "ann") ∧
    ∃ first,
      head (rowsOf (js "ann_lee") tenSeconds) = Some first ∧
      Upload.firstname p = first !! js "firstname".
Proof.
  assert (∃ d p,
            Upload.analyzeBarcodes (parsed tenSeconds) [] [] = Success d ∧
            p ∈ people_data d ∧ Upload.firstname p = Some (js "ann") ∧
            personKey p = js "ann_lee")
    as (d & p & Hd & Hp & Hname & Hkey).
  { eexists _, _. split_and!;
      [vm_compute; reflexivity|apply list_elem_of_here|reflexivity|by vm_compute]. }
  exists d, p. split_and!; [done..|].
  destruct (names_of_first_row _ _ _ _ _ Hd Hp)
    as (parseResult & first & [= <-] & Hfirst & Hf & _).
  exists first. rewrite <- Hkey. split; assumption.
Defined.

(** ** The totals of a success *)

Lemma rowsOf_present key rows :
  key ∈ rowKey <$> rows → (1 ≤ length (rowsOf key rows))%nat.
Proof.
  intros (row & -> & Hrow)%list_elem_of_fmap.
  assert (row ∈ rowsOf (rowKey row) rows) as Hin by by apply rowsOf_elem.
  destruct (rowsOf _ _); [by apply elem_of_nil in Hin|simpl; lia].
Qed.

Lemma missingColumns_empty requiredColumns :
  missingColumns requiredColumns [] = requiredColumns.
Proof. unfold missingColumns. simpl. apply filter_all, Forall_forall. done. Qed.

Lemma sum_at_least_length (counts : list nat) :
  Forall (λ c, 1 ≤ c)%nat counts → (length counts ≤ sum_list counts)%nat.
Proof. induction 1; simpl; lia. Qed.

Lemma upload_statistics papaParse now csvContent d :
  Upload.analyzeBarcodes papaParse now csvContent = Success d →
  statistics d = summarize (people_data d) ∧
  ∃ parseResult,
    papaParse (cleanContent csvContent) = inr parseResult ∧
    errors parseResult = [] ∧
    missingColumns Upload.requiredColumns (data parseResult) = [].
Proof.
  intros (parseResult & m & people & Hparse & He & Hm & _ & _ & ->)%upload_success.
  split; [done|]. by exists parseResult.
Qed.

Lemma default_statistics papaParse now csvContent d :
  AnalyzeDefault.analyzeBarcodes papaParse now csvContent = Success d →
  statistics d = summarize (people_data d) ∧
  ∃ parseResult,
    papaParse (cleanContent csvContent) = inr parseResult ∧
    errors parseResult = [] ∧
    missingColumns AnalyzeDefault.requiredColumns (data parseResult) = [].
Proof.
  intros (parseResult & Hparse & He & Hm & ->)%default_success.
  split; [done|]. by exists parseResult.
Qed.

(** What the two routes have in common once the people before the sort are
    known by their keys. *)
Lemma totals_of_keys {P} `{Counted P} (unsorted : list P) (keys : list jsstring)
    (rows : list Row) (d : AnalysisData P) :
  people_data d = sortByCount unsorted →
  statistics d = summarize (people_data d) →
  length unsorted = length (firstSeen (rowKey <$> rows)) →
  Forall (λ p, 1 ≤ countOf p)%nat unsorted →
  sum_list (countOf <$> unsorted) = length rows →
  rows ≠ [] →
  people_data d ≠ [] ∧
  Forall (λ p, 1 ≤ countOf p)%nat (people_data d) ∧
  total_people (statistics d) = length (firstSeen (rowKey <$> rows)) ∧
  total_ranges (statistics d) = length rows ∧
  (1 ≤ total_people (statistics d) ≤ total_ranges (statistics d))%nat.
Proof.
  intros Hpeople Hstats Hlen Hpos Hsum Hrows.
  destruct (summarize_spec (people_data d)) as (Hn & Ht & _).
  rewrite Hstats, Hn, Ht, Hpeople.
  assert (length (sortByCount unsorted) = length unsorted) as Hl
    by apply Permutation_length, sortByCount_perm.
  assert (sum_list (countOf <$> sortByCount unsorted) = length rows) as Hs
    by by rewrite sortByCount_perm.
  assert (1 ≤ length unsorted)%nat as Hone.
  { rewrite Hlen. destruct rows as [|row rows]; [done|]. simpl. lia. }
  assert (Forall (λ p, 1 ≤ countOf p)%nat (sortByCount unsorted)) as Hpos'
    by by rewrite sortByCount_perm.
  split_and!; [|done|congruence|done|lia|].
  - intros Hnil. rewrite Hnil in Hl. simpl in Hl. lia.
  - rewrite <- (length_fmap countOf). apply sum_at_least_length.
    by apply Forall_fmap.
Qed.

(** X14. In a success of either route there is a person at least and every
    person has a scan at least; the number of people is the number of
    distinct keys of the rows and the total is the number of rows. *)
Theorem totals_of_success papaParse now csvContent :
  (∀ d, Upload.analyzeBarcodes papaParse now csvContent = Success d →
     ∃ parseResult,
       papaParse (cleanContent csvContent) = inr parseResult ∧
       people_data d ≠ [] ∧
       Forall (λ p, 1 ≤ countOf p)%nat (people_data d) ∧
       total_people (statistics d) =
         length (firstSeen (rowKey <$> data parseResult)) ∧
       total_ranges (statistics d) = length (data parseResult) ∧
       (1 ≤ total_people (statistics d) ≤ total_ranges (statistics d))%nat) ∧
  (∀ d, AnalyzeDefault.analyzeBarcodes papaParse now csvContent = Success d →
     ∃ parseResult,
       papaParse (cleanContent csvContent) = inr parseResult ∧
       people_data d ≠ [] ∧
       Forall (λ p, 1 ≤ countOf p)%nat (people_data d) ∧
       total_people (statistics d) =
         length (firstSeen (rowKey <$> data parseResult)) ∧
       total_ranges (statistics d) = length (data parseResult) ∧
       (1 ≤ total_people (statistics d) ≤ total_ranges (statistics d))%nat).
Proof.
  split; intros d Hd.
  - destruct (upload_statistics _ _ _ _ Hd) as (Hstats & pr & Hparse' & _ & Hmissing).
    destruct (upload_people _ _ _ _ Hd)
      as (parseResult & unsorted & Hparse & Hpeople & Hkeys & Hcount & Hsum).
    rewrite Hparse in Hparse'. injection Hparse' as <-.
    exists parseResult. split; [done|].
    apply (totals_of_keys unsorted (firstSeen (rowKey <$> data parseResult)));
      [done|done| | |done|].
    + by rewrite <- Hkeys, length_fmap.
    + apply Forall_forall. intros p Hp. rewrite Forall_forall in Hcount.
      rewrite (Hcount p Hp). apply rowsOf_present.
      rewrite <- elem_of_firstSeen, <- Hkeys. by apply list_elem_of_fmap_2.
    + intros Hrows. by rewrite Hrows, missingColumns_empty in Hmissing.
  - destruct (default_statistics _ _ _ _ Hd) as (Hstats & pr & Hparse' & _ & Hmissing).
    destruct (default_people _ _ _ _ Hd)
      as (parseResult & Hparse & Hpeople & Hkeys & Hcount & Hsum).
    rewrite Hparse in Hparse'. injection Hparse' as <-.
    exists parseResult. split; [done|].
    eapply (totals_of_keys _ (firstSeen (rowKey <$> data parseResult)));
      [exact Hpeople|done| | | |].
    + by rewrite length_fmap, <- Hkeys, length_fmap.
    + apply Forall_fmap, Forall_forall. intros [key count] Hin.
      rewrite Forall_forall in Hcount. specialize (Hcount _ Hin). simpl in *.
      unfold countOf, AnalyzeDefault.PersonData_counted. simpl. rewrite Hcount.
      apply rowsOf_present.
      rewrite <- elem_of_firstSeen, <- Hkeys. by apply (list_elem_of_fmap_2 fst) in Hin.
    + by rewrite default_counts.
    + intros Hrows. by rewrite Hrows, missingColumns_empty in Hmissing.
Qed.

Lemma totals_of_success_witness :
  ∃ d e,
    Upload.analyzeBarcodes (parsed tiedRows) [] [] = Success d ∧
    AnalyzeDefault.analyzeBarcodes (parsed tiedRows) [] [] = Success e ∧
    total_people (statistics d) = 3%nat ∧
    total_ranges (statistics e) = 4%nat.
Proof.
  assert (∃ d e,
            Upload.analyzeBarcodes (parsed tiedRows) [] [] = Success d ∧
            AnalyzeDefault.analyzeBarcodes (parsed tiedRows) [] [] = Success e)
    as (d & e & Hd & He).
  { eexists _, _. split; vm_compute; reflexivity. }
  exists d, e.
  destruct (totals_of_success (parsed tiedRows) [] []) as [Hup Hdef].
  destruct (Hup d Hd) as (parseResult & [= <-] & _ & _ & Hpeople & _).
  destruct (Hdef e He) as (parseResult & [= <-] & _ & _ & _ & Hranges & _).
  split_and!; [done|done| |done].
  rewrite Hpeople. by vm_compute.
Defined.

(** ** The two routes on the same rows *)

Lemma default_validated papaParse now csvContent parseResult :
  papaParse (cleanContent csvContent) = inr parseResult →
  errors parseResult = [] →
  missingColumns AnalyzeDefault.requiredColumns (data parseResult) = [] →
  AnalyzeDefault.analyzeBarcodes papaParse now csvContent =
    let peopleData :=
      sortByCount (AnalyzeDefault.toPersonData <$>
                     fold_left AnalyzeDefault.countRow (data parseResult) []) in
    Success {| people_data := peopleData;
               statistics := summarize peopleData;
               filename := js "Taskmaster.csv";
               upload_time := now |}.
Proof.
  intros Hparse Herrors Hmissing. unfold AnalyzeDefault.analyzeBarcodes.
  rewrite Hparse. simpl. by rewrite Herrors, Hmissing.
Qed.

Lemma missing_of_fewer rows :
  missingColumns Upload.requiredColumns rows = [] →
  missingColumns AnalyzeDefault.requiredColumns rows = [].
Proof.
  unfold missingColumns.
  change Upload.requiredColumns
    with (AnalyzeDefault.requiredColumns ++ [js "TimeEntered"]).
  rewrite List.filter_app. by intros [-> _]%app_eq_nil.
Qed.

Lemma counts_of_sorted {P} `{Counted P} (people : list P) :
  countOf <$> sortByCount people =
  stableSort (λ a b : nat, bool_decide (b ≤ a)%nat) (countOf <$> people).
Proof.
  unfold sortByCount, countBefore.
  pose (before := λ a b : nat, bool_decide (b ≤ a)%nat).
  apply (stableSort_fmap countOf before).
Qed.

Lemma summarize_of_counts {P Q} `{Counted P} `{Counted Q}
    (people : list P) (people' : list Q) :
  countOf <$> people = countOf <$> people' → summarize people = summarize people'.
Proof.
  intros Hcounts.
  destruct (summarize_spec people) as (Hn & Ht & Ha).
  destruct (summarize_spec people') as (Hn' & Ht' & Ha').
  assert (length people = length people') as Hlen.
  { by rewrite <- (length_fmap countOf people), Hcounts, length_fmap. }
  rewrite Hcounts, Hlen in *.
  destruct (summarize people), (summarize people'). simpl in *. congruence.
Qed.

(** X15. Rows on which the upload route succeeds make the default route
    succeed as well, with the same counts in the same order and the same
    statistics. *)
Theorem default_agrees_with_upload papaParse now csvContent d :
  Upload.analyzeBarcodes papaParse now csvContent = Success d →
  ∃ e,
    AnalyzeDefault.analyzeBarcodes papaParse now csvContent = Success e ∧
    countOf <$> people_data e = countOf <$> people_data d ∧
    statistics e = statistics d.
Proof.
  intros Hd.
  destruct (upload_statistics _ _ _ _ Hd) as (Hstats & pr & Hparse' & Herrors & Hmissing).
  destruct (upload_people _ _ _ _ Hd)
    as (parseResult & unsorted & Hparse & Hpeople & Hkeys & Hcount & _).
  rewrite Hparse in Hparse'. injection Hparse' as <-.
  apply missing_of_fewer in Hmissing.
  pose proof (default_validated _ now _ _ Hparse Herrors Hmissing) as He.
  destruct (default_people _ _ _ _ He) as (pr & Hparse' & Hpeople' & Hkeys' & Hcount' & _).
  rewrite Hparse in Hparse'. injection Hparse' as <-.
  eexists. split; [exact He|].
  set (personCounts := fold_left AnalyzeDefault.countRow (data parseResult) []) in *.
  assert (countOf <$> (AnalyzeDefault.toPersonData <$> personCounts) =
          countOf <$> unsorted) as Hsame.
  { rewrite default_counts.
    transitivity ((λ key, length (rowsOf key (data parseResult))) <$> personCounts.*1).
    - rewrite <- list_fmap_compose. apply Forall_fmap_ext_1.
      eapply Forall_impl; [exact Hcount'|]. by intros [key count].
    - rewrite Hkeys', <- Hkeys, <- list_fmap_compose. symmetry.
      apply Forall_fmap_ext_1. eapply Forall_impl; [exact Hcount|]. done. }
  cbn zeta. cbn [people_data statistics]. fold personCounts.
  split.
  - by rewrite Hpeople, !counts_of_sorted, Hsame.
  - rewrite Hstats, Hpeople. apply summarize_of_counts.
    by rewrite !counts_of_sorted, Hsame.
Qed.

Lemma default_agrees_with_upload_witness :
  ∃ d e,
    Upload.analyzeBarcodes (parsed tiedRows) [] [] = Success d ∧
    AnalyzeDefault.analyzeBarcodes (parsed tiedRows) [] [] = Success e ∧
    statistics e = statistics d.
Proof.
  assert (∃ d, Upload.analyzeBarcodes (parsed tiedRows) [] [] = Success d)
    as [d Hd] by (eexists; vm_compute; reflexivity).
  destruct (default_agrees_with_upload _ _ _ _ Hd) as (e & He & _ & Hstats).
  exists d, e. split_and!; assumption.
Defined.

(** ** Rows there are none of *)

(** X16. When the parser reports no error and returns no row, either route
    fails and names every required column as missing. *)
Theorem no_rows_all_missing papaParse now csvContent parseResult :
  papaParse (cleanContent csvContent) = inr parseResult →
  errors parseResult = [] →
  data parseResult = [] →
  Upload.analyzeBarcodes papaParse now csvContent =
    Failure (js "Missing required columns: firstname, lastname, BarcodeRangeID, TimeEntered") ∧
  AnalyzeDefault.analyzeBarcodes papaParse now csvContent =
    Failure (js "Missing required columns: firstname, lastname, BarcodeRangeID").
Proof.
  intros Hparse Herrors Hdata. split.
  - rewrite (upload_missing _ _ _ _ Hparse Herrors);
      rewrite Hdata, missingColumns_empty; done.
  - rewrite (default_missing _ _ _ _ Hparse Herrors);
      rewrite Hdata, missingColumns_empty; done.
Qed.

Lemma no_rows_all_missing_witness :
  Upload.analyzeBarcodes (parsed []) [] [] =
    Failure (js "Missing required columns: firstname, lastname, BarcodeRangeID, TimeEntered") ∧
  AnalyzeDefault.analyzeBarcodes (parsed []) [] [] =
    Failure (js "Missing required columns: firstname, lastname, BarcodeRangeID").
Proof.
  by apply (no_rows_all_missing (parsed []) [] [] {| errors := []; data := [] |}).
Defined.

(** ** The handler of the upload route *)

Arguments endsWith : simpl never.

(** X17. The handler of the upload answers [No file provided] without a
    file, and [Invalid file type. Please upload a CSV file.] for a file
    whose name in lower case does not end in [.csv]: whatever the bytes of
    the file, even unreadable, and whatever the parser. A field of text
    where the file should be is reported as [Upload failed]. *)
Theorem upload_rejected_unread papaParse now toLowerCase :
  Upload.POST papaParse now toLowerCase (inr None) =
    inr (Failure (js "No file provided")) ∧
  Upload.POST papaParse now toLowerCase (inr (Some (Upload.TextEntry []))) =
    inr (Failure (js "No file provided")) ∧
  (∀ c text,
     Upload.POST papaParse now toLowerCase (inr (Some (Upload.TextEntry (c :: text)))) =
       inr (Failure (js "Upload failed: Cannot read properties of undefined (reading 'toLowerCase')"))) ∧
  (∀ name arrayBuffer,
     endsWith (js ".csv") (toLowerCase name) = false →
     Upload.POST papaParse now toLowerCase
       (inr (Some (Upload.FileEntry name arrayBuffer))) =
       inr (Failure (js "Invalid file type. Please upload a CSV file."))).
Proof.
  split_and!; [done..|].
  intros name arrayBuffer Hname. unfold Upload.POST. simpl. by rewrite Hname.
Qed.

Lemma upload_rejected_unread_witness :
  Upload.POST (parsed tenSeconds) [] lowerAscii
    (inr (Some (Upload.FileEntry (js "report.txt")
                  (inl (readOfUndefined "arrayBuffer"))))) =
    inr (Failure (js "Invalid file type. Please upload a CSV file.")).
Proof.
  apply (proj2 (proj2 (proj2 (upload_rejected_unread (parsed tenSeconds) [] lowerAscii)))).
  by vm_compute.
Defined.

(** X18. The handler of the upload succeeds exactly for a file that can be
    read, whose name in lower case ends in [.csv] and whose text, decoded
    with the encoding that is detected, is analysed with success; it then
    returns the people and the statistics of that analysis under the name
    of the file. *)
Theorem upload_handler_success papaParse now toLowerCase formData d :
  Upload.POST papaParse now toLowerCase formData = inr (Success d) ↔
  ∃ name buffer analysed,
    formData = inr (Some (Upload.FileEntry name (inr buffer))) ∧
    endsWith (js ".csv") (toLowerCase name) = true ∧
    Upload.analyzeBarcodes papaParse now (toString (detectEncoding buffer) buffer) =
      Success analysed ∧
    d = {| people_data := people_data analysed;
           statistics := statistics analysed;
           filename := name;
           upload_time := now |}.
Proof.
  unfold Upload.POST. split.
  - destruct formData as [e|[[[|c text]|name [e|buffer]]|]]; simpl; try done;
      destruct (endsWith _ _) eqn:Hname; simpl; try done.
    destruct (Upload.analyzeBarcodes _ _ _) as [analysed|error] eqn:Hd; [|done].
    intros [= <-]. exists name, buffer, analysed. split_and!; [done..|].
    by apply upload_success in Hd as (? & ? & ? & _ & _ & _ & _ & _ & ->).
  - intros (name & buffer & analysed & -> & Hname & Hd & ->). simpl.
    rewrite Hname. simpl. rewrite Hd.
    by apply upload_success in Hd as (? & ? & ? & _ & _ & _ & _ & _ & ->).
Qed.

Lemma upload_handler_success_witness :
  ∃ d,
    Upload.POST (parsed tenSeconds) (js "now") lowerAscii
      (inr (Some (Upload.FileEntry (js "Scans.CSV") (inr commaText)))) =
      inr (Success d) ∧
    filename d = js "Scans.CSV".
Proof.
  assert (∃ d, Upload.POST (parsed tenSeconds) (js "now") lowerAscii
                 (inr (Some (Upload.FileEntry (js "Scans.CSV") (inr commaText)))) =
               inr (Success d)) as [d Hd] by (eexists; vm_compute; reflexivity).
  exists d. split; [done|].
  apply upload_handler_success in Hd as (name & buffer & analysed & [= <- <-] & _ & _ & ->).
  done.
Defined.

(** ** Buffers of seven bits *)

Lemma sevenBit_bomless buffer : Forall sevenBit buffer → bomless buffer.
Proof.
  intros Hbits rest. split; intros ->;
    inversion Hbits as [|? ? Hb _]; subst; by vm_compute in Hb.
Qed.

Lemma sevenBit_decodings buffer :
  Forall sevenBit buffer →
  toString utf8 buffer = byteN <$> buffer ∧
  toString latin1 buffer = byteN <$> buffer ∧
  toString ascii buffer = byteN <$> buffer.
Proof.
  intros Hbits. split_and!.
  - change (toString utf8 buffer) with (decodeUtf8 None (byteN <$> buffer)).
    apply decodeUtf8_ascii, Forall_fmap. done.
  - done.
  - change (toString ascii buffer) with ((λ b, N.land (byteN b) 127) <$> buffer).
    apply Forall_fmap_ext_1. eapply Forall_impl; [exact Hbits|].
    intros b Hb. unfold sevenBit in Hb.
    change 127 with (N.ones 7). rewrite N.land_ones. apply N.mod_small. done.
Qed.

(** X19. A buffer of bytes below 128 is never taken for Latin-1 or ASCII:
    the answer is UTF-16LE when the bytes read two by two hold a comma, a
    tab or [firstname], and UTF-8 otherwise, under which the text is the
    bytes themselves. *)
Theorem seven_bits_detected buffer :
  Forall sevenBit buffer →
  (looksLikeCsv (toString utf16le buffer) = true ∧ detectEncoding buffer = utf16le) ∨
  (looksLikeCsv (toString utf16le buffer) = false ∧
   detectEncoding buffer = utf8 ∧
   toString (detectEncoding buffer) buffer = byteN <$> buffer).
Proof.
  intros Hbits.
  destruct (sevenBit_decodings buffer Hbits) as (H8 & H1 & Ha).
  rewrite detectEncoding_bomless by by apply sevenBit_bomless.
  unfold candidates. simpl List.find.
  destruct (looksLikeCsv (toString utf16le buffer)); [by left|right].
  rewrite H8, H1, Ha. split; [done|].
  by destruct (looksLikeCsv (byteN <$> buffer)).
Qed.

Lemma seven_bits_detected_witness :
  detectEncoding commaWide = utf16le ∧ detectEncoding commaText = utf8.
Proof.
  split.
  - destruct (seven_bits_detected commaWide) as [[_ H]|[H _]];
      [repeat constructor; by vm_compute|done|by vm_compute in H].
  - destruct (seven_bits_detected commaText) as [[H _]|(_ & H & _)];
      [repeat constructor; by vm_compute|by vm_compute in H|done].
Defined.

(** ** The dashboard *)

Arguments Dashboard.colors : simpl never.

Lemma colors_lookup (i : nat) :
  is_Some (Dashboard.colors !! (i mod length Dashboard.colors)%nat).
Proof.
  apply lookup_lt_is_Some. apply Nat.mod_upper_bound. done.
Qed.

(** X21. [generateColors] returns as many colours as it is asked for, none
    of them [undefined]: the colour at an index is the one of the palette
    at the index modulo 12, so that the colours come again every 12. *)
Theorem colors_cycle (count : nat) :
  length (Dashboard.generateColors count) = count ∧
  (∀ i : nat, (i < count)%nat →
     ∃ color,
       Dashboard.generateColors count !! i = Some (Some color) ∧
       Dashboard.colors !! (i mod 12)%nat = Some color) ∧
  (∀ i : nat, (i + 12 < count)%nat →
     Dashboard.generateColors count !! (i + 12)%nat =
     Dashboard.generateColors count !! i).
Proof.
  unfold Dashboard.generateColors. split_and!.
  - by rewrite length_fmap, length_seq.
  - intros i Hi. destruct (colors_lookup i) as [color Hcolor].
    exists color. split; [|exact Hcolor].
    rewrite list_lookup_fmap, lookup_seq_lt by done.
    change (0 + i)%nat with i. cbn [fmap option_fmap option_map]. by rewrite Hcolor.
  - intros i Hi. rewrite !list_lookup_fmap, !lookup_seq_lt by lia.
    change (0 + i)%nat with i. change (0 + (i + 12))%nat with (i + 12)%nat.
    cbn [fmap option_fmap option_map]. do 2 f_equal.
    change (length Dashboard.colors) with 12%nat.
    rewrite <- (Nat.Div0.add_mod_idemp_r i 12 12), Nat.Div0.mod_same. f_equal. lia.
Qed.

Lemma performance_at_least c r t :
  (0 < t)%Q →
  Qle_bool c (Qred (Qred (r / t) * 100)) = true ↔ (c * t <= r * 100)%Q.
Proof.
  intros Ht. rewrite Qle_bool_iff, !Qred_correct.
  destruct r as [rn rd], t as [tn td]. unfold Qlt in Ht. simpl in Ht.
  destruct tn as [|tp|tp]; [lia| |lia].
  destruct c as [cn cd]. unfold Qle, Qdiv, Qmult, Qinv. simpl.
  rewrite !Pos2Z.inj_mul. split; intros H; nia.
Qed.

Lemma badge_cases kpi t r :
  Dashboard.target_per_hour kpi = Fin t →
  (0 < t)%Q →
  Dashboard.badge (Some kpi) (Fin r) =
    if Qle_bool 100 (Qred (Qred (r / t) * 100)) then Dashboard.Green
    else if Qle_bool 80 (Qred (Qred (r / t) * 100)) then Dashboard.Yellow
    else Dashboard.Red.
Proof.
  intros Htarget Ht. unfold Dashboard.badge, Dashboard.performance. rewrite Htarget.
  assert (Qle_bool t 0 = false) as Hpos.
  { apply not_true_is_false. intros Hle%Qle_bool_iff. by apply Qle_not_lt in Hle. }
  assert (qzero t = false) as Hnz.
  { unfold qzero. apply Z.eqb_neq. unfold Qlt in Ht. simpl in Ht. lia. }
  simpl. rewrite Hpos. simpl. by rewrite Hnz.
Qed.



(** X23. A target that is set for a person is the one found for that
    person and changes nothing for the others; a target that is deleted is
    not found any more and leaves a dash for a badge; a target set where
    none was and deleted again leaves the targets as they were. *)
Theorem kpi_set_and_deleted (kpiData : gmap (list N) Dashboard.KPIData) kpi personId rate :
  Dashboard.addOrUpdateKpi kpiData kpi !! Dashboard.id kpi = Some kpi ∧
  (personId ≠ Dashboard.id kpi →
   Dashboard.addOrUpdateKpi kpiData kpi !! personId = kpiData !! personId ∧
   Dashboard.deleteKpi kpiData (Dashboard.id kpi) !! personId = kpiData !! personId) ∧
  Dashboard.deleteKpi (Dashboard.addOrUpdateKpi kpiData kpi) (Dashboard.id kpi)
    !! Dashboard.id kpi = None ∧
  Dashboard.badge
    (Dashboard.deleteKpi (Dashboard.addOrUpdateKpi kpiData kpi) (Dashboard.id kpi)
       !! Dashboard.id kpi) rate = Dashboard.Dash ∧
  (kpiData !! Dashboard.id kpi = None →
   Dashboard.deleteKpi (Dashboard.addOrUpdateKpi kpiData kpi) (Dashboard.id kpi) = kpiData).
Proof.
  unfold Dashboard.addOrUpdateKpi, Dashboard.deleteKpi. split_and!.
  - apply lookup_insert_eq.
  - intros Hne. split; [by apply lookup_insert_ne|by apply lookup_delete_ne].
  - apply lookup_delete_eq.
  - by rewrite lookup_delete_eq.
  - intros Hnone. rewrite delete_insert_eq. by apply delete_id.
Qed.

Lemma kpi_set_and_deleted_witness :
  let kpi := {| Dashboard.id := js "ann_lee"; Dashboard.kpi_firstname := js "ann";
                Dashboard.kpi_lastname := js "lee";
                Dashboard.target_per_hour := Fin 50 |} in
  Dashboard.badge (Dashboard.addOrUpdateKpi ∅ kpi !! js "ann_lee") (Fin 55) =
    Dashboard.Green ∧
  Dashboard.deleteKpi (Dashboard.addOrUpdateKpi ∅ kpi) (js "ann_lee") = ∅.
Proof.
  intros kpi.
  destruct (kpi_set_and_deleted ∅ kpi (js "bob_ray") (Fin 55)) as (Hset & _ & _ & _ & Hback).
  split.
  - change (js "ann_lee") with (Dashboard.id kpi). by rewrite Hset.
  - by apply Hback.
Defined.

(** ** Times short of a field *)

(** X24. A time with fewer than three fields between colons, before its
    first point, is read as NaN: the seconds are [undefined]. *)
Theorem short_time_is_NaN str :
  (length (split 58 (default [] (head (split 46 str)))) < 3)%nat →
  parseTimeToMinutes (Some str) = inr NaN.
Proof.
  intros Hshort. unfold parseTimeToMinutes.
  set (fields := Number <$> split 58 (default [] (head (split 46 str)))).
  assert (fields !! 2%nat = None) as Hseconds.
  { apply lookup_ge_None. unfold fields. rewrite length_fmap. lia. }
  cbv zeta. rewrite Hseconds. simpl.
  by destruct (nadd (nmul _ _) _).
Qed.

Lemma short_time_is_NaN_witness :
  parseTimeToMinutes (Some (js "09:10")) = inr NaN.
Proof. apply short_time_is_NaN. by vm_compute. Defined.

(** ** The names of the default route, piece by piece *)

Lemma split_app sep a b :
  split sep (a ++ sep :: b) = split sep a ++ split sep b.
Proof.
  induction a as [|c a IH]; simpl.
  - by rewrite N.eqb_refl.
  - destruct (c =? sep); [by rewrite IH|].
    rewrite IH. destruct (split sep a) as [|f fs] eqn:Hs; [|done].
    pose proof (split_length sep a) as Hlen. by rewrite Hs in Hlen.
Qed.

Lemma split_nonempty sep s : ∃ f fs, split sep s = f :: fs.
Proof.
  pose proof (split_length sep s) as Hlen.
  destruct (split sep s) as [|f fs]; [done|by eexists _, _].
Qed.

(** X25. In a success of the default route both names of every person are
    strings, and they are the first two of the pieces, cut at the
    underscores, of the first name and then of the last name of a row: the
    first name of the person is the first name of the row up to its first
    underscore. *)
Theorem names_are_pieces papaParse now csvContent d p :
  AnalyzeDefault.analyzeBarcodes papaParse now csvContent = Success d →
  p ∈ people_data d →
  ∃ parseResult (row : Row) first second,
    papaParse (cleanContent csvContent) = inr parseResult ∧
    row ∈ data parseResult ∧
    AnalyzeDefault.firstname p = Some first ∧
    AnalyzeDefault.lastname p = Some second ∧
    head (split 95 (tmpl (row !! js "firstname"))) = Some first ∧
    (split 95 (tmpl (row !! js "firstname")) ++
     split 95 (tmpl (row !! js "lastname"))) !! 1%nat = Some second.
Proof.
  intros (parseResult & Hparse & Hpeople & Hkeys & _)%default_people Hp.
  rewrite Hpeople, sortByCount_perm in Hp.
  apply list_elem_of_fmap in Hp as ([key count] & -> & Hin).
  assert (key ∈ rowKey <$> data parseResult) as (row & -> & Hrow)%list_elem_of_fmap.
  { rewrite <- elem_of_firstSeen, <- Hkeys. by apply (list_elem_of_fmap_2 fst) in Hin. }
  unfold AnalyzeDefault.toPersonData, rowKey. cbn [AnalyzeDefault.firstname
    AnalyzeDefault.lastname]. change (js "_") with [95]. simpl app.
  rewrite split_app.
  destruct (split_nonempty 95 (tmpl (row !! js "firstname"))) as (f & fs & Hf).
  destruct (split_nonempty 95 (tmpl (row !! js "lastname"))) as (l & ls & Hl).
  rewrite Hf, Hl.
  destruct fs as [|f' fs].
  - exists parseResult, row, f, l. rewrite Hf, Hl. by split_and!.
  - exists parseResult, row, f, f'. rewrite Hf, Hl. by split_and!.
Qed.

Lemma names_are_pieces_witness :
  ∃ d p,
    AnalyzeDefault.analyzeBarcodes (parsed underscored) [] [] = Success d ∧
    p ∈ people_data d ∧
    AnalyzeDefault.firstname p = Some (js "a") ∧
    AnalyzeDefault.lastname p = Some (js "b").
Proof.
  assert (∃ d p,
            AnalyzeDefault.analyzeBarcodes (parsed underscored) [] [] = Success d ∧
            p ∈ people_data d ∧
            AnalyzeDefault.firstname p = Some (js "a") ∧
            AnalyzeDefault.lastname p = Some (js "b"))
    as (d & p & Hd & Hp & Hf & Hl).
  { eexists _, _. split_and!;
      [vm_compute; reflexivity|apply list_elem_of_here|reflexivity..]. }
  destruct (names_are_pieces _ _ _ _ _ Hd Hp) as (_ & _ & first & second & _ & _ & Hf' & Hl' & _).
  exists d, p. split_and!; [assumption..| |]; congruence.
Defined.

(** * Properties in the arithmetic of doubles *)

(** ** The rounding to a double *)

(** [|x|] as [x] or [- x]. *)
Ltac unabs x :=
  let H := fresh "Hsign" in
  let Ha := fresh "Habs" in
  destruct (Qlt_le_dec x 0) as [H|H];
    [pose proof (Qabs_neg x (Qlt_le_weak _ _ H)) as Ha
    |pose proof (Qabs_pos x H) as Ha];
  generalize dependent (Qabs x); intros.

(** The constants of the error bounds as numerals and as small unknowns. *)
Ltac constants :=
  let u := eval vm_compute in (2 ^ (-53))%Q in change (2 ^ (-53))%Q with u in *;
  let v := eval vm_compute in (2 ^ (-50))%Q in change (2 ^ (-50))%Q with v in *;
  assert (0 < 2 ^ (-1075) ∧ 2 ^ (-1075) <= 2 ^ (-1074) ∧
          2 ^ (-1074) <= 1 # 1267650600228229401496703205376)%Q
    by (split_and!; apply Qlt_alt || apply Qle_bool_imp_le; vm_compute; reflexivity);
  generalize dependent (2 ^ (-1074))%Q; generalize dependent (2 ^ (-1075))%Q; intros.

Section Binary64Facts.
Local Open Scope Q_scope.

Lemma two_power_pos e : 0 < 2 ^ e.
Proof. by apply Qpower_0_lt. Qed.

Lemma two_power_succ e : 2 ^ (e + 1) == 2 * 2 ^ e.
Proof. rewrite Qpower_plus by done. change (2 ^ 1) with 2. ring. Qed.

Lemma two_power_Z (n : Z) : (0 ≤ n)%Z → inject_Z (2 ^ n) == 2 ^ n.
Proof. intros Hn. by rewrite Zpower_Qpower. Qed.

Lemma exponent_spec q :
  ¬ q == 0 → 2 ^ Binary64.exponent q <= Qabs q < 2 ^ (Binary64.exponent q + 1).
Proof.
  intros Hq. unfold Binary64.exponent.
  destruct q as [n d]. cbn [Qnum Qden Qabs].
  assert (0 < Z.abs n)%Z as Hn.
  { destruct (decide (n = 0%Z)) as [->|]; [|lia]. by destruct Hq. }
  destruct (Z.log2_spec (Z.abs n) Hn) as [Hn1 Hn2].
  destruct (Z.log2_spec (Z.pos d) ltac:(lia)) as [Hd1 Hd2].
  pose proof (Z.log2_nonneg (Z.abs n)) as Hln.
  pose proof (Z.log2_nonneg (Z.pos d)) as Hld.
  set (ln := Z.log2 (Z.abs n)) in *. set (ld := Z.log2 (Z.pos d)) in *.
  assert (2 ^ ln <= inject_Z (Z.abs n)) as Hn1'.
  { rewrite <- two_power_Z by done. by rewrite <- Zle_Qle. }
  assert (inject_Z (Z.abs n) < 2 * 2 ^ ln) as Hn2'.
  { rewrite <- two_power_succ, <- two_power_Z by lia. by rewrite <- Zlt_Qlt. }
  assert (2 ^ ld <= inject_Z (Z.pos d)) as Hd1'.
  { rewrite <- two_power_Z by done. by rewrite <- Zle_Qle. }
  assert (inject_Z (Z.pos d) < 2 * 2 ^ ld) as Hd2'.
  { rewrite <- two_power_succ, <- two_power_Z by lia. by rewrite <- Zlt_Qlt. }
  pose proof (two_power_pos ln) as Hpn. pose proof (two_power_pos ld) as Hpd.
  assert (2 ^ (ln - ld) * 2 ^ ld == 2 ^ ln) as Hdiff.
  { rewrite <- Qpower_plus by done. by replace (ln - ld + ld)%Z with ln by lia. }
  assert (2 ^ (ln - ld - 1) * 2 == 2 ^ (ln - ld)) as Hpred.
  { transitivity (2 ^ (ln - ld - 1 + 1)); [rewrite two_power_succ; ring|].
    by replace (ln - ld - 1 + 1)%Z with (ln - ld)%Z by lia. }
  pose proof (two_power_pos (ln - ld)) as Hp. pose proof (two_power_pos (ln - ld - 1)) as Hp'.
  assert (Z.abs n # d == inject_Z (Z.abs n) / inject_Z (Z.pos d)) as Hq' by apply Qmake_Qdiv.
  assert (0 < inject_Z (Z.pos d)) as Hdpos by (by rewrite <- (Zlt_Qlt 0)).
  set (a := inject_Z (Z.abs n)) in *. set (b := inject_Z (Z.pos d)) in *.
  assert (∀ x, x * b <= a → x <= Z.abs n # d) as Hle.
  { intros x Hx. rewrite Hq'. by apply Qle_shift_div_l. }
  assert (∀ x, a < x * b → Z.abs n # d < x) as Hlt.
  { intros x Hx. rewrite Hq'. by apply Qlt_shift_div_r. }
  destruct (Qle_bool _ _) eqn:Htest.
  - apply Qle_bool_iff in Htest. split; [done|].
    apply Hlt. rewrite two_power_succ. nra.
  - assert (¬ 2 ^ (ln - ld) <= Z.abs n # d) as Hnot.
    { intros H. apply Qle_bool_iff in H. congruence. }
    apply Qnot_le_lt in Hnot. split.
    + apply Hle. nra.
    + by replace (ln - ld - 1 + 1)%Z with (ln - ld)%Z by lia.
Qed.


Lemma Zlt_of_Q a b : inject_Z a < inject_Z b → (a < b)%Z.
Proof. by rewrite <- Zlt_Qlt. Qed.

Lemma Zle_of_Q a b : inject_Z a <= inject_Z b → (a ≤ b)%Z.
Proof. by rewrite <- Zle_Qle. Qed.

Lemma Zle_to_Q a b : (a ≤ b)%Z → inject_Z a <= inject_Z b.
Proof. by rewrite <- Zle_Qle. Qed.

Lemma Zlt_to_Q a b : (a < b)%Z → inject_Z a < inject_Z b.
Proof. by rewrite <- Zlt_Qlt. Qed.

Lemma nearestEven_error q : Qabs (inject_Z (Binary64.nearestEven q) - q) <= 1 # 2.
Proof.
  unfold Binary64.nearestEven.
  pose proof (Qfloor_le q) as Hle. pose proof (Qlt_floor q) as Hlt.
  rewrite inject_Z_plus in Hlt. change (inject_Z 1) with 1 in Hlt.
  apply Qabs_Qle_condition.
  destruct (Qcompare_spec (q - inject_Z (Qfloor q)) (1 # 2)) as [H|H|H];
    [destruct (Z.even _)|..];
    rewrite ?inject_Z_plus; change (inject_Z 1) with 1; split; lra.
Qed.

Lemma nearestEven_integer q z : q == inject_Z z → Binary64.nearestEven q = z.
Proof.
  intros Hq. unfold Binary64.nearestEven.
  assert (Qfloor q = z) as -> by (rewrite <- (Qfloor_Z z); by apply Qfloor_comp).
  destruct (Qcompare_spec (q - inject_Z z) (1 # 2)) as [H|H|H]; [lra|done|lra].
Qed.

Lemma nearestEven_sign q :
  (0 <= q → (0 ≤ Binary64.nearestEven q)%Z) ∧ (q <= 0 → (Binary64.nearestEven q ≤ 0)%Z).
Proof.
  unfold Binary64.nearestEven.
  pose proof (Qfloor_le q) as Hle. pose proof (Qlt_floor q) as Hlt.
  rewrite inject_Z_plus in Hlt. change (inject_Z 1) with 1 in Hlt.
  split; intros Hq.
  - assert (0 ≤ Qfloor q)%Z as Hf.
    { apply Z.lt_succ_r, Zlt_of_Q. unfold Z.succ. rewrite inject_Z_plus.
      change (inject_Z 1) with 1. change (inject_Z 0) with 0. lra. }
    destruct (_ ?= _); [destruct (Z.even _)|..]; lia.
  - assert (Qfloor q ≤ 0)%Z as Hf.
    { apply Zle_of_Q. change (inject_Z 0) with 0. lra. }
    destruct (Qcompare_spec (q - inject_Z (Qfloor q)) (1 # 2)) as [H|H|H];
      [destruct (Z.even _)|..]; try done;
      apply Z.lt_succ_r, Zlt_of_Q; unfold Z.succ; rewrite !inject_Z_plus;
      change (inject_Z 1) with 1; change (inject_Z 0) with 0; lra.
Qed.

Lemma qpos_Qred q : qpos (Qred q) = true ↔ 0 < q.
Proof.
  rewrite <- (Qred_correct q) at 2. unfold qpos. destruct (Qred q) as [n d].
  rewrite Z.ltb_lt. unfold Qlt. simpl. lia.
Qed.

Lemma qzero_spec q : qzero q = true ↔ q == 0.
Proof. unfold qzero, Qeq. rewrite Z.eqb_eq. simpl. lia. Qed.

Lemma round_comp q q' : q == q' → Binary64.round q = Binary64.round q'.
Proof. intros H. unfold Binary64.round. by rewrite (Qred_complete _ _ H). Qed.

(** The rounding to a double: the error is half a unit in the last place. *)
Lemma round_cases q :
  ∃ r,
    Qabs (r - q) <= 2 ^ (-53) * Qabs q + 2 ^ (-1075) ∧
    (0 <= q → 0 <= r) ∧ (q <= 0 → r <= 0) ∧
    ((2 ^ 1024 <= Qabs r ∧
      ((0 < q ∧ Binary64.round q = PInf) ∨ (q < 0 ∧ Binary64.round q = NInf))) ∨
     (Qabs r < 2 ^ 1024 ∧ Binary64.round q = Fin r)).
Proof.
  unfold Binary64.round.
  pose proof (qpos_Qred q) as Hsign.
  pose proof (Qred_correct q) as Hq. set (q' := Qred q) in *.
  set (e := (Z.max (Binary64.exponent q') (-1022) - 52)%Z).
  pose proof (two_power_pos e) as Hulp. set (ulp := 2 ^ e) in *.
  pose proof (nearestEven_error (q' / ulp)) as Herr.
  destruct (nearestEven_sign (q' / ulp)) as [Hpos Hneg].
  assert (q' == 0 → Binary64.nearestEven (q' / ulp) = 0%Z) as Hzero.
  { intros H0. apply nearestEven_integer. rewrite H0. change (inject_Z 0) with 0. field. lra. }
  set (m := Binary64.nearestEven (q' / ulp)) in *.
  assert (q' / ulp * ulp == q') as Hx by (field; lra).
  set (x := q' / ulp) in *.
  apply Qabs_Qle_condition in Herr as [Herr1 Herr2].
  assert (0 <= q → 0 <= inject_Z m * ulp) as Hpos'.
  { intros H0. assert (0 <= x) as H1 by (apply Qle_shift_div_l; lra).
    apply Hpos, Zle_to_Q in H1. change (inject_Z 0) with 0 in H1. nra. }
  assert (q <= 0 → inject_Z m * ulp <= 0) as Hneg'.
  { intros H0. assert (x <= 0) as H1 by (apply Qle_shift_div_r; lra).
    apply Hneg, Zle_to_Q in H1. change (inject_Z 0) with 0 in H1. nra. }
  assert (Qabs (inject_Z m * ulp - q) <= ulp * (1 # 2)) as Hhalf.
  { apply Qabs_Qle_condition. split; nra. }
  pose proof (two_power_pos (-53)) as Hc53. pose proof (two_power_pos (-1075)) as Hc1075.
  assert (Qabs (inject_Z m * ulp - q) <= 2 ^ (-53) * Qabs q + 2 ^ (-1075)) as Hbound.
  { pose proof (Qabs_nonneg q) as Hnn.
    destruct (Qeq_dec q' 0) as [H0|H0].
    - rewrite (Hzero H0). rewrite <- Hq, H0. change (inject_Z 0 * ulp - 0) with (0 * ulp - 0).
      assert (0 * ulp - 0 == 0) as -> by ring. change (Qabs 0) with 0.
      set (c := 2 ^ (-53)) in *. set (t := 2 ^ (-1075)) in *. lra.
    - apply (Qle_trans _ _ _ Hhalf).
      destruct (exponent_spec q' H0) as [Hex _].
      assert (Qabs q' == Qabs q) as Habs by (by apply Qabs_wd). rewrite Habs in Hex.
      unfold ulp, e. destruct (Z.max_spec (Binary64.exponent q') (-1022)) as [[Hlt ->]|[Hle ->]].
      + change (2 ^ (-1022 - 52) * (1 # 2)) with (2 ^ (-1075)).
        assert (0 <= 2 ^ (-53) * Qabs q) by (apply Qmult_le_0_compat; [lra|done]). lra.
      + replace (Binary64.exponent q' - 52)%Z with (Binary64.exponent q' + -52)%Z by lia.
        rewrite Qpower_plus by done.
        assert (2 ^ (-52) * (1 # 2) == 2 ^ (-53)) as Hc by reflexivity.
        set (c := 2 ^ (-53)) in *. set (t := 2 ^ (-1075)) in *.
        set (p := 2 ^ Binary64.exponent q') in *. set (c' := 2 ^ (-52)) in *.
        nra. }
  pose proof (Qred_correct (inject_Z m * ulp)) as Hr.
  assert (Qabs (Qred (inject_Z m * ulp)) == Qabs (inject_Z m * ulp)) as Habs
    by (by apply Qabs_wd).
  set (r := inject_Z m * ulp) in *.
  destruct (Qle_bool (2 ^ 1024) (Qabs r)) eqn:Htest; exists (Qred r).
  - apply Qle_bool_iff in Htest.
    split_and!.
    + assert (Qabs (Qred r - q) == Qabs (r - q)) as -> by (apply Qabs_wd; lra). done.
    + intros H. specialize (Hpos' H). lra.
    + intros H. specialize (Hneg' H). lra.
    + left. split; [lra|].
      destruct (Qlt_le_dec 0 q) as [H0|H0].
      * left. split; [done|]. by rewrite (proj2 Hsign H0).
      * right. assert (qpos q' = false) as ->.
        { apply not_true_is_false. rewrite Hsign. lra. }
        split; [|done]. apply Qnot_le_lt. intros H1.
        assert (r == 0) as Hr0 by (specialize (Hpos' H1); specialize (Hneg' H0); lra).
        assert (Qabs r == 0) as Hr1 by (by rewrite (Qabs_wd _ _ Hr0)).
        pose proof (two_power_pos 1024). lra.
  - split_and!.
    + assert (Qabs (Qred r - q) == Qabs (r - q)) as -> by (apply Qabs_wd; lra). done.
    + intros H. specialize (Hpos' H). lra.
    + intros H. specialize (Hneg' H). lra.
    + right. split; [|done]. rewrite Habs. apply Qnot_le_lt. intros H.
      apply Qle_bool_iff in H. congruence.
Qed.

Lemma round_finite q :
  Qabs q <= 2 ^ 1023 →
  ∃ r, Binary64.round q = Fin r ∧
       Qabs (r - q) <= 2 ^ (-53) * Qabs q + 2 ^ (-1075) ∧
       (0 <= q → 0 <= r) ∧ (q <= 0 → r <= 0).
Proof.
  intros Hq. destruct (round_cases q) as (r & Herr & Hpos & Hneg & [[Hr _]|[_ Hr]]).
  - exfalso.
    assert (2 ^ 1024 == 2 * 2 ^ 1023) as Hdouble by reflexivity.
    assert (8 <= 2 ^ 1023) as Hbig by (apply Qle_bool_imp_le; vm_compute; reflexivity).
    assert (2 ^ (-1075) <= 1) as Htiny by (apply Qle_bool_imp_le; vm_compute; reflexivity).
    revert Herr. let v := eval vm_compute in (2 ^ (-53)) in change (2 ^ (-53)) with v.
    intros Herr.
    generalize dependent (2 ^ 1024). generalize dependent (2 ^ 1023).
    generalize dependent (2 ^ (-1075)). intros.
    unabs (r - q); unabs q; unabs r; lra.
  - by exists r.
Qed.

(** What [round] returns is a double: a mantissa of at most 53 bits at an
    exponent from -1074 on. *)
Lemma round_is_a_double q r :
  Binary64.round q = Fin r →
  ∃ m e : Z, r == inject_Z m * 2 ^ e ∧ (Z.abs m ≤ 2 ^ 53)%Z ∧ (-1074 ≤ e)%Z.
Proof.
  unfold Binary64.round. set (q' := Qred q).
  set (e := (Z.max (Binary64.exponent q') (-1022) - 52)%Z).
  pose proof (two_power_pos e) as Hulp.
  destruct (Qle_bool _ _); [by destruct (qpos q')|]. intros [= <-].
  exists (Binary64.nearestEven (q' / 2 ^ e)), e. split_and!; [apply Qred_correct| |lia].
  pose proof (nearestEven_error (q' / 2 ^ e)) as Herr.
  set (m := Binary64.nearestEven (q' / 2 ^ e)) in *.
  assert (Qabs (q' / 2 ^ e) <= 2 ^ 53) as Hx.
  { destruct (Qeq_dec q' 0) as [H0|H0].
    - assert (q' / 2 ^ e == 0) as Hz by (rewrite H0; field; lra).
      rewrite (Qabs_wd _ _ Hz). by apply Qlt_le_weak, two_power_pos.
    - destruct (exponent_spec q' H0) as [_ Hex].
      assert (2 ^ (Binary64.exponent q' + 1) <= 2 ^ (e + 53)) as Hle
        by (apply Qpower_le_compat_l; [lia|done]).
      rewrite (Qpower_plus 2 e 53) in Hle by done.
      unfold Qdiv. rewrite Qabs_Qmult, Qabs_Qinv, (Qabs_pos (2 ^ e)) by lra.
      apply Qle_shift_div_r; [done|].
      change (2 ^ 53) with 9007199254740992 in *. lra. }
  apply Z.abs_le. change (2 ^ 53)%Z with 9007199254740992%Z.
  apply Qabs_Qle_condition in Herr as [H1 H2].
  change (2 ^ 53) with 9007199254740992 in Hx.
  apply Qabs_Qle_condition in Hx as [H3 H4].
  split; apply Z.lt_succ_r, Zlt_of_Q; unfold Z.succ; rewrite ?inject_Z_plus, ?inject_Z_opp;
    change (inject_Z 1) with 1; change (inject_Z 9007199254740992) with 9007199254740992;
    generalize dependent (q' / 2 ^ e); intros; lra.
Qed.

(** Values of [round] at doubles that are known. *)
Example round_samples :
  Binary64.round (1 # 10) = Fin (3602879701896397 # 36028797018963968) ∧
  Binary64.round (2 ^ 1024) = PInf ∧
  Binary64.round (2 ^ 1024 - 2 ^ 970 - 1) = Fin (2 ^ 1024 - 2 ^ 971) ∧
  Binary64.round (2 ^ (-1075)) = Fin 0 ∧
  Binary64.round (3 * 2 ^ (-1075)) = Fin (2 ^ (-1073)).
Proof. split_and!; vm_compute; reflexivity. Qed.
Lemma Qred_inject_Z n : Qred (inject_Z n) = inject_Z n.
Proof.
  pose proof (Qred_correct (inject_Z n)) as Heq. pose proof (gcd_Qred (inject_Z n)) as Hgcd.
  destruct (Qred (inject_Z n)) as [a b]. unfold Qeq in Heq. simpl in *.
  assert (Z.pos b = 1)%Z as Hb.
  { apply Z.divide_1_r_nonneg; [lia|]. rewrite <- Hgcd.
    apply Z.gcd_greatest; [|apply Z.divide_refl]. exists n. lia. }
  injection Hb as ->. unfold inject_Z. f_equal. lia.
Qed.

(** An integer of at most 53 bits is a double. *)
Lemma round_integer n : (Z.abs n < 2 ^ 53)%Z → Binary64.round (inject_Z n) = Fin (inject_Z n).
Proof.
  intros Hn. destruct (decide (n = 0%Z)) as [->|Hn0]; [by vm_compute|].
  unfold Binary64.round. rewrite Qred_inject_Z.
  assert (¬ inject_Z n == 0) as Hq.
  { unfold Qeq. simpl. lia. }
  destruct (exponent_spec _ Hq) as [Hex _].
  assert (Qabs (inject_Z n) == inject_Z (Z.abs n)) as Habs by reflexivity.
  assert (Binary64.exponent (inject_Z n) < 53)%Z as Hlt.
  { apply (Qpower_lt_compat_l_inv 2); [|done].
    apply (Qle_lt_trans _ _ _ Hex). rewrite Habs, <- two_power_Z by done.
    by apply Zlt_to_Q. }
  set (e := (Z.max (Binary64.exponent (inject_Z n)) (-1022) - 52)%Z).
  assert (e ≤ 0)%Z as He by lia.
  pose proof (two_power_pos e) as Hulp.
  assert (2 ^ e * inject_Z (2 ^ (- e)) == 1) as Hinv.
  { rewrite two_power_Z by lia. rewrite <- Qpower_plus by done.
    by replace (e + - e)%Z with 0%Z by lia. }
  assert (/ 2 ^ e == inject_Z (2 ^ (- e))) as Hinv'.
  { apply (Qmult_inj_l _ _ (2 ^ e)); [lra|]. rewrite Qmult_inv_r by lra. by rewrite Hinv. }
  assert (inject_Z n / 2 ^ e == inject_Z (n * 2 ^ (- e))) as Hm.
  { rewrite inject_Z_mult. unfold Qdiv. by rewrite Hinv'. }
  rewrite (nearestEven_integer _ _ Hm).
  assert (inject_Z (n * 2 ^ (- e)) * 2 ^ e == inject_Z n) as Hr.
  { rewrite inject_Z_mult, <- Qmult_assoc, (Qmult_comm _ (2 ^ e)), Hinv. ring. }
  rewrite (Qred_complete _ _ Hr), Qred_inject_Z.
  assert (Qle_bool (2 ^ 1024) (Qabs (inject_Z (n * 2 ^ (- e)) * 2 ^ e)) = false) as ->; [|done].
  apply not_true_is_false. rewrite Qle_bool_iff. intros H.
  rewrite (Qabs_wd _ _ Hr), Habs in H.
  assert (inject_Z (Z.abs n) < 2 ^ 53) as H53.
  { rewrite <- two_power_Z by done. by apply Zlt_to_Q. }
  assert (2 ^ 53 < 2 ^ 1024) by (by apply Qpower_lt_compat_l).
  lra.
Qed.

Lemma mul_100 x : Binary64.mul (Fin x) (Fin 100) = Binary64.round (x * 100).
Proof. apply round_comp, Qred_correct. Qed.

Lemma div_100 k : Binary64.div (Fin (inject_Z k)) (Fin 100) = Binary64.round (k # 100).
Proof.
  apply round_comp. rewrite Qred_correct. symmetry. apply Qmake_Qdiv.
Qed.

(** [Math.round(x * 100) / 100] on a double: the hundredth of the integer
    next to the product, unless the product is out of range. *)
Lemma round2_cases x :
  match Binary64.round (x * 100) with
  | Fin y => Binary64.round2 (Fin x) = Binary64.round (Qfloor (y + (1 # 2)) # 100)
  | other => Binary64.round2 (Fin x) = other
  end.
Proof.
  unfold Binary64.round2. rewrite mul_100.
  destruct (Binary64.round (x * 100)); try done. apply div_100.
Qed.

Lemma floor_half y :
  inject_Z (Qfloor (y + (1 # 2))) - (1 # 2) <= y < inject_Z (Qfloor (y + (1 # 2))) + (1 # 2).
Proof.
  pose proof (Qfloor_le (y + (1 # 2))) as Hle. pose proof (Qlt_floor (y + (1 # 2))) as Hlt.
  rewrite inject_Z_plus in Hlt. change (inject_Z 1) with 1 in Hlt. lra.
Qed.

Lemma hundredth_value k : (k # 100) == inject_Z k * (1 # 100).
Proof. apply Qmake_Qdiv. Qed.


Lemma round2_of_approximation t x :
  Qabs (x - t) <= 3 * 2 ^ (-53) * Qabs t + 2 ^ (-1074) →
  Binary64.round2 (Fin x) = PInf ∨ Binary64.round2 (Fin x) = NInf ∨
  roundedToHundredths (2 ^ (-50)) t (Binary64.round2 (Fin x)).
Proof.
  intros Hx. pose proof (round2_cases x) as Hcases.
  destruct (round_cases (x * 100)) as (y & Herr & _ & _ & [[_ [[_ Hy]|[_ Hy]]]|[_ Hy]]);
    rewrite Hy in Hcases; [by left|by right; left|].
  right; right. exists (Qfloor (y + (1 # 2))). split; [done|].
  rewrite hundredth_value. pose proof (floor_half y) as Hk.
  set (k := Qfloor (y + (1 # 2))) in *. clearbody k. clear Hy Hcases.
  constants.
  destruct (Qlt_le_dec (1 # 400) (Qabs t)) as [Hbig|Hsmall].
  - unabs (x - t); unabs (y - x * 100); unabs (x * 100); unabs t;
      unabs (inject_Z k * (1 # 100) - t); lra.
  - assert (k = 0%Z) as ->.
    { assert (inject_Z (-1) < inject_Z k < inject_Z 1) as [H1 H2].
      { change (inject_Z (-1)) with (-1). change (inject_Z 1) with 1.
        unabs (x - t); unabs (y - x * 100); unabs (x * 100); unabs t; lra. }
      apply Zlt_of_Q in H1, H2. lia. }
    change (inject_Z 0 * (1 # 100)) with (0 * (1 # 100)).
    unabs t; unabs (0 * (1 # 100) - t); lra.
Qed.

Lemma round2_zero : Binary64.round2 (Fin 0) = Fin 0.
Proof. by vm_compute. Qed.

Lemma round2_PInf : Binary64.round2 PInf = PInf.
Proof. by vm_compute. Qed.

(** The count as a double: itself below [2^53], and next to it above. *)
Lemma ofNat_cases (n : nat) :
  let c := inject_Z (Z.of_nat n) in
  Binary64.ofNat n = PInf ∨
  ∃ c', Binary64.ofNat n = Fin c' ∧ 0 <= c' ∧
        Qabs (c' - c) <= (3 # 2) * 2 ^ (-53) * c ∧
        ((Z.of_nat n < 2 ^ 53)%Z → c' = c).
Proof.
  intros c. assert (Binary64.ofNat n = Binary64.round c) as -> by done.
  assert (0 <= c) as Hc by (apply (Zle_to_Q 0); lia).
  destruct (decide (Z.of_nat n < 2 ^ 53)%Z) as [Hn|Hn].
  - right. exists c. unfold c at 1. rewrite round_integer by lia.
    split_and!; [done..| |done].
    assert (c - c == 0) as Hz by ring. rewrite (Qabs_wd _ _ Hz). change (Qabs 0) with 0.
    constants. lra.
  - assert (inject_Z (2 ^ 53) <= c) as Hbig by (apply Zle_to_Q; lia).
    change (inject_Z (2 ^ 53)) with 9007199254740992 in Hbig.
    destruct (round_cases c) as (c' & Herr & Hpos & _ & [[_ [[_ Hr]|[Hneg _]]]|[_ Hr]]);
      [by left|lra|].
    right. exists c'. split_and!; [done|by apply Hpos| |lia].
    constants. unabs c; unabs (c' - c); lra.
Qed.

Lemma round2_not_negative x :
  0 <= x →
  Binary64.round2 (Fin x) = PInf ∨ ∃ r, Binary64.round2 (Fin x) = Fin r ∧ 0 <= r.
Proof.
  intros Hx. pose proof (round2_cases x) as Hcases.
  destruct (round_cases (x * 100)) as (y & _ & Hy0 & _ & [[_ [[_ Hy]|[Hneg _]]]|[_ Hy]]);
    rewrite ?Hy in Hcases; [by left|lra|].
  rewrite Hcases.
  assert (0 ≤ Qfloor (y + (1 # 2)))%Z as Hk.
  { change 0%Z with (Qfloor 0). apply Qfloor_resp_le. lra. }
  set (k := Qfloor (y + (1 # 2))) in *.
  assert (0 <= k # 100) as Hk' by (unfold Qle; simpl; lia).
  destruct (round_cases (k # 100)) as (r & _ & Hr0 & _ & [[_ [[_ Hr]|[Hneg _]]]|[_ Hr]]);
    [by left|lra|].
  right. exists r. split; [done|by apply Hr0].
Qed.

(** The rate of a count and of hours above 0. *)
Lemma rate_cases (n : nat) h :
  0 < h →
  let rate := Binary64.round2 (Binary64.div (Binary64.ofNat n) (Fin h)) in
  rate = PInf ∨ roundedToHundredths (2 ^ (-50)) (inject_Z (Z.of_nat n) / h) rate.
Proof.
  intros Hh rate. unfold rate.
  destruct (ofNat_cases n) as [->|(c' & -> & Hc' & Herr & _)].
  { left. unfold Binary64.div. simpl.
    assert ((Qnum h <? 0)%Z = false) as ->; [|done].
    apply Z.ltb_ge. destruct h as [a b]. unfold Qlt in Hh. simpl in *. lia. }
  set (c := inject_Z (Z.of_nat n)) in *.
  assert (0 <= c) as Hc by (apply (Zle_to_Q 0); lia).
  assert (Binary64.div (Fin c') (Fin h) = Binary64.round (c' / h)) as ->.
  { unfold Binary64.div. simpl. assert (qzero h = false) as ->.
    { apply not_true_is_false. rewrite qzero_spec. lra. }
    apply round_comp, Qred_correct. }
  assert (0 < / h) as Hih by (by apply Qinv_lt_0_compat).
  unfold Qdiv. set (ih := / h) in *.
  assert (0 <= c' * ih) as Ht' by (by apply Qmult_le_0_compat; [|lra]).
  assert (0 <= c * ih) as Ht by (by apply Qmult_le_0_compat; [|lra]).
  assert (Qabs (c' * ih - c * ih) <= (3 # 2) * 2 ^ (-53) * (c * ih)) as Herr'.
  { constants. apply Qabs_Qle_condition. apply Qabs_Qle_condition in Herr. split; nra. }
  destruct (round_cases (c' * ih)) as (x & Hx & Hpos & _ & [[_ [[_ Hr]|[Hneg _]]]|[_ Hr]]);
    [left; by rewrite Hr, round2_PInf|lra|].
  rewrite Hr.
  destruct (round2_of_approximation (c * ih) x) as [H|[H|H]]; [|by left| |by right].
  - clear Hr. constants.
    unabs (x - c' * ih); unabs (c' * ih); unabs (c' * ih - c * ih); unabs (c * ih);
      unabs (x - c * ih); lra.
  - exfalso. destruct (round2_not_negative x (Hpos Ht')) as [H'|(r & H' & _)]; congruence.
Qed.

Lemma ofNat_exact (n : nat) :
  (Z.of_nat n < 2 ^ 53)%Z → Binary64.ofNat n = Fin (inject_Z (Z.of_nat n)).
Proof. intros Hn. apply round_integer. lia. Qed.

(** The average of counts that doubles hold with room to spare: the
    hundredth next to the quotient. *)
Lemma average_nearest (r p : nat) :
  (0 < p ≤ r)%nat → (Z.of_nat r ≤ 2 ^ 44)%Z →
  roundedToHundredths 0 (inject_Z (Z.of_nat r) / inject_Z (Z.of_nat p))
    (Binary64.round2 (Binary64.div (Binary64.ofNat r) (Binary64.ofNat p))).
Proof.
  intros Hp Hr. rewrite !ofNat_exact by lia.
  set (R := inject_Z (Z.of_nat r)). set (Pq := inject_Z (Z.of_nat p)).
  assert (1 <= Pq) as HP1 by (apply (Zle_to_Q 1); lia).
  assert (Pq <= R) as HPR by (apply Zle_to_Q; lia).
  assert (R <= 17592186044416) as HR by (apply (Zle_to_Q _ (2 ^ 44)); lia).
  assert (Binary64.div (Fin R) (Fin Pq) = Binary64.round (R / Pq)) as ->.
  { unfold Binary64.div. simpl. assert (qzero Pq = false) as ->.
    { apply not_true_is_false. rewrite qzero_spec. lra. }
    apply round_comp, Qred_correct. }
  assert (0 < / Pq) as Hip by (apply Qinv_lt_0_compat; lra).
  assert (Pq * / Pq == 1) as Hinv by (apply Qmult_inv_r; lra).
  unfold Qdiv. set (ip := / Pq) in *.
  assert (1 <= R * ip) as Ht1 by nra.
  assert (R * ip <= 17592186044416) as Ht2 by nra.
  set (t := R * ip) in *.
  assert (t * Pq == R) as HtP by (unfold t; rewrite <- Qmult_assoc, (Qmult_comm ip), Hinv; ring).
  assert (2 ^ 44 <= 2 ^ 1023) as Hrange by (by apply Qpower_le_compat_l).
  change (2 ^ 44) with 17592186044416 in Hrange.
  destruct (round_finite t) as (x & -> & Hx & Hx0 & _).
  { unabs t; lra. }
  pose proof (round2_cases x) as Hcases.
  assert (2 ^ 52 <= 2 ^ 1023) as Hrange' by (by apply Qpower_le_compat_l).
  change (2 ^ 52) with 4503599627370496 in Hrange'.
  assert (0 <= x <= 35184372088832) as [Hx1 Hx2].
  { clear Hcases. constants. unabs (x - t); unabs t; lra. }
  destruct (round_finite (x * 100)) as (y & Hy & Hyerr & _ & _).
  { unabs (x * 100); lra. }
  rewrite Hy in Hcases. rewrite Hcases.
  pose proof (floor_half y) as Hk. set (k := Qfloor (y + (1 # 2))) in *. clearbody k.
  exists k. split; [done|]. rewrite hundredth_value.
  assert (Qabs (y - 100 * t) <= (201 # 1) * 2 ^ (-53) * t + 102 * 2 ^ (-1074)) as HD.
  { clear Hcases Hy. constants.
    unabs (x - t); unabs t; unabs (y - x * 100); unabs (x * 100); unabs (y - 100 * t); lra. }
  clear Hx Hyerr Hcases Hy.
  assert (2 * k * Z.of_nat p ≤ 200 * Z.of_nat r + Z.of_nat p ∧
          200 * Z.of_nat r ≤ 2 * k * Z.of_nat p + Z.of_nat p)%Z as [Hlo Hhi].
  { constants. apply Qabs_Qle_condition in HD as [HD1 HD2].
    split; apply Z.le_ngt; intros Hlt.
    - assert (200 * Z.of_nat r + Z.of_nat p + 1 ≤ 2 * k * Z.of_nat p)%Z as H1 by lia.
      apply Zle_to_Q in H1. rewrite !inject_Z_plus, !inject_Z_mult in H1.
      change (inject_Z 200) with 200 in H1. change (inject_Z 1) with 1 in H1.
      change (inject_Z 2) with 2 in H1. fold R Pq in H1.
      set (K := inject_Z k) in *. nra.
    - assert (2 * k * Z.of_nat p + Z.of_nat p + 1 ≤ 200 * Z.of_nat r)%Z as H1 by lia.
      apply Zle_to_Q in H1. rewrite !inject_Z_plus, !inject_Z_mult in H1.
      change (inject_Z 200) with 200 in H1. change (inject_Z 1) with 1 in H1.
      change (inject_Z 2) with 2 in H1. fold R Pq in H1.
      set (K := inject_Z k) in *. nra. }
  apply Zle_to_Q in Hlo, Hhi.
  rewrite !inject_Z_plus, !inject_Z_mult in Hlo, Hhi.
  change (inject_Z 200) with 200 in *. change (inject_Z 2) with 2 in *.
  fold R Pq in Hlo, Hhi.
  set (K := inject_Z k) in *.
  apply Qabs_Qle_condition. split; nra.
Qed.

Lemma round2_hundredths h :
  Binary64.round2 (Fin h) = PInf ∨ Binary64.round2 (Fin h) = NInf ∨
  roundedToHundredths (2 ^ (-50)) h (Binary64.round2 (Fin h)).
Proof.
  apply round2_of_approximation.
  assert (h - h == 0) as Hz by ring. rewrite (Qabs_wd _ _ Hz). change (Qabs 0) with 0.
  pose proof (Qabs_nonneg h). constants. lra.
Qed.
End Binary64Facts.

(** ** The routes in doubles *)

Arguments Binary64.summarize : simpl never.

Lemma binary_upload_success papaParse now csvContent d :
  Binary64.Upload.analyzeBarcodes papaParse now csvContent = Success d →
  ∃ parseResult personDataMap peopleData,
    papaParse (cleanContent csvContent) = inr parseResult ∧
    errors parseResult = [] ∧
    missingColumns Upload.requiredColumns (data parseResult) = [] ∧
    forEachM Upload.groupRow [] (data parseResult) = inr personDataMap ∧
    arrayMapM Binary64.Upload.toPersonData (snd <$> personDataMap) = inr peopleData ∧
    d = {| people_data := sortByCount peopleData;
           statistics := Binary64.summarize (sortByCount peopleData);
           filename := js "uploaded_file.csv";
           upload_time := now |}.
Proof.
  unfold Binary64.Upload.analyzeBarcodes, caught. intros H.
  destruct (papaParse _) as [e|parseResult] eqn:Hparse; simpl in H; [done|].
  destruct (errors parseResult) eqn:Herrors; simpl in H; [|done].
  destruct (missingColumns _ _) eqn:Hmissing; simpl in H; [|done].
  destruct (forEachM _ _ _) as [e|personDataMap] eqn:Hgroup; simpl in H; [done|].
  destruct (arrayMapM _ _) as [e|peopleData] eqn:Hpeople; simpl in H; [done|].
  injection H as <-. by eexists _, _, _.
Qed.

Lemma binary_default_success papaParse now csvContent d :
  Binary64.AnalyzeDefault.analyzeBarcodes papaParse now csvContent = Success d →
  ∃ parseResult,
    papaParse (cleanContent csvContent) = inr parseResult ∧
    errors parseResult = [] ∧
    missingColumns AnalyzeDefault.requiredColumns (data parseResult) = [] ∧
    let peopleData :=
      sortByCount (AnalyzeDefault.toPersonData <$>
                     fold_left AnalyzeDefault.countRow (data parseResult) []) in
    d = {| people_data := peopleData;
           statistics := Binary64.summarize peopleData;
           filename := js "Taskmaster.csv";
           upload_time := now |}.
Proof.
  unfold Binary64.AnalyzeDefault.analyzeBarcodes, caught. intros H.
  destruct (papaParse _) as [e|parseResult] eqn:Hparse; simpl in H; [done|].
  destruct (errors parseResult) eqn:Herrors; simpl in H; [|done].
  destruct (missingColumns _ _) eqn:Hmissing; simpl in H; [|done].
  injection H as <-. by eexists.
Qed.

Lemma binary_summarize {P} `{Counted P} (people : list P) :
  total_people (Binary64.summarize people) = length people ∧
  total_ranges (Binary64.summarize people) = sum_list (countOf <$> people) ∧
  average_ranges_per_person (Binary64.summarize people) =
    match people with
    | [] => Fin 0
    | _ => Binary64.round2 (Binary64.div (Binary64.ofNat (sum_list (countOf <$> people)))
                                          (Binary64.ofNat (length people)))
    end.
Proof.
  unfold Binary64.summarize. simpl. rewrite fold_sum. split_and!; try done.
  destruct people; [apply round2_zero|done].
Qed.

Lemma binary_toPersonData_fields person p :
  Binary64.Upload.toPersonData person = inr p →
  Upload.barcode_range_count p = Upload.barcodeCount person.
Proof. unfold Binary64.Upload.toPersonData. intros H. unbind. by subst p. Qed.

(** Every person of a success has a scan at least. *)
Lemma binary_upload_counts papaParse now csvContent d :
  Binary64.Upload.analyzeBarcodes papaParse now csvContent = Success d →
  people_data d ≠ [] ∧ Forall (λ p, 1 ≤ countOf p)%nat (people_data d).
Proof.
  intros (parseResult & m & unsorted & Hparse & _ & Hmissing & Hgroup & Hpeople & ->)
    %binary_upload_success.
  destruct (upload_grouping (data parseResult)) as (m' & Hm' & Hkeys & Hget & Hsum).
  rewrite Hgroup in Hm'. injection Hm' as <-.
  apply arrayMapM_inr, Forall2_fmap_l in Hpeople. simpl.
  assert (data parseResult ≠ []) as Hrows.
  { intros Hrows. by rewrite Hrows, missingColumns_empty in Hmissing. }
  assert (Forall (λ p, 1 ≤ countOf p)%nat unsorted) as Hpos.
  { apply Forall_lookup. intros i p Hp.
    destruct (Forall2_lookup_r _ _ _ _ _ Hpeople Hp) as ([key person] & Hi & Hperson).
    apply binary_toPersonData_fields in Hperson.
    assert (mapGet key m = Some person) as [Hcount Hkey]%Hget.
    { apply mapGet_elem; [|by eapply list_elem_of_lookup_2].
      rewrite Hkeys. apply NoDup_firstSeen. }
    unfold countOf, Upload.PersonData_counted. rewrite Hperson. simpl. rewrite Hcount.
    apply rowsOf_present. rewrite <- elem_of_firstSeen, <- Hkeys.
    apply (list_elem_of_fmap_2 fst m (key, person)). by eapply list_elem_of_lookup_2. }
  split; [|by rewrite sortByCount_perm].
  intros Hnil. apply (f_equal length) in Hnil.
  rewrite (Permutation_length (sortByCount_perm unsorted)) in Hnil.
  apply Forall2_length in Hpeople.
  assert (length m = length (firstSeen (rowKey <$> data parseResult))) as Hlen
    by by rewrite <- Hkeys, length_fmap.
  destruct (data parseResult) as [|row rows]; [done|]. simpl in *. lia.
Qed.

Lemma binary_default_counts papaParse now csvContent d :
  Binary64.AnalyzeDefault.analyzeBarcodes papaParse now csvContent = Success d →
  people_data d ≠ [] ∧ Forall (λ p, 1 ≤ countOf p)%nat (people_data d).
Proof.
  intros (parseResult & Hparse & He & Hmissing & ->)%binary_default_success. simpl.
  set (exact := {| people_data := sortByCount (AnalyzeDefault.toPersonData <$>
                                    fold_left AnalyzeDefault.countRow (data parseResult) []);
                   statistics := summarize (sortByCount (AnalyzeDefault.toPersonData <$>
                                    fold_left AnalyzeDefault.countRow (data parseResult) []));
                   filename := js "Taskmaster.csv"; upload_time := now |}).
  assert (AnalyzeDefault.analyzeBarcodes papaParse now csvContent = Success exact) as Hd.
  { unfold AnalyzeDefault.analyzeBarcodes, caught. by rewrite Hparse; simpl; rewrite He, Hmissing. }
  destruct (default_people _ _ _ _ Hd)
    as (parseResult' & Hparse' & Hpeople & Hkeys & Hcount & Hsum).
  rewrite Hparse in Hparse'. injection Hparse' as <-.
  destruct (totals_of_keys (AnalyzeDefault.toPersonData <$>
                              fold_left AnalyzeDefault.countRow (data parseResult) [])
              (firstSeen (rowKey <$> data parseResult)) (data parseResult) exact)
    as (Hne & Hpos & _); [done|done| | | | |by split].
  - by rewrite length_fmap, <- Hkeys, length_fmap.
  - apply Forall_fmap, Forall_forall. intros [key count] Hin.
    rewrite Forall_forall in Hcount. specialize (Hcount _ Hin). simpl in *.
    unfold countOf, AnalyzeDefault.PersonData_counted. simpl. rewrite Hcount.
    apply rowsOf_present.
    rewrite <- elem_of_firstSeen, <- Hkeys. by apply (list_elem_of_fmap_2 fst) in Hin.
  - by rewrite default_counts.
  - intros Hrows. by rewrite Hrows, missingColumns_empty in Hmissing.
Qed.


Lemma binary_statistics {P} `{Counted P} (people : list P) :
  people ≠ [] →
  Forall (λ p, 1 ≤ countOf p)%nat people →
  let s := Binary64.summarize people in
  total_ranges s = sum_list (countOf <$> people) ∧
  total_people s = length people ∧
  (0 < total_people s)%nat ∧
  ((Z.of_nat (total_ranges s) ≤ 2 ^ 44)%Z →
   roundedToHundredths 0 (quotient (total_ranges s) (total_people s))
     (average_ranges_per_person s)).
Proof.
  intros Hne Hpos s. destruct (binary_summarize people) as (Hn & Hsum & Havg).
  fold s in Hn, Hsum, Havg.
  assert (0 < length people ≤ sum_list (countOf <$> people))%nat as Hlen.
  { split; [destruct people; [done|simpl; lia]|].
    rewrite <- (length_fmap countOf). by apply sum_at_least_length, Forall_fmap. }
  split_and!; [done|done|lia|].
  intros Hbound. rewrite Havg, Hn, Hsum in *.
  destruct people; [done|]. by apply average_nearest.
Qed.

(** C4, as it fails: 41 rows of 40 people have the quotient 1.025, which
    the rule of the half going up rounds to 1.03; the product by 100 is
    below 102.5 in doubles, and the average returned is 1.02. *)
Lemma average_of_a_half_goes_down :
  ∃ d,
    Binary64.AnalyzeDefault.analyzeBarcodes (parsed fortyPeople) [] [] = Success d ∧
    total_ranges (statistics d) = 41%nat ∧
    total_people (statistics d) = 40%nat ∧
    halfUpHundredth (quotient 41 40) = (103 # 100)%Q ∧
    average_ranges_per_person (statistics d) = Binary64.round (102 # 100) ∧
    average_ranges_per_person (statistics d) ≠
      Binary64.round (halfUpHundredth (quotient 41 40)).
Proof.
  eexists. split_and!; [vm_compute; reflexivity|reflexivity..|by vm_compute|by vm_compute].
Qed.

(** C4, amended. In a success of either route the total is the sum of the
    counts of the people listed and the number of people is the length of
    the list, which is not empty. The average is the double of a hundredth
    that is within half a hundredth of the one over the other, as long as
    the total is at most [2^44]: between two hundredths that are equally
    near, either may be returned. Without people [summarize] gives 0. *)
Theorem statistics_consistent papaParse now csvContent :
  (∀ d, Binary64.Upload.analyzeBarcodes papaParse now csvContent = Success d →
     let s := statistics d in
     total_ranges s = sum_list (countOf <$> people_data d) ∧
     total_people s = length (people_data d) ∧
     (0 < total_people s)%nat ∧
     ((Z.of_nat (total_ranges s) ≤ 2 ^ 44)%Z →
      roundedToHundredths 0 (quotient (total_ranges s) (total_people s))
        (average_ranges_per_person s))) ∧
  (∀ d, Binary64.AnalyzeDefault.analyzeBarcodes papaParse now csvContent = Success d →
     let s := statistics d in
     total_ranges s = sum_list (countOf <$> people_data d) ∧
     total_people s = length (people_data d) ∧
     (0 < total_people s)%nat ∧
     ((Z.of_nat (total_ranges s) ≤ 2 ^ 44)%Z →
      roundedToHundredths 0 (quotient (total_ranges s) (total_people s))
        (average_ranges_per_person s))) ∧
  average_ranges_per_person (Binary64.summarize (@nil Upload.PersonData)) = Fin 0 ∧
  average_ranges_per_person (Binary64.summarize (@nil AnalyzeDefault.PersonData)) = Fin 0.
Proof.
  split_and!; [intros d Hd..|by vm_compute|by vm_compute].
  - destruct (binary_upload_counts _ _ _ _ Hd) as [Hne Hpos].
    apply binary_upload_success in Hd as (? & ? & peopleData & _ & _ & _ & _ & _ & ->).
    by apply binary_statistics.
  - destruct (binary_default_counts _ _ _ _ Hd) as [Hne Hpos].
    apply binary_default_success in Hd as (? & _ & _ & _ & ->).
    by apply binary_statistics.
Qed.

Lemma statistics_consistent_witness :
  ∃ d e,
    Binary64.Upload.analyzeBarcodes (parsed tenSeconds) [] [] = Success d ∧
    Binary64.AnalyzeDefault.analyzeBarcodes (parsed fortyPeople) [] [] = Success e ∧
    roundedToHundredths 0 (quotient 3 2) (average_ranges_per_person (statistics d)) ∧
    roundedToHundredths 0 (quotient 41 40) (average_ranges_per_person (statistics e)).
Proof.
  assert (∃ d e,
            Binary64.Upload.analyzeBarcodes (parsed tenSeconds) [] [] = Success d ∧
            Binary64.AnalyzeDefault.analyzeBarcodes (parsed fortyPeople) [] [] = Success e ∧
            total_ranges (statistics d) = 3%nat ∧ total_people (statistics d) = 2%nat ∧
            total_ranges (statistics e) = 41%nat ∧ total_people (statistics e) = 40%nat)
    as (d & e & Hd & He & Hd1 & Hd2 & He1 & He2).
  { eexists _, _. split_and!; vm_compute; reflexivity. }
  exists d, e.
  destruct (statistics_consistent (parsed tenSeconds) [] []) as (Hup & _).
  destruct (statistics_consistent (parsed fortyPeople) [] []) as (_ & Hdef & _).
  destruct (Hup d Hd) as (_ & _ & _ & Hdavg).
  destruct (Hdef e He) as (_ & _ & _ & Heavg).
  rewrite Hd1, Hd2 in Hdavg. rewrite He1, He2 in Heavg.
  split_and!; [assumption|assumption|apply Hdavg; lia|apply Heavg; lia].
Defined.

(** ** The rate *)

Lemma binary_toPersonData_rate person p :
  Binary64.Upload.toPersonData person = inr p →
  let hours := hoursWorked (Upload.work_periods p) in
  Upload.total_hours_worked p = Binary64.round2 hours ∧
  Upload.barcodes_per_hour p =
    Binary64.round2
      (if ngt hours (Fin 0)
       then Binary64.div (Binary64.ofNat (Upload.barcode_range_count p)) hours
       else Fin 0).
Proof.
  unfold Binary64.Upload.toPersonData. intros H. unbind. by subst p.
Qed.

Lemma binary_upload_person papaParse now csvContent d p :
  Binary64.Upload.analyzeBarcodes papaParse now csvContent = Success d →
  p ∈ people_data d →
  ∃ person, Binary64.Upload.toPersonData person = inr p.
Proof.
  intros (parseResult & personDataMap & peopleData & _ & _ & _ & _ & Hpeople & ->)
    %binary_upload_success Hp.
  simpl in Hp. rewrite sortByCount_perm in Hp.
  apply arrayMapM_inr in Hpeople.
  apply list_elem_of_lookup in Hp as [i Hi].
  destruct (Forall2_lookup_r _ _ _ i p Hpeople Hi) as (person & _ & Hperson).
  by exists person.
Qed.

Lemma ngt_zero h : ngt (Fin h) (Fin 0) = true ↔ (0 < h)%Q.
Proof.
  simpl. rewrite negb_true_iff. split.
  - intros H. apply Qnot_le_lt. intros Hle%Qle_bool_iff. congruence.
  - intros H. apply not_true_is_false. intros Hle%Qle_bool_iff. lra.
Qed.




(** ** The rate is never NaN *)

Lemma div_finite c h :
  (0 < h)%Q → Binary64.div (Fin c) (Fin h) = Binary64.round (c / h).
Proof.
  intros Hh. unfold Binary64.div. simpl. assert (qzero h = false) as ->.
  { apply not_true_is_false. rewrite qzero_spec. lra. }
  apply round_comp, Qred_correct.
Qed.

(** X20. In a success of the upload route the rate of a person whose count
    a double holds exactly is never NaN and never negative, whatever the
    times of the rows are, even when the hours are NaN or negative: it is
    a double that is not negative, or the infinity that the division by
    hours next to nothing gives. *)
Theorem rate_is_a_number papaParse now csvContent d p :
  Binary64.Upload.analyzeBarcodes papaParse now csvContent = Success d →
  p ∈ people_data d →
  (Z.of_nat (Upload.barcode_range_count p) < 2 ^ 53)%Z →
  Upload.barcodes_per_hour p = PInf ∨
  ∃ q, Upload.barcodes_per_hour p = Fin q ∧ (0 <= q)%Q.
Proof.
  intros Hd Hp Hcount.
  destruct (binary_upload_person _ _ _ _ _ Hd Hp) as [person Hperson].
  apply binary_toPersonData_rate in Hperson as [_ ->].
  rewrite ofNat_exact by done.
  set (c := inject_Z (Z.of_nat (Upload.barcode_range_count p))).
  assert (0 <= c)%Q as Hc by (apply (Zle_to_Q 0); lia).
  assert (Binary64.round2 (Fin 0) = PInf ∨
          ∃ q, Binary64.round2 (Fin 0) = Fin q ∧ (0 <= q)%Q) as Hzero.
  { right. exists 0%Q. by rewrite round2_zero. }
  destruct (hoursWorked (Upload.work_periods p)) as [h| | |]; try done.
  destruct (ngt (Fin h) (Fin 0)) eqn:Hguard; [|done].
  apply ngt_zero in Hguard. rewrite div_finite by done.
  assert (0 <= c / h)%Q as Hq by (apply Qle_shift_div_l; lra).
  destruct (round_cases (c / h)) as (x & _ & Hx & _ & [[_ [[_ ->]|[Hneg _]]]|[_ ->]]).
  - left. apply round2_PInf.
  - lra.
  - apply round2_not_negative. by apply Hx.
Qed.

Lemma rate_is_a_number_witness :
  ∃ d p p' e r,
    Binary64.Upload.analyzeBarcodes (parsed oddTimes) [] [] = Success d ∧
    people_data d = [p; p'] ∧
    Upload.total_hours_worked p = Fin (-1) ∧
    Upload.total_hours_worked p' = NaN ∧
    (Upload.barcodes_per_hour p = PInf ∨
     ∃ q, Upload.barcodes_per_hour p = Fin q ∧ (0 <= q)%Q) ∧
    (Upload.barcodes_per_hour p' = PInf ∨
     ∃ q, Upload.barcodes_per_hour p' = Fin q ∧ (0 <= q)%Q) ∧
    Binary64.Upload.analyzeBarcodes (parsed tinyHours) [] [] = Success e ∧
    people_data e = [r] ∧
    Upload.barcodes_per_hour r = PInf.
Proof.
  assert (∃ d p p',
            Binary64.Upload.analyzeBarcodes (parsed oddTimes) [] [] = Success d ∧
            people_data d = [p; p'] ∧
            Upload.total_hours_worked p = Fin (-1) ∧
            Upload.total_hours_worked p' = NaN ∧
            Upload.barcode_range_count p = 2%nat ∧
            Upload.barcode_range_count p' = 1%nat)
    as (d & p & p' & Hd & Hpeople & Hp & Hp' & Hc & Hc').
  { eexists _, _, _. split_and!; [vm_compute; reflexivity|reflexivity..]. }
  assert (∃ e r,
            Binary64.Upload.analyzeBarcodes (parsed tinyHours) [] [] = Success e ∧
            people_data e = [r] ∧
            Upload.barcodes_per_hour r = PInf)
    as (e & r & He & Hr & Hrate).
  { eexists _, _. split_and!; [vm_compute; reflexivity|reflexivity..]. }
  exists d, p, p', e, r. split_and!; [assumption..| | |assumption|assumption|assumption].
  - apply (rate_is_a_number _ _ _ _ _ Hd); [|rewrite Hc; lia].
    rewrite Hpeople. apply list_elem_of_here.
  - apply (rate_is_a_number _ _ _ _ _ Hd); [|rewrite Hc'; lia].
    rewrite Hpeople. apply list_elem_of_further, list_elem_of_here.
Defined.

(** ** The gaps *)

Lemma binary_closePeriod_inr p q :
  Binary64.closePeriod p = inr q →
  start_time q = start_time p ∧ end_time q = end_time p ∧
  barcode_count q = barcode_count p.
Proof. unfold Binary64.closePeriod. intros H. unbind. by subst q. Qed.

Lemma binary_covers_closed p q run :
  Binary64.closePeriod p = inr q → covers p run → covers q run.
Proof.
  intros (Hs & He & Hc)%binary_closePeriod_inr (? & ? & ?).
  unfold covers. by rewrite Hs, He, Hc.
Qed.

Lemma binary_walkPeriods_runs rest : ∀ prev current periods out runs run,
  Forall2 covers periods runs →
  covers current run →
  end_time current = prev →
  Forall (neighbours computedWithin30) runs →
  neighbours computedWithin30 run →
  neighbours (λ p q, computedAbove30 (end_time p) (start_time q)) periods →
  (∀ p, last periods = Some p → computedAbove30 (end_time p) (start_time current)) →
  Binary64.walkPeriods prev current periods rest = inr out →
  ∃ runs',
    mjoin runs' = run ++ rest ∧
    Forall2 covers out (runs ++ runs') ∧
    Forall (neighbours computedWithin30) (runs ++ runs') ∧
    neighbours (λ p q, computedAbove30 (end_time p) (start_time q)) out.
Proof.
  induction rest as [|t rest IH];
    intros prev current periods out runs run Hruns Hrun Hprev Hin Hrunin Hsep Hlast H;
    simpl in H.
  - unbind. subst out. pose proof (binary_covers_closed _ _ _ E Hrun) as Hclosed.
    apply binary_closePeriod_inr in E as (Hs & He & Hc).
    exists [run]. split_and!.
    + simpl. by rewrite !app_nil_r.
    + apply Forall2_app; [done|]. by constructor.
    + apply Forall_app. split; [done|]. by constructor.
    + apply neighbours_snoc; [done|]. intros p Hp. rewrite Hs. by apply Hlast.
  - unbind. destruct (ngt _ _) eqn:Hgap.
    + unbind. pose proof (binary_covers_closed _ _ _ E1 Hrun) as Hclosed.
      apply binary_closePeriod_inr in E1 as (Hs & He & Hc).
      edestruct (IH t (newPeriod t) (periods ++ [w]) out (runs ++ [run]) [t])
        as (runs' & Hjoin & Hcov & Hwithin & Hbetween); [..|exact H|].
      * apply Forall2_app; [done|]. by constructor.
      * done.
      * done.
      * apply Forall_app. split; [done|]. by constructor.
      * apply neighbours_singleton.
      * apply neighbours_snoc; [done|]. intros p Hp. rewrite Hs. by apply Hlast.
      * intros p. rewrite last_snoc. intros [= <-]. simpl.
        rewrite He, Hprev. by exists n, n0.
      * exists (run :: runs'). split_and!.
        -- simpl. rewrite Hjoin. done.
        -- by rewrite <- app_assoc in Hcov.
        -- by rewrite <- app_assoc in Hwithin.
        -- done.
    + edestruct (IH t
                   {| start_time := start_time current; end_time := t;
                      duration_hours := duration_hours current;
                      barcode_count := S (barcode_count current) |}
                   periods out runs (run ++ [t]))
        as (runs' & Hjoin & Hcov & Hwithin & Hbetween); [done| | | | | | |exact H|].
      * destruct Hrun as (Hh & Hl & Hc). unfold covers. simpl. split_and!.
        -- rewrite head_app, Hh. done.
        -- by rewrite last_snoc.
        -- rewrite length_app, Hc. simpl. lia.
      * done.
      * done.
      * apply neighbours_snoc; [done|]. intros y Hy.
        destruct Hrun as (_ & Hl & _). rewrite Hl in Hy. injection Hy as <-.
        rewrite Hprev. by exists n, n0.
      * done.
      * done.
      * exists runs'. split_and!; [|done..]. by rewrite Hjoin, <- app_assoc.
Qed.

Lemma binary_calculateWorkPeriods_runs timeEntries periods :
  Binary64.calculateWorkPeriods timeEntries = inr periods →
  ∃ runs,
    mjoin runs = stableSort defaultBefore timeEntries ∧
    Forall2 covers periods runs ∧
    Forall (neighbours computedWithin30) runs ∧
    neighbours (λ p q, computedAbove30 (end_time p) (start_time q)) periods.
Proof.
  unfold Binary64.calculateWorkPeriods. destruct timeEntries as [|t l].
  - intros [= <-]. exists []. split_and!; [done|constructor|constructor|].
    apply neighbours_nil.
  - pose proof (stableSort_perm defaultBefore (t :: l)) as Hperm.
    destruct (stableSort defaultBefore (t :: l)) as [|first rest];
      [by apply Permutation_nil_cons in Hperm|].
    simpl. intros H.
    edestruct (binary_walkPeriods_runs rest first (newPeriod first) [] periods [] [first])
      as (runs & Hjoin & Hcov & Hwithin & Hbetween);
      [solve [done | apply neighbours_singleton | apply neighbours_nil] .. | exact H |].
    by exists runs.
Qed.

(** X2. In doubles, the test [timeDiff > 30] holds from the end of a
    period to the start of the period that follows it, and fails between
    two scans that follow each other inside the run of a period. Thirty
    minutes on the clock can pass the test: the difference of the two
    sums of doubles can be above 30. *)
Theorem periods_split_at_gaps timeEntries periods :
  Binary64.calculateWorkPeriods timeEntries = inr periods →
  neighbours (λ p q, computedAbove30 (end_time p) (start_time q)) periods ∧
  ∃ runs,
    mjoin runs = stableSort defaultBefore timeEntries ∧
    Forall2 covers periods runs ∧
    Forall (neighbours computedWithin30) runs.
Proof.
  intros (runs & Hjoin & Hcov & Hwithin & Hbetween)%binary_calculateWorkPeriods_runs.
  split; [done|]. by exists runs.
Qed.

Lemma periods_split_at_gaps_witness :
  ∃ periods p q,
    Binary64.calculateWorkPeriods halfAnHour = inr periods ∧
    periods !! 0%nat = Some p ∧ periods !! 1%nat = Some q ∧
    computedAbove30 (end_time p) (start_time q).
Proof.
  assert (∃ periods p q,
            Binary64.calculateWorkPeriods halfAnHour = inr periods ∧
            periods !! 0%nat = Some p ∧ periods !! 1%nat = Some q)
    as (periods & p & q & H & Hp & Hq).
  { eexists _, _, _. split_and!; [vm_compute; reflexivity|done|done]. }
  exists periods, p, q. split_and!; [done..|].
  by apply (proj1 (periods_split_at_gaps _ _ H) 0%nat).
Defined.

(** ** The same people in both arithmetics *)

Arguments Binary64.parseTimeToMinutes : simpl never.

Lemma binary_parseTimeToMinutes_string str :
  ∃ n, Binary64.parseTimeToMinutes (Some str) = inr n.
Proof. by eexists. Qed.

Lemma binary_parseTimeToMinutes_inr timeStr n :
  Binary64.parseTimeToMinutes timeStr = inr n → is_Some timeStr.
Proof. by destruct timeStr. Qed.

Lemma binary_parseTimeToMinutes_inl timeStr e :
  Binary64.parseTimeToMinutes timeStr = inl e →
  timeStr = None ∧ e = readOfUndefined "split".
Proof. destruct timeStr; [done|]. by intros [= <-]. Qed.

Lemma binary_closePeriod_total p :
  is_Some (start_time p) → is_Some (end_time p) → ∃ q, Binary64.closePeriod p = inr q.
Proof.
  intros [s Hs] [e He]. unfold Binary64.closePeriod. rewrite Hs, He.
  destruct (binary_parseTimeToMinutes_string s) as [a ->].
  destruct (binary_parseTimeToMinutes_string e) as [b ->]. by eexists.
Qed.

Lemma binary_closePeriod_inl p e :
  Binary64.closePeriod p = inl e → e = readOfUndefined "split".
Proof.
  unfold Binary64.closePeriod.
  destruct (Binary64.parseTimeToMinutes (start_time p)) eqn:Hs; simpl;
    [intros [= <-]; by apply binary_parseTimeToMinutes_inl in Hs as [_ ->]|].
  destruct (Binary64.parseTimeToMinutes (end_time p)) eqn:He; simpl;
    [intros [= <-]; by apply binary_parseTimeToMinutes_inl in He as [_ ->]|done].
Qed.

Lemma binary_walkPeriods_total rest : ∀ prev current periods,
  is_Some prev → is_Some (start_time current) → is_Some (end_time current) →
  Forall is_Some rest →
  ∃ out, Binary64.walkPeriods prev current periods rest = inr out.
Proof.
  induction rest as [|t rest IH]; intros prev current periods Hprev Hs He Hrest; simpl.
  - destruct (binary_closePeriod_total current Hs He) as [q ->]. by eexists.
  - apply Forall_cons in Hrest as [[t' ->] Hrest]. destruct Hprev as [prev' ->].
    destruct (binary_parseTimeToMinutes_string prev') as [a ->].
    destruct (binary_parseTimeToMinutes_string t') as [b ->]. simpl.
    destruct (ngt _ _).
    + destruct (binary_closePeriod_total current Hs He) as [q ->]. simpl.
      by apply IH.
    + by apply IH.
Qed.

Lemma binary_walkPeriods_inr rest : ∀ prev current periods out,
  Binary64.walkPeriods prev current periods rest = inr out →
  is_Some (start_time current) ∧ Forall is_Some rest.
Proof.
  induction rest as [|t rest IH]; intros prev current periods out H; simpl in H.
  - unbind. split; [|constructor]. unfold Binary64.closePeriod in E. unbind.
    by eapply binary_parseTimeToMinutes_inr.
  - unbind. apply binary_parseTimeToMinutes_inr in E0 as Ht. destruct (ngt _ _).
    + unbind. apply IH in H as [_ Hrest]. split; [|by constructor].
      unfold Binary64.closePeriod in E1. unbind. by eapply binary_parseTimeToMinutes_inr.
    + apply IH in H as [Hs Hrest]. split; [done|by constructor].
Qed.

Lemma binary_walkPeriods_inl rest : ∀ prev current periods e,
  Binary64.walkPeriods prev current periods rest = inl e → e = readOfUndefined "split".
Proof.
  induction rest as [|t rest IH]; intros prev current periods e; simpl.
  - destruct (Binary64.closePeriod current) eqn:Hc; simpl; [|done].
    intros [= <-]. by eapply binary_closePeriod_inl.
  - destruct (Binary64.parseTimeToMinutes prev) eqn:Hp; simpl;
      [intros [= <-]; by apply binary_parseTimeToMinutes_inl in Hp as [_ ->]|].
    destruct (Binary64.parseTimeToMinutes t) eqn:Ht; simpl;
      [intros [= <-]; by apply binary_parseTimeToMinutes_inl in Ht as [_ ->]|].
    destruct (ngt _ _); [|apply IH].
    destruct (Binary64.closePeriod current) eqn:Hc; simpl; [|apply IH].
    intros [= <-]. by eapply binary_closePeriod_inl.
Qed.

Lemma binary_calculateWorkPeriods_total timeEntries :
  Forall is_Some timeEntries →
  ∃ periods, Binary64.calculateWorkPeriods timeEntries = inr periods.
Proof.
  intros Hall. unfold Binary64.calculateWorkPeriods.
  destruct timeEntries as [|t l]; [by eexists|].
  pose proof (stableSort_perm defaultBefore (t :: l)) as Hperm.
  rewrite <- Hperm in Hall.
  destruct (stableSort defaultBefore (t :: l)) as [|first rest];
    [by apply Permutation_nil_cons in Hperm|].
  apply Forall_cons in Hall as [Hfirst Hrest]. simpl.
  by apply binary_walkPeriods_total.
Qed.

Lemma binary_calculateWorkPeriods_defined timeEntries periods :
  Binary64.calculateWorkPeriods timeEntries = inr periods → Forall is_Some timeEntries.
Proof.
  unfold Binary64.calculateWorkPeriods.
  destruct timeEntries as [|t l]; [constructor|].
  pose proof (stableSort_perm defaultBefore (t :: l)) as Hperm.
  destruct (stableSort defaultBefore (t :: l)) as [|first rest];
    [by apply Permutation_nil_cons in Hperm|].
  simpl. intros [Hfirst Hrest]%binary_walkPeriods_inr.
  rewrite <- Hperm. by constructor.
Qed.

Lemma binary_calculateWorkPeriods_inl timeEntries e :
  Binary64.calculateWorkPeriods timeEntries = inl e → e = readOfUndefined "split".
Proof.
  unfold Binary64.calculateWorkPeriods.
  destruct timeEntries as [|t l]; [done|]. apply binary_walkPeriods_inl.
Qed.

Lemma toPersonData_agree person :
  agree (λ p p', listing p = listing p')
    (Binary64.Upload.toPersonData person) (Upload.toPersonData person).
Proof.
  unfold Binary64.Upload.toPersonData, Upload.toPersonData.
  destruct (Binary64.calculateWorkPeriods _) as [e|periods] eqn:Hb;
    destruct (calculateWorkPeriods _) as [e'|periods'] eqn:Hx; simpl.
  - apply binary_calculateWorkPeriods_inl in Hb. apply calculateWorkPeriods_inl in Hx.
    congruence.
  - apply calculateWorkPeriods_defined, binary_calculateWorkPeriods_total in Hx as [? Hx].
    congruence.
  - apply binary_calculateWorkPeriods_defined, calculateWorkPeriods_total in Hb as [? Hb].
    congruence.
  - done.
Qed.

Lemma arrayMapM_agree {A B C D} (f : A → M B) (g : A → M C) (h : B → D) (k : C → D) l :
  (∀ a, agree (λ b c, h b = k c) (f a) (g a)) →
  agree (λ bs cs, h <$> bs = k <$> cs) (arrayMapM f l) (arrayMapM g l).
Proof.
  intros Hfg. induction l as [|a l IH]; simpl; [done|].
  specialize (Hfg a). destruct (f a) as [e|b], (g a) as [e'|c]; simpl in *; try done.
  destruct (arrayMapM f l) as [e|bs], (arrayMapM g l) as [e'|cs]; simpl in *; try done.
  change (h b :: (h <$> bs) = k c :: (k <$> cs)). by rewrite Hfg, IH.
Qed.

Lemma sortByCount_listing (people : list Upload.PersonData) :
  listing <$> sortByCount people =
  stableSort (λ a b : jsval * jsval * nat, bool_decide (b.2 ≤ a.2)%nat) (listing <$> people).
Proof.
  unfold sortByCount, countBefore.
  pose (before := λ a b : jsval * jsval * nat, bool_decide (b.2 ≤ a.2)%nat).
  apply (stableSort_fmap listing before).
Qed.

Lemma summarize_totals {P} `{Counted P} (people : list P) :
  total_people (summarize people) = total_people (Binary64.summarize people) ∧
  total_ranges (summarize people) = total_ranges (Binary64.summarize people).
Proof. done. Qed.


